(** * Asset renaming and reference rewriting scripts: a shallow embedding

    The scripts under [scripts/] are straight-line batch jobs over text and
    over a directory tree.  Text is modelled as [string] (a sequence of code
    points below 256), Python dictionaries that are iterated as insertion
    ordered association lists, dictionaries that are only looked up as
    [gmap], and the directory tree as a finite map from paths to nodes. *)

From stdpp Require Import gmap strings list pretty sorting.
From Stdlib Require Import Ascii NArith.
From Stdlib Require OrderedTypeEx.

Local Open Scope N_scope.

(** ** Characters *)

Module Char.

Definition code (c : ascii) : N := N_of_ascii c.

Definition between (lo hi : N) (c : ascii) : bool :=
  (lo <=? code c) && (code c <=? hi).

Definition is_upper_ascii (c : ascii) : bool := between 65 90 c.
Definition is_lower_ascii (c : ascii) : bool := between 97 122 c.

(** [[a-zA-Z]] *)
Definition is_letter (c : ascii) : bool := is_upper_ascii c || is_lower_ascii c.

(** [\d] on a [str] pattern: the decimal digits; below 256 these are 0-9. *)
Definition is_digit (c : ascii) : bool := between 48 57 c.

(** [[a-f0-9]] *)
Definition is_hex_lower (c : ascii) : bool := between 97 102 c || is_digit c.

(** [\s] on a [str] pattern, and [str.isspace]: below 256 these are
    TAB..CR, FS..US, space, NEL and NBSP. *)
Definition is_space (c : ascii) : bool :=
  between 9 13 c || between 28 32 c || (code c =? 133) || (code c =? 160).

(** [str.isalpha] below 256. *)
Definition is_alpha (c : ascii) : bool :=
  is_letter c || (code c =? 170) || (code c =? 181) || (code c =? 186)
  || between 192 214 c || between 216 246 c || between 248 255 c.

(** [str.isdigit] below 256: the decimal digits and the superscripts. *)
Definition is_digit_str (c : ascii) : bool :=
  is_digit c || (code c =? 178) || (code c =? 179) || (code c =? 185).

(** [\w] on a [str] pattern: alphanumeric (alphabetic, decimal, digit or
    numeric) or underscore. *)
Definition is_word (c : ascii) : bool :=
  is_alpha c || is_digit_str c || between 188 190 c || (code c =? 95).

(** [str.lower] on one character below 256. *)
Definition lower (c : ascii) : ascii :=
  if is_upper_ascii c || between 192 214 c || between 216 222 c
  then ascii_of_N (code c + 32) else c.

Definition eqb_nocase (a b : ascii) : bool := Ascii.eqb (lower a) (lower b).

Definition is_quote (c : ascii) : bool :=
  Ascii.eqb c "034" || Ascii.eqb c "'".

End Char.

(** ** Python string primitives *)

Module Str.

Fixpoint map (f : ascii → ascii) (s : string) : string :=
  match s with
  | EmptyString => EmptyString
  | String c s' => String (f c) (map f s')
  end.

(** [s.lower()] *)
Definition lower (s : string) : string := map Char.lower s.

Fixpoint all (p : ascii → bool) (s : string) : bool :=
  match s with
  | EmptyString => true
  | String c s' => p c && all p s'
  end.

(** [s.startswith(p)] *)
Fixpoint startswith (p s : string) : bool :=
  match p, s with
  | EmptyString, _ => true
  | String a p', String b s' => Ascii.eqb a b && startswith p' s'
  | String _ _, EmptyString => false
  end.

(** [s[n:]] *)
Fixpoint drop (n : nat) (s : string) : string :=
  match n, s with
  | O, _ => s
  | S n', String _ s' => drop n' s'
  | S _, EmptyString => EmptyString
  end.

(** [s[:n]] *)
Fixpoint take (n : nat) (s : string) : string :=
  match n, s with
  | O, _ => EmptyString
  | S n', String c s' => String c (take n' s')
  | S _, EmptyString => EmptyString
  end.

(** [sub in s] *)
Fixpoint contains (sub s : string) : bool :=
  startswith sub s ||
  match s with
  | EmptyString => false
  | String _ s' => contains sub s'
  end.

(** [s.endswith(p)] *)
Definition endswith (p s : string) : bool :=
  (String.length p <=? String.length s)%nat
  && String.eqb (drop (String.length s - String.length p) s) p.

(** [s.isdigit()]: non-empty and every character a digit. *)
Definition isdigit (s : string) : bool :=
  match s with
  | EmptyString => false
  | _ => all Char.is_digit_str s
  end.

(** [s.split(c)] for a one-character separator. *)
Fixpoint split (sep : ascii) (s : string) : list string :=
  match s with
  | EmptyString => [EmptyString]
  | String c s' =>
      if Ascii.eqb c sep then EmptyString :: split sep s'
      else
        match split sep s' with
        | part :: parts => String c part :: parts
        | [] => [String c EmptyString]
        end
  end.

(** [sep.join(l)] *)
Fixpoint join (sep : string) (l : list string) : string :=
  match l with
  | [] => EmptyString
  | [x] => x
  | x :: l' => x +:+ sep +:+ join sep l'
  end.

Fixpoint lstrip (p : ascii → bool) (s : string) : string :=
  match s with
  | String c s' => if p c then lstrip p s' else s
  | EmptyString => EmptyString
  end.

(** The longest prefix of characters in [p]; [lstrip] drops it. *)
Fixpoint takewhile (p : ascii → bool) (s : string) : string :=
  match s with
  | String c s' => if p c then String c (takewhile p s') else EmptyString
  | EmptyString => EmptyString
  end.

Fixpoint rstrip (p : ascii → bool) (s : string) : string :=
  match s with
  | EmptyString => EmptyString
  | String c s' =>
      match rstrip p s' with
      | EmptyString => if p c then EmptyString else String c EmptyString
      | r => String c r
      end
  end.

(** [s.strip(chars)] with the set of characters given as a predicate;
    [s.strip()] is [strip Char.is_space]. *)
Definition strip (p : ascii → bool) (s : string) : string :=
  rstrip p (lstrip p s).

(** [s.replace(old, new)]: every non-overlapping occurrence, leftmost
    first.  An empty [old] is not used by the scripts; it is left alone. *)
Fixpoint replace_go (skip : nat) (old new : string) (s : string) : string :=
  match s with
  | EmptyString => EmptyString
  | String c s' =>
      match skip with
      | S k => replace_go k old new s'
      | O =>
          if startswith old s
          then new +:+ replace_go (String.length old - 1) old new s'
          else String c (replace_go O old new s')
      end
  end.
Definition replace (old new s : string) : string :=
  match old with
  | EmptyString => s
  | _ => replace_go O old new s
  end.

(** [s.rfind(c)]: the index of the last occurrence. *)
Fixpoint rfind_go (c : ascii) (i : nat) (last : option nat) (s : string)
  : option nat :=
  match s with
  | EmptyString => last
  | String a s' =>
      rfind_go c (S i) (if Ascii.eqb a c then Some i else last) s'
  end.
Definition rfind (c : ascii) (s : string) : option nat := rfind_go c O None s.

End Str.

(** ** [pathlib] on pure POSIX paths *)

Module PurePath.

(** The parts of a path without its root: empty and [.] components are
    dropped when a path is parsed. *)
Definition parts (s : string) : list string :=
  filter (λ p, p ≠ EmptyString ∧ p ≠ ".") (Str.split "/" s).

(** [Path(s).name] *)
Definition name (s : string) : string := List.last (parts s) EmptyString.

(** [Path(s).suffix]: from the last dot of the name, when that dot is
    neither the first nor the last character. *)
Definition suffix (s : string) : string :=
  let n := name s in
  match Str.rfind "." n with
  | Some i =>
      if (0 <? i)%nat && (i <? String.length n - 1)%nat
      then Str.drop i n else EmptyString
  | None => EmptyString
  end.

(** [Path(s).stem] *)
Definition stem (s : string) : string :=
  let n := name s in
  match Str.rfind "." n with
  | Some i =>
      if (0 <? i)%nat && (i <? String.length n - 1)%nat
      then Str.take i n else n
  | None => n
  end.

End PurePath.

(** ** The fragment of [re] the scripts use

    A backtracking matcher in continuation-passing style: alternatives are
    tried left to right and repetition is greedy, as in Python.  Repetition
    is only ever applied to a single character class in the scripts'
    patterns, which is what [Star] offers; [Grp] records capture group 1. *)

Module Re.

Inductive regex : Type :=
| Eps
| Cls (p : ascii → bool)
| Seq (r1 r2 : regex)
| Alt (r1 r2 : regex)
| Star (p : ascii → bool)
| Grp (r : regex).

(** Derived forms. *)
Definition Chr (c : ascii) : regex := Cls (Ascii.eqb c).
Definition ChrI (c : ascii) : regex := Cls (Char.eqb_nocase c).
Definition Plus (p : ascii → bool) : regex := Seq (Cls p) (Star p).
Definition Opt (r : regex) : regex := Alt r Eps.

Fixpoint Lit (s : string) : regex :=
  match s with
  | EmptyString => Eps
  | String c s' => Seq (Chr c) (Lit s')
  end.

(** A literal under [re.IGNORECASE]. *)
Fixpoint LitI (s : string) : regex :=
  match s with
  | EmptyString => Eps
  | String c s' => Seq (ChrI c) (LitI s')
  end.

(** [p{n}] *)
Fixpoint Rep (n : nat) (p : ascii → bool) : regex :=
  match n with
  | O => Eps
  | S n' => Seq (Cls p) (Rep n' p)
  end.

Section Run.
Context {R : Type}.

Fixpoint star_k (p : ascii → bool) (s : string) (k : string → option R)
  : option R :=
  match s with
  | String c s' =>
      if p c then
        match star_k p s' k with
        | Some x => Some x
        | None => k s
        end
      else k s
  | EmptyString => k s
  end.

Fixpoint run (r : regex) (cap : option string) (s : string)
    (k : option string → string → option R) : option R :=
  match r with
  | Eps => k cap s
  | Cls p =>
      match s with
      | String c s' => if p c then k cap s' else None
      | EmptyString => None
      end
  | Seq r1 r2 => run r1 cap s (λ cap' s', run r2 cap' s' k)
  | Alt r1 r2 =>
      match run r1 cap s k with
      | Some x => Some x
      | None => run r2 cap s k
      end
  | Star p => star_k p s (k cap)
  | Grp r1 =>
      run r1 cap s
        (λ _ s', k (Some (Str.take (String.length s - String.length s') s)) s')
  end.

End Run.

(** A match object: [group(0)], [group(1)] and the text after the match. *)
Record rmatch : Type := Match {
  group0 : string;
  group1 : option string;
  after : string
}.

(** [pattern.match(s)]: a match anchored at the start of [s]. *)
Definition match_here (r : regex) (s : string) : option rmatch :=
  run r None s
    (λ cap s', Some (Match (Str.take (String.length s - String.length s') s)
                           cap s')).

(** [re.search(r, s)]: the leftmost match. *)
Fixpoint search (r : regex) (s : string) : option rmatch :=
  match match_here r s with
  | Some m => Some m
  | None =>
      match s with
      | EmptyString => None
      | String _ s' => search r s'
      end
  end.

(** [re.sub(r, repl, s)] with a replacement function: scan left to right,
    replace each match and resume after it. *)
Fixpoint sub_go (r : regex) (repl : rmatch → string) (skip : nat) (s : string)
  : string :=
  match s with
  | EmptyString =>
      match skip, match_here r EmptyString with
      | O, Some m => repl m
      | _, _ => EmptyString
      end
  | String c s' =>
      match skip with
      | S k => sub_go r repl k s'
      | O =>
          match match_here r s with
          | Some m =>
              match String.length (group0 m) with
              | O => repl m +:+ String c (sub_go r repl O s')
              | S k => repl m +:+ sub_go r repl k s'
              end
          | None => String c (sub_go r repl O s')
          end
      end
  end.
Definition sub (r : regex) (repl : rmatch → string) (s : string) : string :=
  sub_go r repl O s.

(** [re.sub] with a replacement function that also counts: the second
    component adds up what the calls of [repl] report, as a [nonlocal]
    counter incremented inside the callback does. *)
Fixpoint subn_go (r : regex) (repl : rmatch → string * nat) (skip : nat)
    (s : string) : string * nat :=
  match s with
  | EmptyString =>
      match skip, match_here r EmptyString with
      | O, Some m => repl m
      | _, _ => (EmptyString, O)
      end
  | String c s' =>
      match skip with
      | S k => subn_go r repl k s'
      | O =>
          match match_here r s with
          | Some m =>
              let rest :=
                match String.length (group0 m) with
                | O => let r' := subn_go r repl O s' in (String c r'.1, r'.2)
                | S k => subn_go r repl k s'
                end in
              ((repl m).1 +:+ rest.1, ((repl m).2 + rest.2)%nat)
          | None => let r' := subn_go r repl O s' in (String c r'.1, r'.2)
          end
      end
  end.
Definition subn (r : regex) (repl : rmatch → string * nat) (s : string)
  : string * nat :=
  subn_go r repl O s.

(** [re.sub('^' + r, repl, s)] without [re.MULTILINE]: the pattern can
    only match at the start of the text. *)
Definition sub_bol (r : regex) (repl : rmatch → string) (s : string) : string :=
  match match_here r s with
  | Some m => repl m +:+ after m
  | None => s
  end.

(** [re.findall(r, s)] for a pattern without groups and without empty
    matches. *)
Fixpoint findall_go (r : regex) (skip : nat) (s : string) : list string :=
  match s with
  | EmptyString => []
  | String _ s' =>
      match skip with
      | S k => findall_go r k s'
      | O =>
          match match_here r s with
          | Some m =>
              match String.length (group0 m) with
              | O => findall_go r O s'
              | S k => group0 m :: findall_go r k s'
              end
          | None => findall_go r O s'
          end
      end
  end.
Definition findall (r : regex) (s : string) : list string := findall_go r O s.

End Re.

(** ** Insertion-ordered dictionaries

    A Python [dict] that the scripts iterate over: an association list
    with unique keys in insertion order.  Assigning to a key that is
    already present keeps its position. *)

Module Dict.

Section Dict.
Context {V : Type}.

Fixpoint get (k : string) (d : list (string * V)) : option V :=
  match d with
  | [] => None
  | (k', v) :: d' => if String.eqb k k' then Some v else get k d'
  end.

Fixpoint set (k : string) (v : V) (d : list (string * V)) : list (string * V) :=
  match d with
  | [] => [(k, v)]
  | (k', v') :: d' =>
      if String.eqb k k' then (k, v) :: d' else (k', v') :: set k v d'
  end.

Definition mem (k : string) (d : list (string * V)) : bool :=
  match get k d with Some _ => true | None => false end.

Definition values (d : list (string * V)) : list V := List.map snd d.
Definition keys (d : list (string * V)) : list string := List.map fst d.

End Dict.

(** [from_pairs]: a JSON object as [json.load] returns it, later duplicates
    of a key overriding earlier ones. *)
Definition from_pairs {V} (l : list (string * V)) : list (string * V) :=
  fold_left (λ d kv, set kv.1 kv.2 d) l [].

End Dict.

(** ** organize-public-assets.py *)

Module OrganizePublicAssets.

Definition NEW_STRUCTURE : list (string * string) :=
  [ ("favicons", "favicons");
    ("logos", "images/logos");
    ("icons", "images/icons");
    ("screenshots", "images/screenshots");
    ("graphics", "images/graphics");
    ("photos", "images/photos");
    ("css", "styles");
    ("js", "scripts");
    ("other", "misc") ].

Definition FILE_CATEGORIES : list (string * list string) :=
  [ ("favicon", ["favicon"; "retina"]);
    ("logo", ["logo"; "brand"; "wells-fargo"; "higlobe"; "revelo";
              "braintrust"; "cambly"; "vanhack"; "strider"; "mercord";
              "flatirons"; "techfx"; "adaflow"; "langate"; "planner";
              "very-good-ventures"; "yougov"; "axonius"; "webfxinc"; "mobiz";
              "propel"; "bwisemedia"; "intersec"; "decentralized"; "itscout";
              "pix4d"; "airalocom"; "truelogic"; "whiz1"; "brokerkit";
              "open-english"; "vicarius"; "goto"; "onfleet"; "thales";
              "partner"]);
    ("icon", ["icon"; "x-icon"; "linkedin"; "google"; "bing"; "duckduckgo";
              "yahoo"]);
    ("screenshot", ["screenshot"; "untitled"; "image"; "frame"]);
    ("graphic", ["vector"; "wrapper"; "mesh"; "gemini"; "currency"; "usdbrl"]);
    ("photo", ["husky"; "channels4"; "profile"]);
    ("css", ["css"]);
    ("js", ["js"; "webflow"]) ].

Definition KNOWN_NAMES : list (string * string) :=
  [ ("642aa9b6129f71848c627af5_favicon.jpg", "favicon.jpg");
    ("642aa9ba69d01ce76135f2d0_retina.jpg", "apple-touch-icon.jpg");
    ("64823ad1f11f6a5ee085b6c1_Vectors-Wrapper.svg", "logo-vectors-wrapper.svg");
    ("64823ad2f11f6a5ee085b6d9_Vectors-Wrapper.svg",
       "logo-vectors-wrapper-alt.svg");
    ("64a93447a4d8d06ce540f5fc_wells-fargo.svg", "logo-wells-fargo.svg");
    ("657cb98d8f25b29d4ddda87a_usdbrl_cur (1).svg", "currency-usdbrl.svg");
    ("66fa20663b706c601554155b_og-image-jng.jpg", "og-image.jpg");
    ("67563aa17278edf4cf79c3cb_logo-small_white.svg", "logo-small-white.svg");
    ("68838c5bc52c45d16d1c8bec_logo-techfx 1.svg", "logo-techfx.svg");
    ("jobnagringa.webflow.shared.aca489c6b.min.css", "webflow-shared.min.css");
    ("webflow.d94da6a8.ea62f8e5992eb517.js", "webflow-main.js");
    ("webflow.schunk.59c6248219f37ae8.js", "webflow-chunk-1.js");
    ("webflow.schunk.85d4c368d7c8f770.js", "webflow-chunk-2.js") ].

(** The directory name the loop over [FILE_CATEGORIES] returns for a
    category key; every key of the table has a branch. *)
Definition category_dir (category : string) : option string :=
  if String.eqb category "favicon" then Some "favicons"
  else if String.eqb category "logo" then Some "logos"
  else if String.eqb category "icon" then Some "icons"
  else if String.eqb category "screenshot" then Some "screenshots"
  else if String.eqb category "graphic" then Some "graphics"
  else if String.eqb category "photo" then Some "photos"
  else if String.eqb category "css" then Some "css"
  else if String.eqb category "js" then Some "js"
  else None.

Fixpoint first_category (filename_lower : string)
    (cats : list (string * list string)) : option string :=
  match cats with
  | [] => None
  | (category, keywords) :: cats' =>
      if existsb (λ keyword, Str.contains keyword filename_lower) keywords
      then match category_dir category with
           | Some d => Some d
           | None => first_category filename_lower cats'
           end
      else first_category filename_lower cats'
  end.

Definition by_extension (filename : string) : string :=
  let ext := Str.lower (PurePath.suffix filename) in
  if String.eqb ext ".css" then "css"
  else if String.eqb ext ".js" then "js"
  else if String.eqb ext ".svg" then "icons"
  else if existsb (String.eqb ext)
            [".jpg"; ".jpeg"; ".png"; ".avif"; ".webp"; ".gif"]
  then "graphics"
  else "other".

(** [categorize_file(filename)]: the category and, for some known files,
    the curated name. *)
Definition categorize_file (filename : string) : string * option string :=
  let filename_lower := Str.lower filename in
  let fallthrough :=
    match first_category filename_lower FILE_CATEGORIES with
    | Some d => (d, None)
    | None => (by_extension filename, None)
    end in
  match Dict.get filename KNOWN_NAMES with
  | Some new_name =>
      if Str.contains "favicon" new_name || Str.contains "apple-touch" new_name
      then ("favicons", Some new_name)
      else if Str.contains "logo" new_name then ("logos", Some new_name)
      else if Str.contains "icon" new_name then ("icons", Some new_name)
      else if Str.contains "og-image" new_name then ("graphics", Some new_name)
      else fallthrough
  | None => fallthrough
  end.

Definition drop_match (_ : Re.rmatch) : string := EmptyString.
Definition to_hyphen (_ : Re.rmatch) : string := "-".

(** [^[a-f0-9]{24}_] without the anchor. *)
Definition re_hash_prefix : Re.regex :=
  Re.Seq (Re.Rep 24 Char.is_hex_lower) (Re.Chr "_").
(** [Untitled\s*\(\d+\)] *)
Definition re_untitled_paren : Re.regex :=
  Re.Seq (Re.Lit "Untitled")
    (Re.Seq (Re.Star Char.is_space)
       (Re.Seq (Re.Chr "(") (Re.Seq (Re.Plus Char.is_digit) (Re.Chr ")")))).
(** [Untitled\s*\d+] *)
Definition re_untitled_num : Re.regex :=
  Re.Seq (Re.Lit "Untitled")
    (Re.Seq (Re.Star Char.is_space) (Re.Plus Char.is_digit)).
(** [\s*\(\d+\)] *)
Definition re_copy_marker : Re.regex :=
  Re.Seq (Re.Star Char.is_space)
    (Re.Seq (Re.Chr "(") (Re.Seq (Re.Plus Char.is_digit) (Re.Chr ")"))).
(** [-p-\d+] *)
Definition re_size_suffix : Re.regex :=
  Re.Seq (Re.Lit "-p-") (Re.Plus Char.is_digit).
(** [[a-zA-Z]{2,}] *)
Definition re_word : Re.regex :=
  Re.Seq (Re.Cls Char.is_letter) (Re.Plus Char.is_letter).
(** [\s+] *)
Definition re_spaces : Re.regex := Re.Plus Char.is_space.
(** [[^\w\-\.]] *)
Definition re_special : Re.regex :=
  Re.Cls (λ c, negb (Char.is_word c || Ascii.eqb c "-" || Ascii.eqb c ".")).
(** [-+] *)
Definition re_hyphens : Re.regex := Re.Plus (Ascii.eqb "-").
(** [^([a-f0-9]{8})] without the anchor. *)
Definition re_hash8 : Re.regex := Re.Grp (Re.Rep 8 Char.is_hex_lower).

(** [clean_filename(filename, original_filename)] *)
Definition clean_filename (filename : string) (original_filename : option string)
  : string :=
  let ext := PurePath.suffix filename in
  let filename := Re.sub_bol re_hash_prefix drop_match filename in
  let meaningful_parts :=
    if Str.contains "_" filename
    then List.filter (λ p, (2 <? String.length p)%nat && negb (Str.isdigit p))
                     (Str.split "_" filename)
    else [] in
  let filename := Re.sub re_untitled_paren drop_match filename in
  let filename := Re.sub re_untitled_num drop_match filename in
  let filename := Re.sub re_copy_marker drop_match filename in
  let filename := Re.sub re_size_suffix drop_match filename in
  let words := Re.findall re_word filename in
  let meaningful_parts := meaningful_parts ++ words in
  let filename := Re.sub re_spaces to_hyphen filename in
  let filename := Re.sub re_special drop_match filename in
  let filename := Re.sub re_hyphens to_hyphen filename in
  let filename := Str.strip (Ascii.eqb "-") filename in
  let filename := Str.lower filename in
  let filename :=
    if String.eqb filename EmptyString || String.eqb filename (Str.lower ext)
    then
      match meaningful_parts with
      | _ :: _ => Str.join "-" (firstn 3 meaningful_parts)
      | [] =>
          match original_filename with
          | Some original =>
              if negb (String.eqb original EmptyString) then
                match Re.match_here re_hash8 original with
                | Some m => "file-" +:+ default EmptyString (Re.group1 m)
                | None => "file"
                end
              else "file"
          | None => "file"
          end
      end
    else filename in
  if Str.endswith (Str.lower ext) filename then filename
  else filename +:+ Str.lower ext.

(** [generate_new_name(old_name, category)] *)
Definition generate_new_name (old_name category : string) : string :=
  match Dict.get old_name KNOWN_NAMES with
  | Some known => known
  | None =>
      let cleaned := clean_filename old_name (Some old_name) in
      let ext := PurePath.suffix cleaned in
      let base_name := PurePath.stem cleaned in
      let base_name :=
        if String.eqb category "logos" && negb (Str.startswith "logo-" base_name)
        then "logo-" +:+ base_name
        else if String.eqb category "icons"
                && negb (Str.startswith "icon-" base_name)
        then
          if negb (existsb (λ x, Str.contains x base_name)
                     ["linkedin"; "google"; "bing"; "x"; "yahoo"; "duckduckgo"])
          then "icon-" +:+ base_name else base_name
        else if String.eqb category "screenshots"
                && negb (Str.startswith "screenshot-" base_name)
        then "screenshot-" +:+ base_name
        else if String.eqb category "graphics"
                && negb (Str.startswith "graphic-" base_name)
        then
          if negb (existsb (λ x, Str.contains x base_name)
                     ["og-image"; "mesh"; "vector"; "currency"])
          then "graphic-" +:+ base_name else base_name
        else base_name in
      base_name +:+ ext
  end.

End OrganizePublicAssets.

(** *** Scanning and planning *)

Module Planner.
Import OrganizePublicAssets.

(** What [scan_files] observes of the disk: for each of the two roots,
    [None] when [exists()] is false, and otherwise the regular files that
    [rglob] (for [cdn-assets]) or [iterdir()] (for [public]) yields, in
    the order yielded, each with its path relative to [PUBLIC_DIR]. *)
Record file_stat : Type := FileStat { rel_to_public : string; st_size : nat }.

Record disk_view : Type := DiskView {
  cdn_assets_files : option (list file_stat);
  public_files : option (list file_stat)
}.

Record file_info : Type := FileInfo {
  fi_old_path : string;
  fi_relative_path : string;
  fi_name : string;
  fi_size : nat;
  fi_needs_move : bool
}.

Record entry : Type := Entry {
  old_path : string;
  old_name : string;
  new_path : string;
  new_name : string;
  category : string;
  new_dir : string
}.

Section Scan.
Variable PUBLIC_DIR : string.

Definition scan_cdn (acc : list (string * file_info) * list (string * string))
    (f : file_stat) : list (string * file_info) * list (string * string) :=
  let '(files_map, seen_files) := acc in
  let rel_path := rel_to_public f in
  let filename := PurePath.name rel_path in
  if Dict.mem filename seen_files then acc
  else (Dict.set rel_path
          (FileInfo (PUBLIC_DIR +:+ "/" +:+ rel_path) rel_path filename
                    (st_size f) false) files_map,
        Dict.set filename rel_path seen_files).

Definition scan_public (acc : list (string * file_info) * list (string * string))
    (f : file_stat) : list (string * file_info) * list (string * string) :=
  let '(files_map, seen_files) := acc in
  let filename := PurePath.name (rel_to_public f) in
  if String.eqb filename "robots.txt" then acc
  else if Dict.mem filename seen_files then acc
  else
    let rel_path := "cdn-assets/" +:+ filename in
    (Dict.set rel_path
       (FileInfo (PUBLIC_DIR +:+ "/" +:+ rel_to_public f) rel_path filename
                 (st_size f) true) files_map,
     Dict.set filename rel_path seen_files).

(** [scan_files()] *)
Definition scan_files (d : disk_view) : list (string * file_info) :=
  let acc := ([], []) in
  let acc :=
    match cdn_assets_files d with
    | Some fs => fold_left scan_cdn fs acc
    | None => acc
    end in
  let acc :=
    match public_files d with
    | Some fs => fold_left scan_public fs acc
    | None => acc
    end in
  acc.1.

(** One iteration of the loop of [organize_files]. *)
Definition plan_step (st : list (string * entry) * gmap string nat)
    (kv : string * file_info) : list (string * entry) * gmap string nat :=
  let '(migration_map, category_counts) := st in
  let '(rel_path, info) := kv in
  let old_name := fi_name info in
  let '(category, known_name) := categorize_file old_name in
  let candidate :=
    match known_name with
    | Some n => if String.eqb n EmptyString
                then generate_new_name old_name category else n
    | None => generate_new_name old_name category
    end in
  let counter := default O (category_counts !! category) in
  let unique_name :=
    if existsb (String.eqb candidate)
         (List.map new_name (Dict.values migration_map))
    then PurePath.stem candidate +:+ "-" +:+ pretty counter
         +:+ PurePath.suffix candidate
    else candidate in
  let category_counts := <[category := S counter]> category_counts in
  let dir := default "misc" (Dict.get category NEW_STRUCTURE) in
  let path := "cdn-assets/" +:+ dir +:+ "/" +:+ unique_name in
  (Dict.set rel_path
     (Entry (fi_old_path info) old_name path unique_name category dir)
     migration_map,
   category_counts).

(** The migration map built from an inventory. *)
Definition plan (files_map : list (string * file_info)) : list (string * entry) :=
  (fold_left plan_step files_map ([], ∅)).1.

(** [organize_files()]: the migration map, which is also the document
    written to [asset-migration-map.json]. *)
Definition organize_files (d : disk_view) : list (string * entry) :=
  plan (scan_files d).

End Scan.

(** The mapping a planner produces is injective when distinct original
    paths never share a new path. *)
Definition injective_plan (m : list (string * entry)) : Prop :=
  ∀ k1 k2 e1 e2,
    Dict.get k1 m = Some e1 → Dict.get k2 m = Some e2 →
    new_path e1 = new_path e2 → k1 = k2.

End Planner.

(** ** The directory tree

    A POSIX tree on one device, without symbolic links and without
    permission failures: a finite map from absolute paths (their components
    from the root, none of them [..]) to nodes.  The root is always a
    directory and is not stored. *)

Module FS.

Definition path : Type := list string.

Inductive node : Type :=
| File (data : string)
| Dir.

Global Instance node_eq_dec : EqDecision node.
Proof. solve_decision. Defined.

Definition node_at (t : gmap path node) (p : path) : option node :=
  match p with
  | [] => Some Dir
  | _ => t !! p
  end.

(** [p.exists()], [p.is_dir()], [p.is_file()] *)
Definition exists_ (t : gmap path node) (p : path) : bool :=
  match node_at t p with Some _ => true | None => false end.
Definition is_dir (t : gmap path node) (p : path) : bool :=
  match node_at t p with Some Dir => true | _ => false end.
Definition is_file (t : gmap path node) (p : path) : bool :=
  match node_at t p with Some (File _) => true | _ => false end.

(** [p.parent] and [p.name] *)
Definition parent (p : path) : path := removelast p.
Definition basename (p : path) : string := List.last p EmptyString.

(** [Path(s)] for an absolute path string, and [base / s].  As in
    [pathlib], a component [..] stays in the path as it is. *)
Definition of_string (s : string) : path := PurePath.parts s.
Definition join (base : path) (s : string) : path :=
  if Str.startswith "/" s then of_string s else base ++ PurePath.parts s.

(** [str(p)] *)
Definition render (p : path) : string := "/" +:+ Str.join "/" p.

(** [p.relative_to(base)]: [None] when [p] is not below [base]
    ([ValueError]). *)
Fixpoint relative_to (base p : path) : option path :=
  match base, p with
  | [], _ => Some p
  | b :: base', c :: p' =>
      if String.eqb b c then relative_to base' p' else None
  | _ :: _, [] => None
  end.

Definition is_below (base p : path) : bool :=
  match relative_to base p with Some _ => true | None => false end.

(** The non-empty prefixes of a path, shortest first. *)
Definition prefixes (p : path) : list path :=
  List.map (λ n, take n p) (seq 1 (length p)).

(** [p.mkdir(parents=True, exist_ok=True)]: [None] when a component of
    [p] is a regular file ([FileExistsError] or [NotADirectoryError]);
    nothing is created in that case. *)
Definition mkdir_parents (t : gmap path node) (p : path)
  : option (gmap path node) :=
  if existsb (is_file t) (prefixes p) then None
  else Some (fold_left (λ acc q, if exists_ acc q then acc else <[q := Dir]> acc)
                       (prefixes p) t).

(** Every node at or below [src] re-rooted at [dst]. *)
Definition rename_subtree (src dst : path) (t : gmap path node)
  : gmap path node :=
  list_to_map
    (List.map (λ kv : path * node,
                 (match relative_to src kv.1 with
                  | Some rest => dst ++ rest
                  | None => kv.1
                  end, kv.2))
              (map_to_list t)).

(** [shutil.move(src, dst)]: [None] when it raises.  A regular file
    replaces a regular file at the destination ([os.rename]); a
    destination that is a directory receives the source under its own
    name, unless that name is taken. *)
Definition shutil_move (t : gmap path node) (src dst : path)
  : option (gmap path node) :=
  if is_dir t dst && bool_decide (src = dst) then Some t
  else
    let real_dst := if is_dir t dst then dst ++ [basename src] else dst in
    if is_dir t dst && exists_ t real_dst then None
    else
      match node_at t src with
      | None => None
      | Some (File data) =>
          if is_dir t (parent real_dst)
          then Some (<[real_dst := File data]> (delete src t))
          else None
      | Some Dir =>
          if is_below src real_dst then None
          else if exists_ t real_dst then None
          else if is_dir t (parent real_dst)
          then Some (rename_subtree src real_dst t)
          else
            match mkdir_parents t (parent real_dst) with
            | Some t' => Some (rename_subtree src real_dst t')
            | None => None
            end
      end.

(** A tree is well formed when every proper ancestor of a node is a
    directory. *)
Definition wf (t : gmap path node) : bool :=
  forallb (λ p, forallb (is_dir t) (prefixes (parent p))) (map_to_list t).*1.

(** [any(p.iterdir())] *)
Definition has_entries (t : gmap path node) (p : path) : bool :=
  existsb (λ q, bool_decide (q ≠ [] ∧ parent q = p)) (map_to_list t).*1.

(** An empty directory: a directory without entries. *)
Definition empty_dir (t : gmap path node) (d : path) : Prop :=
  t !! d = Some Dir ∧ has_entries t d = false.

(** [p.rmdir()]: [None] when [p] is not an empty directory. *)
Definition rmdir (t : gmap path node) (p : path) : option (gmap path node) :=
  if is_dir t p && negb (has_entries t p) && bool_decide (p ≠ [])
  then Some (delete p t) else None.

(** The order of [PurePath.__lt__]: lexicographic on the parts, each part
    compared as a string. *)
Fixpoint compare (p q : path) : comparison :=
  match p, q with
  | [], [] => Eq
  | [], _ :: _ => Lt
  | _ :: _, [] => Gt
  | a :: p', b :: q' =>
      match String.compare a b with
      | Eq => compare p' q'
      | c => c
      end
  end.

Definition ge (p q : path) : Prop := compare p q ≠ Lt.

Global Instance ge_dec : RelDecision ge.
Proof. intros p q. unfold ge. apply _. Defined.

(** [sorted(base.rglob, reverse=True)]: everything strictly below
    [base], largest path first. *)
Definition rglob_sorted_reverse (t : gmap path node) (base : path) : list path :=
  merge_sort ge
    (List.filter (λ q, is_below base q && bool_decide (q ≠ base))
                 (map_to_list t).*1).

(** A path without a [..] component.  The operations above find a node
    by the components of its path, as the file system does for such a
    path; a path with [..] names, on the file system, the node of another
    path. *)
Definition no_dotdot (p : path) : bool :=
  forallb (λ c, negb (String.eqb c "..")) p.

End FS.

(** ** apply-image-mapping.py *)

Module ApplyImageMapping.
Import FS.

Inductive error : Type :=
| SourceNotFound (old_path : path)
| MoveFailed (old_path new_path : path).

Record summary : Type := Summary {
  moved : nat;
  skipped : nat;
  errors : list error
}.

Section Main.
(** [CDN_ASSETS], an absolute path. *)
Variable CDN_ASSETS : path.

(** The mapping document: [old_relative] of each key and the
    [new_relative] field of its item, in the order of the document. *)
Definition mapping : Type := list (string * string).

(** The loop that creates every target directory; an exception there is
    not caught and ends the script: the tree so far and [false].  (The
    directories are visited in the order of the document; the script
    visits them in the order of a [set].) *)
Fixpoint create_target_dirs (m : mapping) (t : gmap path node)
  : gmap path node * bool :=
  match m with
  | [] => (t, true)
  | (_, new_relative) :: m' =>
      match mkdir_parents t (parent (join CDN_ASSETS new_relative)) with
      | Some t' => create_target_dirs m' t'
      | None => (t, false)
      end
  end.

(** One iteration of the loop that moves and renames. *)
Definition move_entry (st : gmap path node * summary) (kv : string * string)
  : gmap path node * summary :=
  let '(t, s) := st in
  let old_path := join CDN_ASSETS kv.1 in
  let new_path := join CDN_ASSETS kv.2 in
  if negb (exists_ t old_path) then
    (t, Summary (moved s) (S (skipped s)) (errors s ++ [SourceNotFound old_path]))
  else if bool_decide (old_path = new_path) then
    (t, Summary (moved s) (S (skipped s)) (errors s))
  else
    let failed t' :=
      (t', Summary (moved s) (S (skipped s))
                   (errors s ++ [MoveFailed old_path new_path])) in
    match mkdir_parents t (parent new_path) with
    | None => failed t
    | Some t1 =>
        match shutil_move t1 old_path new_path with
        | Some t2 => (t2, Summary (S (moved s)) (skipped s) (errors s))
        | None => failed t1
        end
    end.

Definition move_all (m : mapping) (t : gmap path node)
  : gmap path node * summary :=
  fold_left move_entry m (t, Summary O O []).

(** [main()]: the tree it leaves and its summary, or [None] for the
    summary when the script died while creating the target directories. *)
Definition main (m : mapping) (t : gmap path node)
  : gmap path node * option summary :=
  match create_target_dirs m t with
  | (t', false) => (t', None)
  | (t', true) => let '(t'', s) := move_all m t' in (t'', Some s)
  end.

End Main.

End ApplyImageMapping.

(** ** migrate-assets.py *)

Module MigrateAssets.
Import FS.

Record moved_file : Type := MovedFile { mf_old : string; mf_new : string }.
Record error : Type := Error { err_file : string; err_error : string }.

(** One entry of [asset-migration-map.json]: the fields the script reads. *)
Record entry : Type := Entry { old_path : string; new_path : string }.

Record state : Type := State {
  tree : gmap path node;
  created_dirs : list path;
  moved_files : list moved_file;
  errors : list error
}.

(** The text of an exception is not modelled further. *)
Definition exception_text : string := "exception".

Section Migrate.
(** [PUBLIC_DIR], an absolute path. *)
Variable PUBLIC_DIR : path.

(** How one iteration of a loop ends. *)
Inductive step : Type :=
| Next (st : state)
| Escaped (st : state).

Definition rel_string (rel : path) : string :=
  match rel with
  | [] => "."
  | _ => Str.join "/" rel
  end.

(** One iteration of the loop over the migration map; [Escaped] when an
    exception leaves the loop body and ends the script. *)
Definition migrate_entry (dry_run : bool) (st : state) (kv : string * entry)
  : step :=
  let '(rel_path, mapping) := kv in
  let old := of_string (old_path mapping) in
  let new := join PUBLIC_DIR (new_path mapping) in
  let new_dir := parent new in
  if bool_decide (old = new) then Next st
  else
    (* create the directory if needed *)
    let st1 :=
      if bool_decide (new_dir ∈ created_dirs st) then Next st
      else
        match (if dry_run then Some (tree st)
               else mkdir_parents (tree st) new_dir) with
        | None => Escaped st
        | Some t' =>
            let st' := State t' (created_dirs st ++ [new_dir])
                             (moved_files st) (errors st) in
            match relative_to PUBLIC_DIR new_dir with
            | Some _ => Next st'
            | None => Escaped st'
            end
        end in
    match st1 with
    | Escaped st' => Escaped st'
    | Next st1 =>
        (* move the file *)
        if exists_ (tree st1) old then
          let failed t' :=
            State t' (created_dirs st1) (moved_files st1)
                  (errors st1 ++ [Error rel_path exception_text]) in
          let attempt :=
            if dry_run then (tree st1, true)
            else
              match mkdir_parents (tree st1) (parent new) with
              | None => (tree st1, false)
              | Some t1 =>
                  match shutil_move t1 old new with
                  | Some t2 => (t2, true)
                  | None => (t1, false)
                  end
              end in
          match attempt with
          | (t', false) => Next (failed t')
          | (t2, true) =>
              match relative_to PUBLIC_DIR old with
              | Some rel =>
                  Next (State t2 (created_dirs st1)
                          (moved_files st1
                             ++ [MovedFile (rel_string rel) (new_path mapping)])
                          (errors st1))
              | None => Next (failed t2)
              end
          end
        else
          Next (State (tree st1) (created_dirs st1) (moved_files st1)
                      (errors st1 ++ [Error rel_path "File not found"]))
    end.

Fixpoint migrate_loop (dry_run : bool) (m : list (string * entry)) (st : state)
  : step :=
  match m with
  | [] => Next st
  | kv :: m' =>
      match migrate_entry dry_run st kv with
      | Next st' => migrate_loop dry_run m' st'
      | Escaped st' => Escaped st'
      end
  end.

(** One iteration of the clean-up loop: an empty directory other than
    [PUBLIC_DIR] is removed; any exception is swallowed. *)
Definition cleanup_dir (t : gmap path node) (dir_path : path)
  : gmap path node :=
  if is_dir t dir_path && bool_decide (dir_path ≠ PUBLIC_DIR) then
    if negb (has_entries t dir_path)
    then default t (rmdir t dir_path)
    else t
  else t.

Definition cleanup (t : gmap path node) : gmap path node :=
  fold_left cleanup_dir (rglob_sorted_reverse t PUBLIC_DIR) t.

(** [migrate_files(dry_run)]: the tree it leaves, and what it returns
    unless an exception escaped. *)
Definition migrate_files (dry_run : bool) (m : list (string * entry))
    (t : gmap path node)
  : gmap path node * option (list moved_file * list error) :=
  match migrate_loop dry_run m (State t [] [] []) with
  | Escaped st => (tree st, None)
  | Next st =>
      let t' := if dry_run then tree st else cleanup (tree st) in
      (t', Some (moved_files st, errors st))
  end.

(** The [__main__] block: [argv], and the line [input()] returns when it
    is reached ([None] at end of file). *)
Inductive outcome : Type :=
| Aborted
| Ran (dry_run : bool)
        (result : gmap path node * option (list moved_file * list error)).

Definition entry_point (argv : list string) (answer : option string)
    (m : list (string * entry)) (t : gmap path node) : outcome :=
  let dry_run := negb (existsb (String.eqb "--live") argv) in
  if dry_run then Ran true (migrate_files true m t)
  else
    match answer with
    | None => Aborted
    | Some response =>
        if negb (String.eqb (Str.lower response) "yes") then Aborted
        else Ran false (migrate_files false m t)
    end.

(** The tree after the script ends. *)
Definition tree_after (o : outcome) (t : gmap path node) : gmap path node :=
  match o with
  | Aborted => t
  | Ran _ r => r.1
  end.

End Migrate.

End MigrateAssets.

(** ** update-asset-references.py *)

Module UpdateAssetReferences.

(** One entry of the migration map: the fields the script reads. *)
Record entry : Type := Entry { old_name : string; new_path : string }.

(** The keys one entry binds in the reverse map, all to the same target. *)
Definition bind_entry (reverse_map : gmap string string)
    (kv : string * entry) : gmap string string :=
  let '(rel_path, mapping) := kv in
  let target := "/cdn-assets/" +:+ new_path mapping in
  let reverse_map := <[old_name mapping := target]> reverse_map in
  let reverse_map := <[PurePath.stem (old_name mapping) := target]> reverse_map in
  let reverse_map := <[rel_path := target]> reverse_map in
  if Str.startswith "cdn-assets/" rel_path then
    let reverse_map := <[rel_path := target]> reverse_map in
    <["/" +:+ rel_path := target]> reverse_map
  else
    let reverse_map := <["/" +:+ rel_path := target]> reverse_map in
    <["/cdn-assets/" +:+ rel_path := target]> reverse_map.

(** The value an entry binds its keys to, and those keys. *)
Definition target (mapping : entry) : string := "/cdn-assets/" +:+ new_path mapping.

Definition bound_keys (kv : string * entry) : list string :=
  [ old_name kv.2; PurePath.stem (old_name kv.2); kv.1; "/" +:+ kv.1 ]
  ++ (if Str.startswith "cdn-assets/" kv.1 then []
      else ["/cdn-assets/" +:+ kv.1]).

(** [create_reverse_map(migration_map)] *)
Definition create_reverse_map (migration_map : list (string * entry))
  : gmap string string :=
  fold_left bind_entry migration_map ∅.

(** The characters the pattern's class admits: anything but white space,
    the two quotes, the angle brackets, the closing parenthesis and the
    question mark. *)
Definition path_char (c : ascii) : bool :=
  negb (Char.is_space c || Char.is_quote c || Ascii.eqb c "<"
        || Ascii.eqb c ">" || Ascii.eqb c ")" || Ascii.eqb c "?").

(** [(/cdn-assets/C+)] for that class [C]. *)
Definition pattern : Re.regex :=
  Re.Grp (Re.Seq (Re.Lit "/cdn-assets/") (Re.Plus path_char)).

(** The three look-ups of [replace_asset_path], in their order. *)
Definition resolve (reverse_map : gmap string string) (path_match : string)
  : option string :=
  match reverse_map !! path_match with
  | Some new_path => Some new_path
  | None =>
      match reverse_map !! PurePath.name path_match with
      | Some new_path => Some new_path
      | None => reverse_map !! Str.replace "/cdn-assets/" EmptyString path_match
      end
  end.

(** [replace_asset_path(match)] *)
Definition replace_asset_path (reverse_map : gmap string string)
    (m : Re.rmatch) : string :=
  let full_match := Re.group0 m in
  match Re.group1 m with
  | Some group =>
      if negb (String.eqb group EmptyString) && Str.contains "/cdn-assets/" group
      then
        match resolve reverse_map group with
        | Some new_path => Str.replace group new_path full_match
        | None => full_match
        end
      else full_match
  | None => full_match
  end.

Definition rewrite (reverse_map : gmap string string) (content : string)
  : string :=
  Re.sub pattern (replace_asset_path reverse_map) content.

(** [update_file_references(file_path, reverse_map)] on a file of which
    [read_text] gives the content ([None]: the file cannot be read): the
    content handed to [write_text], if any, and the value returned. *)
Definition update_file_references (content : option string)
    (reverse_map : gmap string string) : option string * bool :=
  match content with
  | None => (None, false)
  | Some content =>
      let new_content := rewrite reverse_map content in
      if negb (String.eqb new_content content) then (Some new_content, true)
      else (None, false)
  end.

End UpdateAssetReferences.

(** ** update-image-references.py *)

Module UpdateImageReferences.

(** One item of [image-mapping.json]: the fields the script reads. *)
Record item : Type := Item { old_path : string; new_path : string }.

(** [load_mapping()] on the decoded document. *)
Definition bind_item (path_mapping : gmap string string) (it : item)
  : gmap string string :=
  let path_mapping := <[old_path it := new_path it]> path_mapping in
  if Str.startswith "/" (old_path it) then
    <[Str.drop 1 (old_path it) :=
        if Str.startswith "/" (new_path it) then Str.drop 1 (new_path it)
        else new_path it]> path_mapping
  else path_mapping.

Definition load_mapping (mapping : list (string * item)) : gmap string string :=
  fold_left bind_item (Dict.values mapping) ∅.

Definition not_quote (c : ascii) : bool := negb (Char.is_quote c).

(** The double quote, as a string. *)
Definition dquote : string := String "034" EmptyString.

(** [(/cdn-assets/N+)] under [re.IGNORECASE], where [N] is any
    character but the two quotes and [Q], below, is either quote. *)
Definition cdn_group : Re.regex :=
  Re.Grp (Re.Seq (Re.LitI "/cdn-assets/") (Re.Plus not_quote)).

(** [attr=Q(/cdn-assets/N+)Q] *)
Definition attr_pattern (attr : string) : Re.regex :=
  Re.Seq (Re.LitI attr)
    (Re.Seq (Re.Cls Char.is_quote) (Re.Seq cdn_group (Re.Cls Char.is_quote))).

(** [url\(Q?(/cdn-assets/N+)Q?\)] *)
Definition url_pattern : Re.regex :=
  Re.Seq (Re.LitI "url(")
    (Re.Seq (Re.Opt (Re.Cls Char.is_quote))
       (Re.Seq cdn_group (Re.Seq (Re.Opt (Re.Cls Char.is_quote)) (Re.Chr ")")))).

(** [background-image:\s*url\(Q?(/cdn-assets/N+)Q?\)] *)
Definition background_pattern : Re.regex :=
  Re.Seq (Re.LitI "background-image:") (Re.Seq (Re.Star Char.is_space) url_pattern).

Definition IMAGE_REF_PATTERNS : list (Re.regex * string) :=
  [ (attr_pattern "src=", "src");
    (attr_pattern "href=", "href");
    (url_pattern, "url");
    (background_pattern, "background-image");
    (attr_pattern "ogImage=", "ogImage");
    (attr_pattern "ogImage=", "ogImage") ].

(** [replace_match(match)]: the replacement and the increment of
    [updates]. *)
Definition replace_match (path_mapping : gmap string string) (m : Re.rmatch)
  : string * nat :=
  let old_path := default EmptyString (Re.group1 m) in
  match path_mapping !! old_path with
  | Some new_path => (Str.replace old_path new_path (Re.group0 m), 1%nat)
  | None =>
      match (if Str.startswith "/" old_path
             then path_mapping !! Str.drop 1 old_path else None) with
      | Some new_path =>
          let new_path :=
            if Str.startswith "/" new_path then new_path else "/" +:+ new_path in
          (Str.replace old_path new_path (Re.group0 m), 1%nat)
      | None => (Re.group0 m, O)
      end
  end.

(** [srcset=Q(N+)Q] *)
Definition srcset_pattern : Re.regex :=
  Re.Seq (Re.LitI "srcset=")
    (Re.Seq (Re.Cls Char.is_quote)
       (Re.Seq (Re.Grp (Re.Plus not_quote)) (Re.Cls Char.is_quote))).

(** [(/cdn-assets/[^\s]+)] *)
Definition srcset_path : Re.regex :=
  Re.Grp (Re.Seq (Re.Lit "/cdn-assets/") (Re.Plus (λ c, negb (Char.is_space c)))).

(** One part of a [srcset] value: the new part and whether it changed. *)
Definition update_part (path_mapping : gmap string string) (part : string)
  : string * bool :=
  let part := Str.strip Char.is_space part in
  match Re.search srcset_path part with
  | Some path_match =>
      let old_path := default EmptyString (Re.group1 path_match) in
      match path_mapping !! old_path with
      | Some new_path => (Str.replace old_path new_path part, true)
      | None => (part, false)
      end
  | None => (part, false)
  end.

(** [update_srcset(match)] *)
Definition update_srcset (path_mapping : gmap string string) (m : Re.rmatch)
  : string * nat :=
  let srcset_value := default EmptyString (Re.group1 m) in
  let new_parts := List.map (update_part path_mapping) (Str.split "," srcset_value) in
  let hits := length (List.filter snd new_parts) in
  match hits with
  | O => (Re.group0 m, O)
  | _ =>
      ("srcset=" +:+ dquote +:+ Str.join ", " (List.map fst new_parts)
         +:+ dquote, hits)
  end.

(** The passes of [update_file] over the content: one per pattern, then
    the [srcset] pass; the text and the value of [updates]. *)
Definition rewrite (path_mapping : gmap string string) (content : string)
  : string * nat :=
  let after_patterns :=
    fold_left (λ (acc : string * nat) (pat : Re.regex * string),
                 let r := Re.subn pat.1 (replace_match path_mapping) acc.1 in
                 (r.1, (acc.2 + r.2)%nat))
              IMAGE_REF_PATTERNS (content, O) in
  let r := Re.subn srcset_pattern (update_srcset path_mapping) after_patterns.1 in
  (r.1, (after_patterns.2 + r.2)%nat).

(** [update_file(file_path, path_mapping)] on a file of which
    [read_text] gives the content ([None]: the file cannot be read): the
    content handed to [write_text], if any, and the pair returned. *)
Definition update_file (content : option string)
    (path_mapping : gmap string string) : option string * (bool * nat) :=
  match content with
  | None => (None, (false, O))
  | Some original_content =>
      let '(content, updates) := rewrite path_mapping original_content in
      if negb (String.eqb content original_content)
      then (Some content, (true, updates))
      else (None, (false, updates))
  end.

End UpdateImageReferences.

(** ** The two rewriting scripts on the characters of a file

    [update_file_references] and [update_file] above take the text as
    [read_text] hands it over and give the text they pass to
    [write_text]; both calls translate line ends. *)

Module TextFile.

Definition CR : ascii := "013"%char.
Definition LF : ascii := "010"%char.

(** [read_text()]: the text is read with universal newlines, so that a
    carriage return, with the line feed that follows it if there is one,
    comes out as one line feed.  [after_cr] tells that the character
    before was a carriage return. *)
Fixpoint read_from (after_cr : bool) (raw : string) : string :=
  match raw with
  | EmptyString => EmptyString
  | String c rest =>
      if Ascii.eqb c CR then String LF (read_from true rest)
      else if Ascii.eqb c LF then
        if after_cr then read_from false rest
        else String LF (read_from false rest)
      else String c (read_from false rest)
  end.

Definition read_text (raw : string) : string := read_from false raw.

(** [write_text(text)]: every line feed is written as [os.linesep]. *)
Fixpoint write_text (linesep : string) (text : string) : string :=
  match text with
  | EmptyString => EmptyString
  | String c rest =>
      (if Ascii.eqb c LF then linesep else String c EmptyString)
        +:+ write_text linesep rest
  end.



End TextFile.

Module RewriteOnDisk.

Section OnDisk.
(** [os.linesep] *)
Variable linesep : string.

(** [update_file_references(file_path, reverse_map)] of
    update-asset-references.py on the characters the file holds ([None]:
    the file cannot be read): the characters written back, if any, and the
    value returned. *)
Definition update_file_references (raw : option string)
    (reverse_map : gmap string string) : option string * bool :=
  let r := UpdateAssetReferences.update_file_references
             (TextFile.read_text <$> raw) reverse_map in
  (TextFile.write_text linesep <$> r.1, r.2).

(** [update_file(file_path, path_mapping)] of update-image-references.py,
    likewise. *)
Definition update_file (raw : option string)
    (path_mapping : gmap string string) : option string * (bool * nat) :=
  let r := UpdateImageReferences.update_file
             (TextFile.read_text <$> raw) path_mapping in
  (TextFile.write_text linesep <$> r.1, r.2).

End OnDisk.


End RewriteOnDisk.

(** ** organize-images.py *)

Module OrganizeImages.

Definition IMAGE_EXTENSIONS : list string :=
  [".jpg"; ".jpeg"; ".png"; ".gif"; ".bmp"; ".tiff"; ".tif"; ".avif"; ".webp";
   ".svg"].

Record image_info : Type := ImageInfo {
  path : string;
  relative_path : string;
  category : string;
  filename : string;
  stem : string;
  extension : string
}.

Record item : Type := Item {
  old_path : string;
  new_path : string;
  old_relative : string;
  new_relative : string;
  item_category : string;
  new_name : string
}.

(** What [find_all_images] observes of the disk: [None] when [CDN_ASSETS]
    does not exist; otherwise the regular files below [images/] ([None]
    when that directory does not exist) and those directly in [CDN_ASSETS],
    as paths relative to [CDN_ASSETS], in the order yielded. *)
Record cdn_view : Type := CdnView {
  images_files : option (list string);
  root_files : list string
}.

Inductive result (A : Type) : Type :=
| FileNotFoundError
| Returned (a : A).
Arguments FileNotFoundError {A}.
Arguments Returned {A} a.

Section Organize.
(** [str(CDN_ASSETS)] *)
Variable CDN_ASSETS : string.

(** [generate_human_readable_name(image_info, references, all_images)] for
    the references found in the source tree.  The name is chosen from the
    file name, from nearby alternative text and from key words, in an order
    that depends on the iteration order of a [set]; nothing below depends on
    which name it is. *)
Variable generate_human_readable_name : image_info → string.

Definition is_image (rel_path : string) : bool :=
  existsb (String.eqb (Str.lower (PurePath.suffix rel_path))) IMAGE_EXTENSIONS.

Definition info_of (category : string) (rel_path : string) : image_info :=
  ImageInfo (CDN_ASSETS +:+ "/" +:+ rel_path) rel_path category
            (PurePath.name rel_path) (PurePath.stem rel_path)
            (PurePath.suffix rel_path).

Definition add_image (in_images : bool) (images : list (string * image_info))
    (rel_path : string) : list (string * image_info) :=
  if is_image rel_path then
    let category :=
      if in_images then
        match PurePath.parts rel_path with
        | _ :: c :: _ => c
        | _ => "root"
        end
      else "root" in
    Dict.set rel_path (info_of category rel_path) images
  else images.

(** [find_all_images()] *)
Definition find_all_images (d : option cdn_view)
  : result (list (string * image_info)) :=
  match d with
  | None => FileNotFoundError
  | Some v =>
      let images :=
        match images_files v with
        | Some fs => fold_left (add_image true) fs []
        | None => []
        end in
      Returned (fold_left (add_image false) (root_files v) images)
  end.

Definition folder_map : list (string * list (string * string)) :=
  [ ("graphics", [ ("og-image", "graphics/social");
                   ("background", "graphics/backgrounds");
                   ("default", "graphics/illustrations") ]);
    ("icons", [ ("linkedin", "icons/social");
                ("social", "icons/social");
                ("brand", "icons/brands");
                ("default", "icons/ui") ]);
    ("logos", [ ("default", "logos/companies") ]);
    ("photos", [ ("avatar", "photos/avatars");
                 ("profile", "photos/avatars");
                 ("default", "photos/general") ]);
    ("screenshots", [ ("example", "screenshots/examples");
                      ("tutorial", "screenshots/tutorials");
                      ("default", "screenshots/interfaces") ]);
    ("root", [ ("background", "graphics/backgrounds");
               ("screenshot", "screenshots/examples");
               ("default", "screenshots/examples") ]) ].

Definition subfolder_of (category name : string) : string :=
  if Str.contains "og-image" name then "og-image"
  else if Str.contains "background" name || Str.contains "mesh" name
  then "background"
  else if Str.contains "example" name then "example"
  else if Str.contains "tutorial" name then "tutorial"
  else if Str.contains "avatar" name || Str.contains "profile" name
  then "avatar"
  else if Str.contains "linkedin" name || Str.contains "social" name
  then (if String.eqb category "icons" then "linkedin" else "social")
  else "default".

Definition folder_structure (category name : string) : string :=
  let folders := default [] (Dict.get category folder_map) in
  default (default (category +:+ "/general") (Dict.get "default" folders))
          (Dict.get (subfolder_of category name) folders).

(** The path tried with a given counter. *)
Definition numbered (folder name ext : string) (counter : nat) : string :=
  "images/" +:+ folder +:+ "/" +:+ name +:+ "-" +:+ pretty counter +:+ ext.

(** The [while] loop of [determine_new_path]; [None] when the fuel runs
    out before a free path is found. *)
Fixpoint first_free (fuel : nat) (existing_paths : list string)
    (folder name ext : string) (counter : nat) (final_path : string)
  : option string :=
  if existsb (String.eqb final_path) existing_paths then
    match fuel with
    | O => None
    | S fuel' =>
        first_free fuel' existing_paths folder name ext (S counter)
                   (numbered folder name ext counter)
    end
  else Some final_path.

(** [determine_new_path(image_info, new_name, all_images)], where
    [all_images] is the mapping built so far. *)
Definition determine_new_path (info : image_info) (name : string)
    (all_images : list (string * item)) : option string :=
  let folder := folder_structure (category info) name in
  let base_path := "images/" +:+ folder +:+ "/" +:+ name +:+ extension info in
  let existing_paths := List.map new_relative (Dict.values all_images) in
  first_free (S (length existing_paths)) existing_paths folder name
             (extension info) 1%nat base_path.

(** One iteration of the loop of [main]. *)
Definition plan_image (mapping : option (list (string * item)))
    (kv : string * image_info) : option (list (string * item)) :=
  match mapping with
  | None => None
  | Some mapping =>
      let '(rel_path, info) := kv in
      let name := generate_human_readable_name info in
      match determine_new_path info name mapping with
      | None => None
      | Some path =>
          Some (Dict.set rel_path
                  (Item ("/cdn-assets/" +:+ rel_path) ("/cdn-assets/" +:+ path)
                        rel_path path (category info) name)
                  mapping)
      end
  end.

Definition plan (all_images : list (string * image_info))
  : option (list (string * item)) :=
  fold_left plan_image all_images (Some []).

(** [main()]: the mapping written to [image-mapping.json]; the inner
    [None] stands for a loop of [determine_new_path] that does not end. *)
Definition main (d : option cdn_view) : result (option (list (string * item))) :=
  match find_all_images d with
  | FileNotFoundError => FileNotFoundError
  | Returned all_images => Returned (plan all_images)
  end.

End Organize.

(** The mapping is injective when distinct original paths never share a
    new path. *)
Definition injective_mapping (m : list (string * item)) : Prop :=
  ∀ k1 k2 e1 e2,
    Dict.get k1 m = Some e1 → Dict.get k2 m = Some e2 →
    new_path e1 = new_path e2 → k1 = k2.

(** What the loop of [main] keeps true of the mapping built so far: the
    relative new paths are pairwise distinct, and each new path is its
    relative path below [/cdn-assets/]. *)
Definition distinct_paths (m : list (string * item)) : Prop :=
  NoDup (new_relative <$> Dict.values m)
  ∧ Forall (λ e, new_path e = "/cdn-assets/" +:+ new_relative e)
           (Dict.values m).

End OrganizeImages.

(** ** convert-images-to-webp.py *)

Module ConvertImagesToWebp.

Definition RASTER_EXTENSIONS : list string :=
  [".png"; ".jpg"; ".jpeg"; ".gif"; ".bmp"; ".tiff"; ".tif"; ".avif"].
Definition SVG_EXTENSIONS : list string := [".svg"].

Record conversion_log : Type := Log {
  converted : list (string * string);
  skipped : list (string * string);
  errors : list (string * string)
}.

(** How the script ends: [sys.exit(1)] before anything is scanned, a
    return without a log when nothing is found, or a log written (and the
    exit status). *)
Inductive outcome : Type :=
| ExitNotFound
| NothingToConvert
| LogWritten (log : conversion_log) (status : nat).

Section Convert.
(** The codec, an external collaborator: whether encoding the file at a
    path succeeds, and its message. *)
Variable convert_image_to_webp : string → string → bool * string.

Definition with_suffix_webp (p : string) : string :=
  Str.take (String.length p - String.length (PurePath.suffix p)) p +:+ ".webp".

(** [find_images_to_convert(base_dir)] on the files [os.walk] yields. *)
Definition find_images_to_convert (walk : option (list string)) : list string :=
  match walk with
  | None => []
  | Some files =>
      List.filter
        (λ f, let ext := Str.lower (PurePath.suffix f) in
              negb (existsb (String.eqb ext) SVG_EXTENSIONS)
              && existsb (String.eqb ext) RASTER_EXTENSIONS)
        files
  end.

(** One iteration of the conversion loop; [present] lists the paths that
    exist. *)
Definition convert_one (st : list string * conversion_log) (img_path : string)
  : list string * conversion_log :=
  let '(present, log) := st in
  let output_path := with_suffix_webp img_path in
  if String.eqb (Str.lower (PurePath.suffix img_path)) ".webp" then
    (present, Log (converted log) (skipped log ++ [(img_path, "Already WebP")])
                  (errors log))
  else if existsb (String.eqb output_path) present then
    (present, Log (converted log)
                  (skipped log ++ [(img_path, "Output already exists")])
                  (errors log))
  else
    let '(success, message) := convert_image_to_webp img_path output_path in
    if success then
      (present ++ [output_path],
       Log (converted log ++ [(img_path, output_path)]) (skipped log) (errors log))
    else
      (present, Log (converted log) (skipped log)
                    (errors log ++ [(img_path, message)])).

(** [main()], given the files below [IMAGES_DIR] ([None] when the
    directory does not exist), already in sorted order. *)
Definition main (images_dir : option (list string)) : outcome :=
  match images_dir with
  | None => ExitNotFound
  | Some files =>
      match find_images_to_convert (Some files) with
      | [] => NothingToConvert
      | images =>
          let log := (fold_left convert_one images (files, Log [] [] [])).2 in
          LogWritten log (match errors log with [] => 0%nat | _ => 1%nat end)
      end
  end.

End Convert.

End ConvertImagesToWebp.

(** * Concrete inputs *)

Module PlannerInputs.
Import Planner.

(** The inventory on which the disambiguating suffix collides: three
    files of [cdn-assets], listed in this order. *)
Definition colliding_inventory : disk_view :=
  DiskView (Some [ FileStat "cdn-assets/foo-2.png" 10;
                   FileStat "cdn-assets/foo.png" 20;
                   FileStat "cdn-assets/foo (1).png" 30 ])
           (Some []).

End PlannerInputs.

Module ApplierInputs.
Import FS.

Definition cdn_assets : path := ["repo"; "public"; "cdn-assets"].
Definition public_dir : path := ["repo"; "public"].

(** A tree with one image at the root of [cdn-assets]. *)
Definition one_image_tree : gmap path node :=
  list_to_map
    [ (["repo"], Dir);
      (["repo"; "public"], Dir);
      (["repo"; "public"; "cdn-assets"], Dir);
      (["repo"; "public"; "cdn-assets"; "a.png"], File "A") ].

(** A tree where the planned destination is already taken by a file with
    other content. *)
Definition conflict_tree : gmap path node :=
  list_to_map
    [ (["repo"], Dir);
      (["repo"; "public"], Dir);
      (["repo"; "public"; "cdn-assets"], Dir);
      (["repo"; "public"; "cdn-assets"; "a.png"], File "A");
      (["repo"; "public"; "cdn-assets"; "images"], Dir);
      (["repo"; "public"; "cdn-assets"; "images"; "b.png"], File "B") ].

(** The same conflict as [migrate-assets.py] meets it: the state at the
    start of its loop, and a map entry whose destination is taken. *)
Definition conflict_state : MigrateAssets.state :=
  MigrateAssets.State conflict_tree [] [] [].

Definition conflict_entry : MigrateAssets.entry :=
  MigrateAssets.Entry "/repo/public/cdn-assets/a.png"
                      "cdn-assets/images/b.png".

End ApplierInputs.

Module CleanupInputs.
Import FS.

(** One image to move, and an empty directory [old-empty] that no
    mapping entry mentions. *)
Definition tree_with_empty_dir : gmap path node :=
  list_to_map
    [ (["repo"], Dir);
      (["repo"; "public"], Dir);
      (["repo"; "public"; "old-empty"], Dir);
      (["repo"; "public"; "cdn-assets"], Dir);
      (["repo"; "public"; "cdn-assets"; "a.png"], File "A") ].

Definition one_entry_map : list (string * MigrateAssets.entry) :=
  [ ("cdn-assets/a.png",
     MigrateAssets.Entry "/repo/public/cdn-assets/a.png"
                         "cdn-assets/images/a.png") ].

(** The state in which the move pass of a live run over them ends. *)
Definition state_after_moves : MigrateAssets.state :=
  match MigrateAssets.migrate_loop ApplierInputs.public_dir false one_entry_map
          (MigrateAssets.State tree_with_empty_dir [] [] []) with
  | MigrateAssets.Next st | MigrateAssets.Escaped st => st
  end.

End CleanupInputs.

Module ReverseMapInputs.
Import UpdateAssetReferences.

(** Two assets with the same file name in different directories. *)
Definition two_logos : list (string * entry) :=
  [ ("cdn-assets/a/logo.png", Entry "logo.png" "cdn-assets/images/logos/logo.png");
    ("cdn-assets/b/logo.png", Entry "logo.png" "cdn-assets/images/logos/logo-1.png") ].

End ReverseMapInputs.

(** ** What a pattern matches, and texts that differ by replacements *)

Module Spec.

(** [matches r cap w cap']: the pattern [r] matches exactly the text [w],
    taking the capture from [cap] to [cap']. *)
Inductive matches : Re.regex → option string → string → option string → Prop :=
| M_Eps cap : matches Re.Eps cap EmptyString cap
| M_Cls p c cap :
    p c = true → matches (Re.Cls p) cap (String c EmptyString) cap
| M_Seq r1 r2 cap w1 cap1 w2 cap2 :
    matches r1 cap w1 cap1 → matches r2 cap1 w2 cap2 →
    matches (Re.Seq r1 r2) cap (w1 +:+ w2) cap2
| M_Alt_l r1 r2 cap w cap' :
    matches r1 cap w cap' → matches (Re.Alt r1 r2) cap w cap'
| M_Alt_r r1 r2 cap w cap' :
    matches r2 cap w cap' → matches (Re.Alt r1 r2) cap w cap'
| M_Star p cap w :
    Str.all p w = true → matches (Re.Star p) cap w cap
| M_Grp r cap w cap' :
    matches r cap w cap' → matches (Re.Grp r) cap w (Some w).

(** Two texts of the same length that agree up to letter case. *)
Fixpoint eq_nocase (a b : string) : bool :=
  match a, b with
  | EmptyString, EmptyString => true
  | String x a', String y b' => Char.eqb_nocase x y && eq_nocase a' b'
  | _, _ => false
  end.

(** [edits step s t]: the text [t] is the text [s] in which some
    disjoint segments [x] have been replaced by [y], for pairs with
    [step x y], and every other character is where it was. *)
Inductive edits (step : string → string → Prop) : string → string → Prop :=
| E_nil : edits step EmptyString EmptyString
| E_keep c s t : edits step s t → edits step (String c s) (String c t)
| E_step x y s t :
    step x y → edits step s t → edits step (x +:+ s) (y +:+ t).

End Spec.

(** ** The replacements of the two rewriting scripts, as steps *)

Module Steps.

Definition no_slash (s : string) : bool :=
  Str.all (λ c, negb (Ascii.eqb c "/")) s.

(** A text that starts with [/cdn-assets/] in some letter case. *)
Definition starts_cdn (x : string) : bool :=
  Spec.eq_nocase "/cdn-assets/" (Str.take 12 x).

(** A text in which [/cdn-assets/] occurs, in some letter case. *)
Fixpoint mentions_cdn (s : string) : bool :=
  starts_cdn s ||
  match s with
  | String _ s' => mentions_cdn s'
  | EmptyString => false
  end.

(** The text captured by [cdn_group]. *)
Definition cdn_text (g : string) : Prop :=
  ∃ g', g = String "/" g' ∧ (12 < String.length g)%nat
        ∧ starts_cdn g = true
        ∧ Str.all UpdateImageReferences.not_quote g = true.

(** The shape of a match of one of the image reference patterns: the
    captured path, between a prefix without a slash and at most two
    closing characters. *)
Definition image_match_shape (w : string) (cap' : option string) : Prop :=
  ∃ pre g post, w = pre +:+ g +:+ post ∧ cap' = Some g
                ∧ no_slash pre = true ∧ (String.length post ≤ 2)%nat
                ∧ cdn_text g.

(** update-asset-references.py: a matched path is replaced by what the
    three look-ups resolve it to. *)
Definition asset_step (reverse_map : gmap string string) (x y : string) : Prop :=
  Str.startswith "/cdn-assets/" x = true
  ∧ Str.all UpdateAssetReferences.path_char x = true
  ∧ UpdateAssetReferences.resolve reverse_map x = Some y.

(** update-image-references.py: the look-up of [replace_match], exact
    first, then without the leading slash. *)
Definition lookup_path (path_mapping : gmap string string) (old_path : string)
  : option string :=
  match path_mapping !! old_path with
  | Some new_path => Some new_path
  | None =>
      if Str.startswith "/" old_path then
        (λ new_path, if Str.startswith "/" new_path then new_path
                     else "/" +:+ new_path)
          <$> path_mapping !! Str.drop 1 old_path
      else None
  end.





(** [x] occurs in [s]. *)
Definition segment (x s : string) : Prop := ∃ u v, s = u +:+ x +:+ v.

(** A file in which nothing is left to rewrite: no quote-free segment
    that starts with [/cdn-assets/] resolves in the path mapping. *)
Definition unresolved (path_mapping : gmap string string) (content : string)
  : Prop :=
  ∀ x, segment x content → starts_cdn x = true →
       Str.all UpdateImageReferences.not_quote x = true →
       lookup_path path_mapping x = None.

(** One pass of [update_file] for a pattern, and the [srcset] pass. *)
Definition pattern_pass (path_mapping : gmap string string) (pat : Re.regex)
    (content : string) : string :=
  (Re.subn pat (UpdateImageReferences.replace_match path_mapping) content).1.

(** The six pattern passes, one after the other. *)
Definition pattern_passes (path_mapping : gmap string string)
    (content : string) : string :=
  fold_left (λ c pat, pattern_pass path_mapping pat c)
            UpdateImageReferences.IMAGE_REF_PATTERNS.*1 content.


End Steps.

Module RewriteInputs.
Import UpdateImageReferences.

(** A mapping document with one image. *)
Definition one_image_mapping : list (string * item) :=
  [ ("a.png", Item "/cdn-assets/a.png" "/cdn-assets/images/graphics/a.png") ].





End RewriteInputs.

(** ** Mappings on which the move pass can be repeated *)

Module Repeatable.
Import FS.

Section Repeatable.
Variable CDN_ASSETS : path.

Definition old_of (kv : string * string) : path := join CDN_ASSETS kv.1.
Definition new_of (kv : string * string) : path := join CDN_ASSETS kv.2.

(** No path of the mapping has a [..] component. *)
Definition plain (m : list (string * string)) : bool :=
  forallb (λ e, no_dotdot (old_of e) && no_dotdot (new_of e)) m.




End Repeatable.

End Repeatable.

Module RepeatInputs.
Import FS.




End RepeatInputs.

Module SecondRunInputs.

(** A mapping with one image to move, and a page that refers to it. *)
Definition one_move : list (string * string) :=
  [ ("a.png", "images/graphics/a.png") ].

Definition page : string := "<img src='/cdn-assets/a.png' alt='a'>".

(** A mapping whose second new path is the first entry's old path. *)
Definition chained_items : list (string * UpdateImageReferences.item) :=
  [ ("b.png", UpdateImageReferences.Item "/cdn-assets/b.png" "/cdn-assets/c.png");
    ("a.png", UpdateImageReferences.Item "/cdn-assets/a.png" "/cdn-assets/b.png") ].

End SecondRunInputs.

(** ** What the planners' documents hold, entry by entry *)

Module PlanEntries.

(** The item [organize-images.py] writes for the image [info] found
    under the key [k], given the name chosen for it. *)
Definition image_item (name_of : OrganizeImages.image_info → string)
    (k : string) (info : OrganizeImages.image_info)
    (e : OrganizeImages.item) : Prop :=
  OrganizeImages.old_relative e = k
  ∧ OrganizeImages.old_path e = "/cdn-assets/" +:+ k
  ∧ OrganizeImages.new_path e = "/cdn-assets/" +:+ OrganizeImages.new_relative e
  ∧ OrganizeImages.item_category e = OrganizeImages.category info
  ∧ OrganizeImages.new_name e = name_of info
  ∧ Str.startswith "images/" (OrganizeImages.new_relative e) = true
  ∧ Str.endswith (OrganizeImages.extension info) (OrganizeImages.new_relative e)
    = true.

(** The entry [organize_files] writes for an inventoried file. *)
Definition asset_entry (info : Planner.file_info) (e : Planner.entry) : Prop :=
  Planner.old_path e = Planner.fi_old_path info
  ∧ Planner.old_name e = Planner.fi_name info
  ∧ Planner.category e
    = (OrganizePublicAssets.categorize_file (Planner.fi_name info)).1
  ∧ Dict.get (Planner.category e) OrganizePublicAssets.NEW_STRUCTURE
    = Some (Planner.new_dir e)
  ∧ Planner.new_path e
    = "cdn-assets/" +:+ Planner.new_dir e +:+ "/" +:+ Planner.new_name e.

End PlanEntries.

(** ** What the loops of [scan_files] keep true *)

Module Inventory.
Import Planner.

(** The names inventoried are pairwise distinct, as are the keys, and
    every name inventoried has been recorded as seen. *)
Record scanned (files_map : list (string * file_info))
    (seen_files : list (string * string)) : Prop := Scanned {
  sc_keys : NoDup (Dict.keys files_map);
  sc_names : NoDup (fi_name <$> Dict.values files_map);
  sc_seen : Forall (λ info, fi_name info ∈ Dict.keys seen_files)
                   (Dict.values files_map)
}.

(** Where an entry of the inventory comes from: a file of [cdn-assets],
    kept under its own path, or a file of the [public] root other than
    [robots.txt], to be moved below [cdn-assets]. *)
Definition provenance (PUBLIC_DIR : string) (d : disk_view)
    (k : string) (info : file_info) : Prop :=
  fi_relative_path info = k
  ∧ if fi_needs_move info
    then k = "cdn-assets/" +:+ fi_name info
         ∧ fi_name info ≠ "robots.txt"
         ∧ ∃ f, f ∈ default [] (public_files d)
                ∧ fi_name info = PurePath.name (rel_to_public f)
                ∧ fi_old_path info = PUBLIC_DIR +:+ "/" +:+ rel_to_public f
                ∧ fi_size info = st_size f
    else fi_name info = PurePath.name k
         ∧ fi_old_path info = PUBLIC_DIR +:+ "/" +:+ k
         ∧ ∃ f, f ∈ default [] (cdn_assets_files d)
                ∧ rel_to_public f = k ∧ fi_size info = st_size f.

(** What makes the inventory complete: every name inventoried has been
    seen, every name seen is inventoried, and the key of an entry
    determines its name. *)
Record tracked (files_map : list (string * file_info))
    (seen_files : list (string * string)) : Prop := Tracked {
  tr_seen : Forall (λ kv, fi_name kv.2 ∈ Dict.keys seen_files) files_map;
  tr_found : ∀ n, n ∈ Dict.keys seen_files →
                  ∃ k info, Dict.get k files_map = Some info ∧ fi_name info = n;
  tr_keys : Forall (λ kv, if fi_needs_move kv.2
                          then kv.1 = "cdn-assets/" +:+ fi_name kv.2
                          else fi_name kv.2 = PurePath.name kv.1) files_map
}.

(** The files listed for a root; none when the root does not exist. *)
Definition listed (l : option (list file_stat)) : list file_stat := default [] l.

(** Every file listed has a name. *)
Definition all_named (l : list file_stat) : bool :=
  forallb (λ f, negb (String.eqb (PurePath.name (rel_to_public f)) EmptyString)) l.

End Inventory.

Module InventoryInputs.
Import Planner.

(** A tree where [a.png] lies both below [cdn-assets] and in the
    [public] root, next to [robots.txt] and [b.png]. *)
Definition shadowed_file : disk_view :=
  DiskView (Some [ FileStat "cdn-assets/img/a.png" 10 ])
           (Some [ FileStat "a.png" 20; FileStat "robots.txt" 5;
                   FileStat "b.png" 30 ]).

End InventoryInputs.

Module CleanupTrees.
Import FS.

(** Empty directories nested in one another, next to a directory that
    holds a file. *)
Definition nested_empty_dirs : gmap path node :=
  list_to_map
    [ (["repo"], Dir);
      (["repo"; "public"], Dir);
      (["repo"; "public"; "old"], Dir);
      (["repo"; "public"; "old"; "icons"], Dir);
      (["repo"; "public"; "keep"], Dir);
      (["repo"; "public"; "keep"; "a.png"], File "A") ].

End CleanupTrees.

Module AccountingInputs.

(** A mapping whose second entry has no source on disk, and the summary
    of [apply-image-mapping.py] over it on [one_image_tree]. *)
Definition second_source_missing : list (string * string) :=
  [ ("a.png", "images/b.png"); ("missing.png", "images/c.png") ].

Definition one_moved_one_missing : ApplyImageMapping.summary :=
  ApplyImageMapping.Summary 1 1
    [ ApplyImageMapping.SourceNotFound
        ["repo"; "public"; "cdn-assets"; "missing.png"] ].

(** What a dry run of [migrate_files] over [one_entry_map] returns. *)
Definition dry_run_report
  : list MigrateAssets.moved_file * list MigrateAssets.error :=
  ([ MigrateAssets.MovedFile "cdn-assets/a.png" "cdn-assets/images/a.png" ], []).

End AccountingInputs.

Module RewriteFiles.

(** A page without any reference to an asset. *)
Definition plain_page : string := "<a href='https://example.com/about'>About</a>".

End RewriteFiles.

Module CountedInputs.

(** The page of [SecondRunInputs] after its reference has been
    rewritten. *)
Definition rewritten_page : string :=
  "<img src='/cdn-assets/images/graphics/a.png' alt='a'>".

End CountedInputs.

(** ** The mapping documents, as the scripts that read them see them *)

Module Documents.

(** [asset-migration-map.json], written by [organize_files], as
    [update-asset-references.py] reads it. *)
Definition asset_entries (m : list (string * Planner.entry))
  : list (string * UpdateAssetReferences.entry) :=
  List.map (λ kv, (kv.1, UpdateAssetReferences.Entry (Planner.old_name kv.2)
                           (Planner.new_path kv.2))) m.

(** [image-mapping.json], written by [main] of [organize-images.py], as
    [update-image-references.py] reads it. *)
Definition image_items (m : list (string * OrganizeImages.item))
  : list (string * UpdateImageReferences.item) :=
  List.map (λ kv, (kv.1, UpdateImageReferences.Item (OrganizeImages.old_path kv.2)
                           (OrganizeImages.new_path kv.2))) m.

End Documents.

(** ** The paths a mapping names *)

Module Frame.
Import FS.

(** A path is named by the mapping of [apply-image-mapping.py] when it
    lies at or below the source or the destination of an entry, or is one
    of the directories above a destination. *)
Definition named (CDN_ASSETS : path) (m : list (string * string)) (k : path)
  : bool :=
  existsb (λ e, is_below (Repeatable.old_of CDN_ASSETS e) k
                || is_below (Repeatable.new_of CDN_ASSETS e) k
                || bool_decide
                     (k ∈ prefixes (parent (Repeatable.new_of CDN_ASSETS e))))
          m.

End Frame.

Module FrameInputs.
Import FS.

(** The tree of [one_image_tree] with a second file that the mapping
    [one_move] does not name. *)
Definition tree_with_bystander : gmap path node :=
  list_to_map
    [ (["repo"], Dir);
      (["repo"; "public"], Dir);
      (["repo"; "public"; "cdn-assets"], Dir);
      (["repo"; "public"; "cdn-assets"; "a.png"], File "A");
      (["repo"; "public"; "cdn-assets"; "z.png"], File "Z") ].

End FrameInputs.

Module MigrateFrame.
Import FS.

(** A path is named by the migration map of [migrate-assets.py] when it
    lies at or below the old or the new place of an entry, or is one of
    the directories above a new place. *)
Definition named (PUBLIC_DIR : path) (m : list (string * MigrateAssets.entry))
    (k : path) : bool :=
  existsb (λ kv,
             let old := of_string (MigrateAssets.old_path kv.2) in
             let new := join PUBLIC_DIR (MigrateAssets.new_path kv.2) in
             is_below old k || is_below new k
             || bool_decide (k ∈ prefixes (parent new)))
          m.

(** Every old path of the migration map is written as an absolute path,
    and no path of the map has a [..] component. *)
Definition plain (PUBLIC_DIR : path) (m : list (string * MigrateAssets.entry))
  : bool :=
  forallb (λ kv,
             Str.startswith "/" (MigrateAssets.old_path kv.2)
             && no_dotdot (of_string (MigrateAssets.old_path kv.2))
             && no_dotdot (join PUBLIC_DIR (MigrateAssets.new_path kv.2)))
          m.

End MigrateFrame.

(** ** update-asset-references.py: the files it visits *)

Module AssetReferenceFiles.

(** The suffixes of [SEARCH_PATTERNS]: the pattern of a suffix [s] is
    [**/*s], which matches every path below [BASE_DIR] whose name ends
    with [s]. *)
Definition SEARCH_PATTERNS : list string :=
  [ ".astro"; ".ts"; ".tsx"; ".js"; ".jsx"; ".css"; ".html" ].

Definition SKIPPED_PARTS : list string :=
  [ "node_modules"; ".git"; "dist"; ".astro" ].

(** A path below [BASE_DIR], as [str(file_path)], and whether it is a
    regular file. *)
Record dir_entry : Type := DirEntry { de_path : string; de_is_file : bool }.

(** [BASE_DIR.glob(pattern)] over the paths below [BASE_DIR], in the
    order of the walk. *)
Definition glob (suffix : string) (tree : list dir_entry) : list dir_entry :=
  List.filter (λ e, Str.endswith suffix (PurePath.name (de_path e))) tree.

(** The inner loop of [find_files_to_update] for one pattern. *)
Definition files_of_pattern (tree : list dir_entry) (suffix : string)
  : list string :=
  List.map de_path
    (List.filter
       (λ e, negb (existsb (λ part, Str.contains part (de_path e)) SKIPPED_PARTS)
             && de_is_file e)
       (glob suffix tree)).

(** [find_files_to_update()] *)
Definition find_files_to_update (tree : list dir_entry) : list string :=
  flat_map (files_of_pattern tree) SEARCH_PATTERNS.

(** [main()]: the contents of the files after the run, by path, and the
    number of files reported as updated.  A path without content cannot
    be read. *)
Definition update_one (reverse_map : gmap string string)
    (st : gmap string string * nat) (file_path : string)
  : gmap string string * nat :=
  match UpdateAssetReferences.update_file_references (st.1 !! file_path)
          reverse_map with
  | (Some new_content, true) => (<[file_path := new_content]> st.1, S st.2)
  | (_, true) => (st.1, S st.2)
  | (_, false) => st
  end.

Definition main (migration_map : list (string * UpdateAssetReferences.entry))
    (tree : list dir_entry) (contents : gmap string string)
  : gmap string string * nat :=
  fold_left (update_one (UpdateAssetReferences.create_reverse_map migration_map))
            (find_files_to_update tree) (contents, O).

End AssetReferenceFiles.

(** * Properties *)

(** ** Facts about strings and matching *)

Section StringFacts.
Implicit Types (s t u : string) (p : ascii → bool).

Lemma app_cons c s t : String c s +:+ t = String c (s +:+ t).
Proof. reflexivity. Qed.

Lemma app_nil s : EmptyString +:+ s = s.
Proof. reflexivity. Qed.

Lemma app_empty_r s : s +:+ EmptyString = s.
Proof. induction s as [|c s IH]; [done|]. by rewrite app_cons, IH. Qed.

Lemma app_assoc_str s t u : (s +:+ t) +:+ u = s +:+ (t +:+ u).
Proof. induction s as [|c s IH]; [done|]. by rewrite !app_cons, IH. Qed.

Lemma length_app_str s t :
  String.length (s +:+ t) = (String.length s + String.length t)%nat.
Proof. induction s as [|c s IH]; [done|]. rewrite app_cons. cbn. by rewrite IH. Qed.

Lemma startswith_app s t : Str.startswith s (s +:+ t) = true.
Proof.
  induction s as [|c s IH]; [done|]. rewrite app_cons. cbn.
  by rewrite Ascii.eqb_refl, IH.
Qed.

Lemma startswith_refl s : Str.startswith s s = true.
Proof.
  induction s as [|c s IH]; cbn; [done|]. by rewrite Ascii.eqb_refl, IH.
Qed.

Lemma contains_of_startswith s t :
  Str.startswith s t = true → Str.contains s t = true.
Proof. intros H. destruct t; cbn; by rewrite H. Qed.

Lemma startswith_spec s t : Str.startswith s t = true ↔ ∃ u, t = s +:+ u.
Proof.
  revert t. induction s as [|c s IH]; intros t.
  - split; [by exists t|done].
  - destruct t as [|d t]; [split; [done|by intros [u ?]]|].
    cbn. rewrite andb_true_iff, IH. split.
    + intros [->%Ascii.eqb_eq [u ->]]. by exists u.
    + intros [u [= -> ->]]. split; [apply Ascii.eqb_refl|by exists u].
Qed.

Lemma drop_app_length s t : Str.drop (String.length s) (s +:+ t) = t.
Proof. induction s as [|c s IH]; [by destruct t|]. by rewrite app_cons. Qed.

Lemma take_app_length_str s t : Str.take (String.length s) (s +:+ t) = s.
Proof.
  induction s as [|c s IH]; [by destruct t|]. rewrite app_cons. cbn.
  by rewrite IH.
Qed.

Lemma takewhile_lstrip p s : Str.takewhile p s +:+ Str.lstrip p s = s.
Proof.
  induction s as [|c s IH]; cbn; [done|].
  destruct (p c); [by rewrite app_cons, IH|done].
Qed.

Lemma takewhile_all p s : Str.all p (Str.takewhile p s) = true.
Proof.
  induction s as [|c s IH]; cbn; [done|].
  destruct (p c) eqn:E; cbn; [by rewrite E|done].
Qed.

(** [s.replace(s, new)] is [new]. *)
Lemma replace_go_skip_all old new s :
  Str.replace_go (String.length s) old new s = EmptyString.
Proof. induction s as [|c s IH]; cbn; done. Qed.

Lemma replace_self s new : s ≠ EmptyString → Str.replace s new s = new.
Proof.
  destruct s as [|c s]; [done|]. intros _. unfold Str.replace.
  cbn [Str.replace_go]. rewrite startswith_refl.
  replace (String.length (String c s) - 1)%nat with (String.length s)
    by (cbn; lia).
  by rewrite replace_go_skip_all, app_empty_r.
Qed.

End StringFacts.

Section MatchFacts.
Import Re Spec.
Context {R : Type}.
Implicit Types (k : option string → string → option R).

Lemma run_Lit l cap s k :
  run (Lit l) cap s k =
    if Str.startswith l s then k cap (Str.drop (String.length l) s) else None.
Proof.
  revert s. induction l as [|c l IH]; intros s; cbn; [by destruct s|].
  destruct s as [|d s]; [done|].
  destruct (Ascii.eqb c d); cbn; [apply IH|done].
Qed.

Lemma star_k_total p s (k : string → option R) :
  (∀ x, is_Some (k x)) → star_k p s k = k (Str.lstrip p s).
Proof.
  intros Hk. induction s as [|c s IH]; cbn; [done|].
  destruct (p c); [|done]. rewrite IH. by destruct (Hk (Str.lstrip p s)) as [x ->].
Qed.

Lemma star_k_sound p s (k : string → option R) x :
  star_k p s k = Some x →
  ∃ w s', s = w +:+ s' ∧ Str.all p w = true ∧ k s' = Some x.
Proof.
  revert x. induction s as [|c s IH]; intros x; cbn.
  - intros H. by exists EmptyString, EmptyString.
  - destruct (p c) eqn:Hc.
    + destruct (star_k p s k) as [y|] eqn:Hs.
      * intros [= <-]. destruct (IH y eq_refl) as (w & s' & -> & Hw & Hk).
        exists (String c w), s'. cbn. by rewrite Hc.
      * intros H. by exists EmptyString, (String c s).
    + intros H. by exists EmptyString, (String c s).
Qed.

(** Whatever the matcher finds is a match. *)
Lemma run_sound r cap s k x :
  run r cap s k = Some x →
  ∃ w s' cap', s = w +:+ s' ∧ matches r cap w cap' ∧ k cap' s' = Some x.
Proof.
  revert cap s k x.
  induction r as [|p|r1 IH1 r2 IH2|r1 IH1 r2 IH2|p|r1 IH1];
    intros cap s k x; cbn.
  - intros H. exists EmptyString, s, cap. split; [done|]. split; [constructor|done].
  - destruct s as [|c s]; [done|]. destruct (p c) eqn:Hc; [|done].
    intros H. exists (String c EmptyString), s, cap.
    split; [done|]. split; [by constructor|done].
  - intros H. apply IH1 in H as (w1 & s1 & cap1 & -> & Hm1 & H).
    apply IH2 in H as (w2 & s2 & cap2 & -> & Hm2 & H).
    exists (w1 +:+ w2), s2, cap2. rewrite app_assoc_str.
    split; [done|]. split; [by econstructor|done].
  - destruct (run r1 cap s k) as [y|] eqn:H1.
    + intros [= <-]. apply IH1 in H1 as (w & s' & cap' & -> & Hm & H).
      exists w, s', cap'. split; [done|]. split; [by apply M_Alt_l|done].
    + intros H. apply IH2 in H as (w & s' & cap' & -> & Hm & H).
      exists w, s', cap'. split; [done|]. split; [by apply M_Alt_r|done].
  - intros H. apply star_k_sound in H as (w & s' & -> & Hw & H).
    exists w, s', cap. split; [done|]. split; [by constructor|done].
  - intros H. apply IH1 in H as (w & s' & cap' & -> & Hm & H).
    exists w, s', (Some w). split; [done|]. split; [by econstructor|].
    rewrite <- H. do 2 f_equal. rewrite length_app_str.
    replace (String.length w + String.length s' - String.length s')%nat
      with (String.length w) by lia.
    by rewrite take_app_length_str.
Qed.

End MatchFacts.

Section MatchHere.
Import Re Spec.

(** A match object holds a match: the text is [group(0)] followed by what
    comes after it. *)
Lemma match_here_sound r s m :
  match_here r s = Some m →
  s = group0 m +:+ after m ∧ matches r None (group0 m) (group1 m).
Proof.
  unfold match_here. intros H.
  apply run_sound in H as (w & s' & cap' & -> & Hm & [= <-]). cbn.
  rewrite length_app_str.
  replace (String.length w + String.length s' - String.length s')%nat
    with (String.length w) by lia.
  by rewrite take_app_length_str.
Qed.

Lemma matches_Lit l cap w cap' : matches (Lit l) cap w cap' → w = l ∧ cap' = cap.
Proof.
  revert cap w cap'. induction l as [|c l IH]; intros cap w cap'; cbn.
  - by inversion 1.
  - inversion 1 as [| |? ? ? w1 cap1 w2 cap2 H1 H2| | | |]; subst.
    inversion H1; subst. apply IH in H2 as [-> ->].
    match goal with H : Ascii.eqb _ _ = true |- _ => apply Ascii.eqb_eq in H as -> end.
    done.
Qed.

Lemma matches_LitI l cap w cap' :
  matches (LitI l) cap w cap' → eq_nocase l w = true ∧ cap' = cap.
Proof.
  revert cap w cap'. induction l as [|c l IH]; intros cap w cap'; cbn.
  - by inversion 1.
  - inversion 1 as [| |? ? ? w1 cap1 w2 cap2 H1 H2| | | |]; subst.
    inversion H1; subst. apply IH in H2 as [H2 ->]. cbn.
    split; [|done]. by apply andb_true_iff.
Qed.

Lemma matches_Plus p cap w cap' :
  matches (Plus p) cap w cap' →
  ∃ c w', w = String c w' ∧ p c = true ∧ Str.all p w' = true ∧ cap' = cap.
Proof.
  inversion 1 as [| |? ? ? w1 cap1 w2 cap2 H1 H2| | | |]; subst.
  inversion H1; subst. inversion H2; subst. eauto 10.
Qed.

End MatchHere.

(** ** The planner of organize-public-assets.py *)

Section PlannerFacts.
Import OrganizePublicAssets Planner PlannerInputs.

(** C7.  The file [abcdef0123456789abcdef01_logo-acme.png] is a logo by
    the key word [logo]; the 24 hexadecimal characters and the underscore
    are stripped; the name already starts with [logo-], so no second
    prefix is added; and the planned path is
    [images/logos/logo-acme.png] below the asset root [cdn-assets]. *)
Theorem logo_acme_planned_path :
  let f := "abcdef0123456789abcdef01_logo-acme.png" in
  categorize_file f = ("logos", None)
  ∧ first_category (Str.lower f) FILE_CATEGORIES = Some "logos"
  ∧ Re.sub_bol re_hash_prefix drop_match f = "logo-acme.png"
  ∧ clean_filename f (Some f) = "logo-acme.png"
  ∧ generate_new_name f "logos" = "logo-acme.png"
  ∧ ∀ PUBLIC_DIR size,
      Dict.values
        (organize_files PUBLIC_DIR
           (DiskView (Some [FileStat ("cdn-assets/" +:+ f) size]) (Some [])))
      = [ Entry (PUBLIC_DIR +:+ "/cdn-assets/" +:+ f) f
                "cdn-assets/images/logos/logo-acme.png" "logo-acme.png"
                "logos" "images/logos" ].
Proof.
  cbv zeta. repeat split; vm_compute; reflexivity.
Qed.

(** C1.  On [colliding_inventory] the third file collides with the second
    on [graphic-foo.png], receives the suffix [-2] (the number of files
    seen in the category) and, unchecked, lands on the path already given
    to the first file: the plan of [organize_files] is not injective. *)
Theorem organize_files_suffix_collides :
  ∀ PUBLIC_DIR,
    let m := organize_files PUBLIC_DIR colliding_inventory in
    new_path <$> Dict.get "cdn-assets/foo-2.png" m
      = Some "cdn-assets/images/graphics/graphic-foo-2.png"
    ∧ new_path <$> Dict.get "cdn-assets/foo (1).png" m
      = Some "cdn-assets/images/graphics/graphic-foo-2.png"
    ∧ ¬ injective_plan m.
Proof.
  intros PUBLIC_DIR m.
  assert (H1 : Dict.get "cdn-assets/foo-2.png" m
               = Some (Entry (PUBLIC_DIR +:+ "/" +:+ "cdn-assets/foo-2.png")
                         "foo-2.png"
                         "cdn-assets/images/graphics/graphic-foo-2.png"
                         "graphic-foo-2.png" "graphics" "images/graphics"))
    by (vm_compute; reflexivity).
  assert (H2 : Dict.get "cdn-assets/foo (1).png" m
               = Some (Entry (PUBLIC_DIR +:+ "/" +:+ "cdn-assets/foo (1).png")
                         "foo (1).png"
                         "cdn-assets/images/graphics/graphic-foo-2.png"
                         "graphic-foo-2.png" "graphics" "images/graphics"))
    by (vm_compute; reflexivity).
  split; [by rewrite H1|]. split; [by rewrite H2|].
  intros Hinj. specialize (Hinj _ _ _ _ H1 H2 eq_refl). discriminate.
Qed.

(** C6, as it holds for [scan_files].  A root that does not exist is
    guarded by [exists()] and counts as an empty directory. *)
Lemma scan_files_missing_root_is_empty PUBLIC_DIR cdn pub :
  scan_files PUBLIC_DIR (DiskView None pub)
    = scan_files PUBLIC_DIR (DiskView (Some []) pub)
  ∧ scan_files PUBLIC_DIR (DiskView cdn None)
    = scan_files PUBLIC_DIR (DiskView cdn (Some [])).
Proof. split; reflexivity. Qed.

End PlannerFacts.

(** ** Insertion-ordered dictionaries *)

Section DictFacts.
Context {V : Type}.
Implicit Types (d : list (string * V)) (k : string) (v : V).

Lemma get_elem_of k v d : Dict.get k d = Some v → (k, v) ∈ d.
Proof.
  induction d as [|[k' v'] d IH]; cbn; [done|].
  destruct (String.eqb_spec k k') as [->|Hne].
  - intros [= ->]. apply list_elem_of_here.
  - intros H. apply list_elem_of_further. by apply IH.
Qed.

Lemma values_set {B} (f : V → B) k v d :
  NoDup (f <$> Dict.values d) → f v ∉ f <$> Dict.values d →
  NoDup (f <$> Dict.values (Dict.set k v d)).
Proof.
  unfold Dict.values.
  induction d as [|[k' v'] d IH]; cbn; intros Hd Hv.
  { apply NoDup_singleton. }
  apply NoDup_cons in Hd as [Hv' Hd]. apply not_elem_of_cons in Hv as [Hne Hv].
  destruct (String.eqb k k'); cbn.
  - by apply NoDup_cons.
  - apply NoDup_cons. split; [|by apply IH].
    clear IH Hd. induction d as [|[k'' v''] d IH]; cbn.
    + apply not_elem_of_cons. split; [done|]. apply not_elem_of_nil.
    + cbn in Hv, Hv'.
      apply not_elem_of_cons in Hv as [? Hv].
      apply not_elem_of_cons in Hv' as [? Hv'].
      destruct (String.eqb k k''); cbn.
      * apply not_elem_of_cons. split; [done|done].
      * apply not_elem_of_cons. split; [done|]. by apply IH.
Qed.

Lemma values_set_Forall (P : V → Prop) k v d :
  Forall P (Dict.values d) → P v → Forall P (Dict.values (Dict.set k v d)).
Proof.
  unfold Dict.values. induction d as [|[k' v'] d IH]; cbn; intros Hd Hv.
  { by apply Forall_singleton. }
  apply Forall_cons in Hd as [Hv' Hd].
  destruct (String.eqb k k'); cbn; apply Forall_cons; auto.
Qed.

Lemma NoDup_fmap_eq {B} (f : V → B) (l : list V) x y :
  NoDup (f <$> l) → x ∈ l → y ∈ l → f x = f y → x = y.
Proof.
  induction l as [|z l IH]; cbn; intros Hl Hx Hy Hf.
  { by apply elem_of_nil in Hx. }
  apply NoDup_cons in Hl as [Hz Hl].
  apply elem_of_cons in Hx as [->|Hx]; apply elem_of_cons in Hy as [->|Hy].
  - done.
  - destruct Hz. rewrite Hf. by apply list_elem_of_fmap_2.
  - destruct Hz. rewrite <- Hf. by apply list_elem_of_fmap_2.
  - by apply IH.
Qed.

End DictFacts.

(** ** The planner of organize-images.py *)

Section OrganizeImagesFacts.
Import OrganizeImages.
Variable CDN_ASSETS : string.
Variable generate_human_readable_name : image_info → string.

Lemma app_inv_head_str s t u : s +:+ t = s +:+ u → t = u.
Proof.
  induction s as [|c s IH]; [done|]. rewrite !app_cons. intros [= H]. auto.
Qed.

Lemma app_inv_tail_str s t u : s +:+ u = t +:+ u → s = t.
Proof.
  revert t. induction s as [|c s IH]; intros [|c' t] H.
  - done.
  - apply (f_equal String.length) in H. rewrite !length_app_str in H.
    cbn in H. lia.
  - apply (f_equal String.length) in H. rewrite !length_app_str in H.
    cbn in H. lia.
  - rewrite !app_cons in H. injection H as -> H. f_equal. by apply IH.
Qed.

Lemma numbered_inj folder name ext c c' :
  numbered folder name ext c = numbered folder name ext c' → c = c'.
Proof.
  unfold numbered. intros H.
  do 5 apply app_inv_head_str in H.
  apply app_inv_tail_str in H. by apply pretty_nat_inj in H.
Qed.

Lemma first_free_None fuel existing folder name ext counter final :
  first_free fuel existing folder name ext counter final = None →
  ∀ i, (counter ≤ i < counter + fuel)%nat →
       numbered folder name ext i ∈ existing.
Proof.
  revert counter final.
  induction fuel as [|fuel IH]; intros counter final H i Hi; [lia|].
  cbn in H. destruct (existsb _ existing) eqn:Hex; [|done].
  destruct (decide (i = counter)) as [->|Hne].
  - destruct fuel; cbn in H.
    + destruct (existsb (String.eqb (numbered folder name ext counter))
                        existing) eqn:Hn; [|done].
      apply existsb_exists in Hn as (x & Hx & Heq).
      apply String.eqb_eq in Heq as ->. by apply list_elem_of_In.
    + destruct (existsb (String.eqb (numbered folder name ext counter))
                        existing) eqn:Hn; [|done].
      apply existsb_exists in Hn as (x & Hx & Heq).
      apply String.eqb_eq in Heq as ->. by apply list_elem_of_In.
  - apply (IH _ _ H). lia.
Qed.

Lemma first_free_Some fuel existing folder name ext counter final p :
  first_free fuel existing folder name ext counter final = Some p →
  p ∉ existing.
Proof.
  revert counter final.
  induction fuel as [|fuel IH]; intros counter final; cbn;
    destruct (existsb (String.eqb final) existing) eqn:Hex; try done.
  - intros [= <-] Hin. apply not_true_iff_false in Hex. apply Hex.
    apply existsb_exists. exists final. split; [by apply list_elem_of_In|].
    apply String.eqb_refl.
  - apply IH.
  - intros [= <-] Hin. apply not_true_iff_false in Hex. apply Hex.
    apply existsb_exists. exists final. split; [by apply list_elem_of_In|].
    apply String.eqb_refl.
Qed.

Lemma first_free_total existing folder name ext final :
  ∃ p, first_free (S (length existing)) existing folder name ext 1 final
       = Some p.
Proof.
  destruct (first_free _ _ _ _ _ _ _) as [p|] eqn:H; [by exists p|].
  exfalso.
  pose proof (first_free_None _ _ _ _ _ _ _ H) as Hall.
  assert (Hsub : (numbered folder name ext <$> seq 1 (S (length existing)))
                 ⊆+ existing).
  { apply NoDup_submseteq.
    - apply NoDup_fmap_2_strong; [|apply NoDup_seq].
      intros x y _ _. apply numbered_inj.
    - intros x (i & -> & Hi)%list_elem_of_fmap.
      apply elem_of_seq in Hi. apply Hall. lia. }
  apply submseteq_length in Hsub.
  rewrite length_fmap, length_seq in Hsub. lia.
Qed.

Lemma determine_new_path_free info name m :
  ∃ p, determine_new_path info name m = Some p
       ∧ p ∉ new_relative <$> Dict.values m.
Proof.
  unfold determine_new_path.
  destruct (first_free_total (List.map new_relative (Dict.values m))
              (folder_structure (category info) name) name (extension info)
              ("images/" +:+ folder_structure (category info) name +:+ "/"
                 +:+ name +:+ extension info)) as [p Hp].
  exists p. split; [done|]. by apply first_free_Some in Hp.
Qed.

Lemma plan_image_distinct m kv :
  distinct_paths m →
  ∃ m', plan_image generate_human_readable_name (Some m) kv = Some m'
        ∧ distinct_paths m'.
Proof.
  intros [Hnd Hall]. destruct kv as [rel_path info]. unfold plan_image.
  destruct (determine_new_path_free info (generate_human_readable_name info) m)
    as (p & -> & Hp).
  eexists. split; [done|]. split.
  - by apply values_set.
  - by apply values_set_Forall.
Qed.

Lemma plan_loop_distinct l m :
  distinct_paths m →
  ∃ m', fold_left (plan_image generate_human_readable_name) l (Some m) = Some m'
        ∧ distinct_paths m'.
Proof.
  revert m. induction l as [|kv l IH]; intros m Hm; cbn [fold_left].
  - by exists m.
  - destruct (plan_image_distinct m kv Hm) as (m' & -> & Hm'). by apply IH.
Qed.

Lemma distinct_paths_injective m : distinct_paths m → injective_mapping m.
Proof.
  intros [Hnd Hall] k1 k2 e1 e2 H1 H2 Heq.
  apply get_elem_of in H1, H2.
  assert (He : ∀ k e, (k, e) ∈ m →
                      new_path e = "/cdn-assets/" +:+ new_relative e).
  { intros k e Hin. rewrite Forall_forall in Hall. apply Hall.
    apply (list_elem_of_fmap_2 snd) in Hin. done. }
  rewrite (He _ _ H1), (He _ _ H2) in Heq. apply app_inv_head_str in Heq.
  unfold Dict.values in Hnd. change (List.map snd m) with (snd <$> m) in Hnd.
  rewrite <- list_fmap_compose in Hnd.
  by pose proof (NoDup_fmap_eq _ _ (k1, e1) (k2, e2) Hnd H1 H2 Heq) as [= ->].
Qed.

End OrganizeImagesFacts.

(** X1.  organize-images.py: [main] either dies because [CDN_ASSETS] is
    missing or ends, the loop of [determine_new_path] having found a free
    path for every image, with a mapping in which no two original paths
    share a new path. *)
Theorem organize_images_mapping_is_injective CDN_ASSETS name_of d :
  (d = None
   ∧ OrganizeImages.main CDN_ASSETS name_of d = OrganizeImages.FileNotFoundError)
  ∨ ∃ m, OrganizeImages.main CDN_ASSETS name_of d
         = OrganizeImages.Returned (Some m)
         ∧ OrganizeImages.injective_mapping m.
Proof.
  destruct d as [v|]; [right|by left].
  unfold OrganizeImages.main, OrganizeImages.find_all_images,
    OrganizeImages.plan.
  edestruct (plan_loop_distinct name_of) as (m & -> & Hm).
  - split; [apply NoDup_nil_2|apply Forall_nil_2].
  - exists m. split; [done|]. by apply distinct_paths_injective.
Qed.

(** ** Missing roots *)

(** C6, counterexample.  With neither [public] nor [public/cdn-assets] on
    disk, [scan_files] returns the empty inventory and [organize_files]
    writes the empty mapping document; nothing fails. *)
Lemma missing_roots_give_empty_mapping :
  Planner.scan_files "/repo/public" (Planner.DiskView None None) = []
  ∧ Planner.organize_files "/repo/public" (Planner.DiskView None None) = [].
Proof. split; reflexivity. Qed.

(** C6, amended.  The converter exits with status 1 before it scans
    anything when [IMAGES_DIR] is missing, and [organize-images.py] dies
    of [FileNotFoundError] before it plans anything when [CDN_ASSETS] is
    missing; [scan_files] of [organize-public-assets.py] treats a missing
    root as an empty directory, so that with both roots missing the
    inventory and the mapping document written are empty. *)
Theorem missing_root_outcomes :
  (∀ codec, ConvertImagesToWebp.main codec None = ConvertImagesToWebp.ExitNotFound)
  ∧ (∀ cdn name_of,
       OrganizeImages.main cdn name_of None = OrganizeImages.FileNotFoundError)
  ∧ (∀ PUBLIC_DIR cdn pub,
       Planner.scan_files PUBLIC_DIR (Planner.DiskView None pub)
         = Planner.scan_files PUBLIC_DIR (Planner.DiskView (Some []) pub)
       ∧ Planner.scan_files PUBLIC_DIR (Planner.DiskView cdn None)
         = Planner.scan_files PUBLIC_DIR (Planner.DiskView cdn (Some [])))
  ∧ (∀ PUBLIC_DIR,
       Planner.scan_files PUBLIC_DIR (Planner.DiskView None None) = []
       ∧ Planner.organize_files PUBLIC_DIR (Planner.DiskView None None) = []).
Proof.
  repeat split; intros; try reflexivity;
    apply scan_files_missing_root_is_empty.
Qed.

(** ** Dry runs *)

(** Case analysis on an innermost scrutinee of the goal. *)
Ltac split_match :=
  match goal with
  | |- context [match ?x with _ => _ end] =>
      lazymatch x with
      | context [match _ with _ => _ end] => fail
      | _ => destruct x eqn:?; cbn
      end
  end.

Section DryRun.
Import FS MigrateAssets.
Variable PUBLIC_DIR : path.

Lemma migrate_entry_dry_run_tree st kv :
  match migrate_entry PUBLIC_DIR true st kv with
  | Next st' | Escaped st' => tree st' = tree st
  end.
Proof.
  destruct kv as [rel_path mapping]. unfold migrate_entry.
  case_bool_decide; [done|].
  case_bool_decide; cbn; repeat split_match; done.
Qed.

Lemma migrate_loop_dry_run_tree m st :
  match migrate_loop PUBLIC_DIR true m st with
  | Next st' | Escaped st' => tree st' = tree st
  end.
Proof.
  revert st. induction m as [|kv m IH]; intros st; cbn; [done|].
  pose proof (migrate_entry_dry_run_tree st kv) as H.
  destruct (migrate_entry PUBLIC_DIR true st kv) as [st1|st1]; [|done].
  specialize (IH st1).
  destruct (migrate_loop PUBLIC_DIR true m st1); congruence.
Qed.

(** A dry run of [migrate_files] leaves the tree as it was. *)
Lemma migrate_files_dry_run_tree m t :
  (migrate_files PUBLIC_DIR true m t).1 = t.
Proof.
  unfold migrate_files.
  pose proof (migrate_loop_dry_run_tree m (State t [] [] [])) as H.
  destruct (migrate_loop PUBLIC_DIR true m _); exact H.
Qed.

(** C8, amended.  [migrate-assets.py] is a dry run unless [--live] is
    among its arguments, and a live run asks for confirmation first: the
    tree is left as it was unless [--live] was given and the answer, in
    lower case, is [yes], and only then is it the tree a live
    [migrate_files] leaves.  ([apply-image-mapping.py] has neither a flag
    nor a prompt.) *)
Theorem migrate_assets_mutates_only_when_live_and_confirmed argv answer m t :
  tree_after (entry_point PUBLIC_DIR argv answer m t) t =
    if existsb (String.eqb "--live") argv
       && bool_decide (Str.lower <$> answer = Some "yes")
    then (migrate_files PUBLIC_DIR false m t).1
    else t.
Proof.
  unfold entry_point.
  destruct (existsb (String.eqb "--live") argv); cbn.
  - destruct answer as [response|]; cbn; [|done].
    destruct (String.eqb_spec (Str.lower response) "yes") as [->|Hne]; cbn.
    + by rewrite bool_decide_eq_true_2.
    + rewrite bool_decide_eq_false_2; [done|]. congruence.
  - apply migrate_files_dry_run_tree.
Qed.

End DryRun.

(** C8, counterexample.  [apply-image-mapping.py] takes no argument and
    asks nothing: run as it is on a tree with one image, it moves the
    file. *)
Lemma apply_image_mapping_moves_unasked :
  (ApplyImageMapping.main ApplierInputs.cdn_assets
     [("a.png", "images/graphics/a.png")] ApplierInputs.one_image_tree).1
    !! ["repo"; "public"; "cdn-assets"; "a.png"] = None
  ∧ (ApplyImageMapping.main ApplierInputs.cdn_assets
       [("a.png", "images/graphics/a.png")] ApplierInputs.one_image_tree).1
      !! ["repo"; "public"; "cdn-assets"; "images"; "graphics"; "a.png"]
    = Some (FS.File "A")
  ∧ ApplyImageMapping.moved <$>
      (ApplyImageMapping.main ApplierInputs.cdn_assets
         [("a.png", "images/graphics/a.png")] ApplierInputs.one_image_tree).2
    = Some 1%nat.
Proof. repeat split; vm_compute; reflexivity. Qed.

(** ** Facts about the directory tree *)

Section TreeFacts.
Import FS.
Implicit Types (t : gmap path node) (p q : path).

Lemma elem_of_prefixes p q :
  q ∈ prefixes p ↔ q ≠ [] ∧ ∃ r, p = q ++ r.
Proof.
  unfold prefixes. rewrite list_elem_of_fmap. split.
  - intros (n & -> & Hn). apply elem_of_seq in Hn. split.
    + destruct p; cbn in *; [lia|]. destruct n; [lia|done].
    + exists (drop n p). by rewrite take_drop.
  - intros (Hq & r & ->). exists (length q). split.
    + by rewrite take_app_length.
    + apply elem_of_seq. rewrite length_app.
      destruct q; [done|]. cbn. lia.
Qed.

Lemma prefixes_self p : p ≠ [] → p ∈ prefixes p.
Proof. intros Hp. apply elem_of_prefixes. split; [done|]. exists []. by rewrite app_nil_r. Qed.

Lemma parent_spec p : p ≠ [] → ∃ x, p = parent p ++ [x].
Proof.
  intros Hp. unfold parent. destruct (exists_last Hp) as (l & x & ->).
  exists x. by rewrite removelast_last.
Qed.

Lemma node_at_lookup t p : p ≠ [] → node_at t p = t !! p.
Proof. by destruct p. Qed.


Lemma wf_ancestors t p q :
  wf t = true → is_Some (t !! p) → q ∈ prefixes (parent p) → is_dir t q = true.
Proof.
  unfold wf. rewrite forallb_forall. intros Hwf [x Hx] Hq.
  assert (Hin : In p (map_to_list t).*1).
  { apply list_elem_of_In, list_elem_of_fmap. exists (p, x). split; [done|].
    by apply elem_of_map_to_list. }
  specialize (Hwf p Hin). rewrite forallb_forall in Hwf.
  apply Hwf. by apply list_elem_of_In.
Qed.

Lemma wf_parent_is_dir t p :
  wf t = true → is_Some (node_at t p) → is_dir t (parent p) = true.
Proof.
  intros Hwf Hp. destruct (decide (parent p = [])) as [->|Hne]; [done|].
  destruct p as [|a p]; [done|].
  apply (wf_ancestors t (a :: p)); [done|done|]. by apply prefixes_self.
Qed.

Lemma fold_mkdir_existing t l :
  (∀ q, q ∈ l → exists_ t q = true) →
  fold_left (λ acc q, if exists_ acc q then acc else <[q := Dir]> acc) l t = t.
Proof.
  induction l as [|q l IH]; intros H; cbn; [done|].
  rewrite (H q) by apply list_elem_of_here.
  apply IH. intros q' Hq'. apply H. by apply list_elem_of_further.
Qed.

(** Creating the parent directory of something that already exists in a
    well-formed tree changes nothing. *)
Lemma mkdir_parents_of_existing t p :
  wf t = true → is_Some (node_at t p) → mkdir_parents t (parent p) = Some t.
Proof.
  intros Hwf Hp. unfold mkdir_parents.
  assert (Hdirs : ∀ q, q ∈ prefixes (parent p) → is_dir t q = true).
  { intros q Hq. destruct p as [|a p]; [by cbn in Hq; apply elem_of_nil in Hq|].
    by apply (wf_ancestors t (a :: p)). }
  assert (Hnofile : existsb (is_file t) (prefixes (parent p)) = false).
  { apply not_true_is_false. intros Hex. apply existsb_exists in Hex as (q & Hq & Hf).
    apply list_elem_of_In, Hdirs in Hq. unfold is_dir, is_file in *.
    destruct (node_at t q) as [[]|]; done. }
  rewrite Hnofile. f_equal. apply fold_mkdir_existing.
  intros q Hq. apply Hdirs in Hq. unfold is_dir, exists_ in *.
  by destruct (node_at t q) as [[]|].
Qed.

(** Moving a regular file onto a regular file in a well-formed tree:
    the destination is replaced. *)
Lemma shutil_move_replaces_file t src dst data data' :
  wf t = true →
  node_at t src = Some (File data) → node_at t dst = Some (File data') →
  shutil_move t src dst = Some (<[dst := File data]> (delete src t)).
Proof.
  intros Hwf Hsrc Hdst. unfold shutil_move.
  assert (Hnd : is_dir t dst = false) by (unfold is_dir; by rewrite Hdst).
  rewrite Hnd. cbn. rewrite Hsrc.
  rewrite wf_parent_is_dir; [done|done|]. by rewrite Hdst.
Qed.

End TreeFacts.

(** ** Destinations that already exist *)

Section Overwrite.
Import FS.

(** C3, amended.  Neither move pass looks at the destination.  In a
    well-formed tree, when the source of an entry is a regular file and
    its destination, a different path, is already a regular file (with
    the same or with other content), [apply-image-mapping.py] replaces the
    destination by the source, counts the entry as moved and records no
    error; a live [migrate_files] does the same for a source below
    [PUBLIC_DIR]. *)
Theorem move_pass_replaces_existing_destination :
  (∀ CDN_ASSETS t s old_relative new_relative data data',
     wf t = true →
     node_at t (join CDN_ASSETS old_relative) = Some (File data) →
     node_at t (join CDN_ASSETS new_relative) = Some (File data') →
     join CDN_ASSETS old_relative ≠ join CDN_ASSETS new_relative →
     ApplyImageMapping.move_entry CDN_ASSETS (t, s) (old_relative, new_relative)
     = (<[join CDN_ASSETS new_relative := File data]>
          (delete (join CDN_ASSETS old_relative) t),
        ApplyImageMapping.Summary (S (ApplyImageMapping.moved s))
          (ApplyImageMapping.skipped s) (ApplyImageMapping.errors s)))
  ∧ (∀ PUBLIC_DIR st rel_path e data data',
       wf (MigrateAssets.tree st) = true →
       node_at (MigrateAssets.tree st) (of_string (MigrateAssets.old_path e))
         = Some (File data) →
       node_at (MigrateAssets.tree st)
               (join PUBLIC_DIR (MigrateAssets.new_path e))
         = Some (File data') →
       of_string (MigrateAssets.old_path e)
         ≠ join PUBLIC_DIR (MigrateAssets.new_path e) →
       is_below PUBLIC_DIR (of_string (MigrateAssets.old_path e)) = true →
       is_below PUBLIC_DIR (parent (join PUBLIC_DIR (MigrateAssets.new_path e)))
         = true →
       ∃ st',
         MigrateAssets.migrate_entry PUBLIC_DIR false st (rel_path, e)
           = MigrateAssets.Next st'
         ∧ MigrateAssets.tree st'
           = <[join PUBLIC_DIR (MigrateAssets.new_path e) := File data]>
               (delete (of_string (MigrateAssets.old_path e))
                       (MigrateAssets.tree st))
         ∧ MigrateAssets.errors st' = MigrateAssets.errors st
         ∧ length (MigrateAssets.moved_files st')
           = S (length (MigrateAssets.moved_files st))).
Proof.
  split.
  - intros CDN t s o n data data' Hwf Hsrc Hdst Hne.
    unfold ApplyImageMapping.move_entry. cbn [fst snd].
    assert (Hex : exists_ t (join CDN o) = true)
      by (unfold exists_; by rewrite Hsrc).
    rewrite Hex. cbn. rewrite bool_decide_eq_false_2 by done.
    rewrite mkdir_parents_of_existing; [|done|by rewrite Hdst].
    by rewrite (shutil_move_replaces_file _ _ _ data data').
  - intros PUBLIC st rel_path e data data' Hwf Hsrc Hdst Hne Hold Hnew.
    unfold MigrateAssets.migrate_entry.
    rewrite bool_decide_eq_false_2 by done.
    assert (Hex : exists_ (MigrateAssets.tree st)
                    (of_string (MigrateAssets.old_path e)) = true)
      by (unfold exists_; by rewrite Hsrc).
    unfold is_below in Hold, Hnew.
    destruct (relative_to PUBLIC (of_string (MigrateAssets.old_path e)))
      as [rel|] eqn:Hrel; [|done].
    destruct (relative_to PUBLIC
                (parent (join PUBLIC (MigrateAssets.new_path e))))
      as [rel'|] eqn:Hrel'; [|done].
    case_bool_decide; cbn.
    + rewrite Hex.
      rewrite mkdir_parents_of_existing; [|done|by rewrite Hdst].
      rewrite (shutil_move_replaces_file _ _ _ data data') by done.
      eexists. split; [done|]. cbn.
      repeat split. rewrite length_app. cbn. lia.
    + rewrite mkdir_parents_of_existing; [|done|by rewrite Hdst]. cbn.
      rewrite Hex.
      rewrite mkdir_parents_of_existing; [|done|by rewrite Hdst].
      rewrite (shutil_move_replaces_file _ _ _ data data') by done.
      eexists. split; [done|]. cbn.
      repeat split. rewrite length_app. cbn. lia.
Qed.

End Overwrite.

(** C3, counterexample.  The destination [images/b.png] exists with other
    content; [apply-image-mapping.py] overwrites it with the source,
    reports one move and no error. *)
Lemma apply_image_mapping_overwrites_conflict :
  (ApplyImageMapping.main ApplierInputs.cdn_assets
     [("a.png", "images/b.png")] ApplierInputs.conflict_tree).1
    !! ["repo"; "public"; "cdn-assets"; "images"; "b.png"]
    = Some (FS.File "A")
  ∧ (ApplyImageMapping.main ApplierInputs.cdn_assets
       [("a.png", "images/b.png")] ApplierInputs.conflict_tree).2
    = Some (ApplyImageMapping.Summary 1 0 []).
Proof. split; vm_compute; reflexivity. Qed.

(** The amended statement at the tree of the counterexample, for both
    scripts. *)
Lemma move_pass_replaces_existing_destination_witness :
  ApplyImageMapping.move_entry ApplierInputs.cdn_assets
    (ApplierInputs.conflict_tree, ApplyImageMapping.Summary 0 0 [])
    ("a.png", "images/b.png")
  = (<[FS.join ApplierInputs.cdn_assets "images/b.png" := FS.File "A"]>
       (delete (FS.join ApplierInputs.cdn_assets "a.png")
               ApplierInputs.conflict_tree),
     ApplyImageMapping.Summary 1 0 [])
  ∧ ∃ st',
      MigrateAssets.migrate_entry ApplierInputs.public_dir false
        ApplierInputs.conflict_state
        ("cdn-assets/a.png", ApplierInputs.conflict_entry)
      = MigrateAssets.Next st'
      ∧ MigrateAssets.tree st'
        = <[FS.join ApplierInputs.public_dir
              (MigrateAssets.new_path ApplierInputs.conflict_entry)
            := FS.File "A"]>
            (delete (FS.of_string
                       (MigrateAssets.old_path ApplierInputs.conflict_entry))
                    (MigrateAssets.tree ApplierInputs.conflict_state))
      ∧ MigrateAssets.errors st'
        = MigrateAssets.errors ApplierInputs.conflict_state
      ∧ length (MigrateAssets.moved_files st')
        = S (length (MigrateAssets.moved_files ApplierInputs.conflict_state)).
Proof.
  split.
  - apply (proj1 move_pass_replaces_existing_destination
             ApplierInputs.cdn_assets ApplierInputs.conflict_tree
             (ApplyImageMapping.Summary 0 0 []) "a.png" "images/b.png" "A" "B").
    + vm_compute; reflexivity.
    + vm_compute; reflexivity.
    + vm_compute; reflexivity.
    + vm_compute. discriminate.
  - apply (proj2 move_pass_replaces_existing_destination
             ApplierInputs.public_dir ApplierInputs.conflict_state
             "cdn-assets/a.png" ApplierInputs.conflict_entry "A" "B").
    + vm_compute; reflexivity.
    + vm_compute; reflexivity.
    + vm_compute; reflexivity.
    + vm_compute. discriminate.
    + vm_compute; reflexivity.
    + vm_compute; reflexivity.
Defined.

(** ** The clean-up of empty directories *)

Section Cleanup.
Import FS MigrateAssets.
Variable PUBLIC_DIR : path.
Implicit Types (t : gmap path node) (p q d : path).

Lemma has_entries_false t d :
  has_entries t d = false ↔ ∀ q, is_Some (t !! q) → q ≠ [] → parent q ≠ d.
Proof.
  unfold has_entries. split.
  - intros Hno q [x Hx] Hq Hpar.
    apply not_true_iff_false in Hno. apply Hno.
    apply existsb_exists. exists q. split.
    + apply list_elem_of_In, list_elem_of_fmap. exists (q, x).
      split; [done|]. by apply elem_of_map_to_list.
    + by apply bool_decide_eq_true_2.
  - intros H. apply not_true_is_false. intros Hex.
    apply existsb_exists in Hex as (q & Hq & Hb).
    apply bool_decide_eq_true_1 in Hb as [Hne Hpar].
    apply list_elem_of_In, list_elem_of_fmap in Hq as ([q' x] & -> & Hin).
    apply elem_of_map_to_list in Hin. by apply (H q').
Qed.

Lemma cleanup_dir_cases t p :
  cleanup_dir PUBLIC_DIR t p = t ∨ cleanup_dir PUBLIC_DIR t p = delete p t.
Proof.
  unfold cleanup_dir, rmdir. repeat case_match; auto.
Qed.

Lemma cleanup_dir_removes t d :
  empty_dir t d → d ≠ [] → d ≠ PUBLIC_DIR →
  cleanup_dir PUBLIC_DIR t d = delete d t.
Proof.
  intros [Hd Hempty] Hroot Hpub. unfold cleanup_dir, rmdir.
  assert (Hdir : is_dir t d = true).
  { unfold is_dir. rewrite node_at_lookup by done. by rewrite Hd. }
  rewrite Hdir, Hempty. cbn.
  by rewrite !bool_decide_eq_true_2.
Qed.

Lemma empty_dir_delete t d p :
  empty_dir t d → p ≠ d → empty_dir (delete p t) d.
Proof.
  intros [Hd Hempty] Hne. split.
  - by rewrite lookup_delete_ne.
  - apply has_entries_false. intros q Hq. rewrite has_entries_false in Hempty.
    apply Hempty. destruct Hq as [x Hx].
    apply lookup_delete_Some in Hx as [_ Hx]. by exists x.
Qed.

Lemma cleanup_keeps_absent l t d :
  t !! d = None → fold_left (cleanup_dir PUBLIC_DIR) l t !! d = None.
Proof.
  revert t. induction l as [|p l IH]; intros t Hd; cbn; [done|].
  apply IH. destruct (cleanup_dir_cases t p) as [-> | ->]; [done|].
  rewrite lookup_delete_None. by right.
Qed.

(** Whatever the order of the visit, a directory that is empty when the
    clean-up starts and is visited is gone when it ends. *)
Lemma cleanup_loop_removes l t d :
  empty_dir t d → d ≠ [] → d ≠ PUBLIC_DIR → d ∈ l →
  fold_left (cleanup_dir PUBLIC_DIR) l t !! d = None.
Proof.
  revert t. induction l as [|p l IH]; intros t Hd Hroot Hpub Hin; cbn.
  { by apply elem_of_nil in Hin. }
  destruct (decide (p = d)) as [->|Hne].
  - apply cleanup_keeps_absent. rewrite cleanup_dir_removes by done.
    apply lookup_delete_eq.
  - apply elem_of_cons in Hin as [->|Hin]; [done|].
    apply IH; [|done|done|done].
    destruct (cleanup_dir_cases t p) as [-> | ->]; [done|].
    by apply empty_dir_delete.
Qed.

Lemma elem_of_rglob t d :
  is_Some (t !! d) → is_below PUBLIC_DIR d = true → d ≠ PUBLIC_DIR →
  d ∈ rglob_sorted_reverse t PUBLIC_DIR.
Proof.
  intros [x Hx] Hbelow Hne. unfold rglob_sorted_reverse.
  rewrite merge_sort_Permutation.
  apply list_elem_of_In, filter_In. split.
  - apply list_elem_of_In, list_elem_of_fmap. exists (d, x).
    split; [done|]. by apply elem_of_map_to_list.
  - rewrite Hbelow. cbn. by apply bool_decide_eq_true_2.
Qed.

(** The clean-up removes every empty directory below [PUBLIC_DIR]. *)
Lemma cleanup_removes_empty_dirs t d :
  empty_dir t d → is_below PUBLIC_DIR d = true → d ≠ PUBLIC_DIR →
  cleanup PUBLIC_DIR t !! d = None.
Proof.
  intros Hd Hbelow Hne. unfold cleanup.
  assert (Hroot : d ≠ []).
  { intros ->. destruct PUBLIC_DIR; [done|]. by cbn in Hbelow. }
  apply cleanup_loop_removes; [done..|].
  apply elem_of_rglob; [|done..]. destruct Hd as [Hd _]. by exists Dir.
Qed.

(** C10.  When the move pass of a live [migrate_files] has run to its
    end, every directory below [PUBLIC_DIR], other than [PUBLIC_DIR]
    itself, that is empty at that point is removed, whether or not a
    mapping entry has anything to do with it. *)
Theorem live_run_removes_every_empty_directory m t st d :
  migrate_loop PUBLIC_DIR false m (State t [] [] []) = Next st →
  tree st !! d = Some Dir → has_entries (tree st) d = false →
  is_below PUBLIC_DIR d = true → d ≠ PUBLIC_DIR →
  (migrate_files PUBLIC_DIR false m t).1 !! d = None.
Proof.
  intros Hloop Hd Hempty Hbelow Hne. unfold migrate_files. rewrite Hloop. cbn.
  by apply cleanup_removes_empty_dirs.
Qed.

End Cleanup.

(** C10 at a tree with an empty directory that was there before the run
    and that the mapping does not mention. *)
Lemma live_run_removes_every_empty_directory_witness :
  (MigrateAssets.migrate_files ApplierInputs.public_dir false
     CleanupInputs.one_entry_map CleanupInputs.tree_with_empty_dir).1
    !! ["repo"; "public"; "old-empty"] = None.
Proof.
  apply (live_run_removes_every_empty_directory ApplierInputs.public_dir
           CleanupInputs.one_entry_map CleanupInputs.tree_with_empty_dir
           CleanupInputs.state_after_moves).
  - vm_compute; reflexivity.
  - vm_compute; reflexivity.
  - vm_compute; reflexivity.
  - vm_compute; reflexivity.
  - vm_compute. discriminate.
Defined.

(** ** The reverse map of update-asset-references.py *)

Section ReverseMap.
Import UpdateAssetReferences.
Implicit Types (rm : gmap string string) (kv : string * entry).

Lemma lookup_insert_all rm (ks : list string) (v : string) key :
  fold_left (λ m k, <[k := v]> m) ks rm !! key =
    if bool_decide (key ∈ ks) then Some v else rm !! key.
Proof.
  revert rm. induction ks as [|k ks IH]; intros rm; cbn.
  { rewrite bool_decide_eq_false_2; [done|]. apply not_elem_of_nil. }
  rewrite IH. destruct (decide (key ∈ ks)) as [Hin|Hnin].
  - rewrite !bool_decide_eq_true_2; [done| |done]. by right.
  - rewrite (bool_decide_eq_false_2 (key ∈ ks)) by done.
    destruct (decide (k = key)) as [->|Hne].
    + rewrite lookup_insert_eq, bool_decide_eq_true_2; [done|]. by left.
    + rewrite lookup_insert_ne by done.
      rewrite bool_decide_eq_false_2; [done|].
      intros [->|?]%elem_of_cons; done.
Qed.

Lemma bind_entry_lookup rm kv key :
  bind_entry rm kv !! key =
    if bool_decide (key ∈ bound_keys kv) then Some (target kv.2) else rm !! key.
Proof.
  destruct kv as [rel_path e]. unfold bind_entry, bound_keys. cbn [fst snd].
  fold (target e).
  destruct (Str.startswith "cdn-assets/" rel_path); cbn [app].
  - change (<["/" +:+ rel_path := _]> _)
      with (fold_left (λ m k, <[k := target e]> m)
              [old_name e; PurePath.stem (old_name e); rel_path; rel_path;
               "/" +:+ rel_path] rm).
    rewrite lookup_insert_all.
    destruct (decide (key ∈ [old_name e; PurePath.stem (old_name e); rel_path;
                             "/" +:+ rel_path])) as [Hin|Hnin].
    + rewrite !bool_decide_eq_true_2; [done|done|].
      revert Hin. rewrite !elem_of_cons. tauto.
    + rewrite !bool_decide_eq_false_2; [done|done|].
      revert Hnin. rewrite !elem_of_cons. tauto.
  - change (<["/cdn-assets/" +:+ rel_path := _]> _)
      with (fold_left (λ m k, <[k := target e]> m)
              [old_name e; PurePath.stem (old_name e); rel_path;
               "/" +:+ rel_path; "/cdn-assets/" +:+ rel_path] rm).
    by rewrite lookup_insert_all.
Qed.

Lemma create_reverse_map_from rm l key :
  (∀ kv, kv ∈ l → key ∉ bound_keys kv) →
  fold_left bind_entry l rm !! key = rm !! key.
Proof.
  revert rm. induction l as [|kv l IH]; intros rm H; cbn; [done|].
  rewrite IH by (intros kv' Hin; apply H; by right).
  rewrite bind_entry_lookup, bool_decide_eq_false_2; [done|].
  apply H. by left.
Qed.

(** Each key is bound to the target of the last entry that binds it. *)
Lemma create_reverse_map_last_binder pre kv post key :
  key ∈ bound_keys kv →
  (∀ kv', kv' ∈ post → key ∉ bound_keys kv') →
  create_reverse_map (pre ++ kv :: post) !! key = Some (target kv.2).
Proof.
  intros Hin Hpost. unfold create_reverse_map.
  rewrite fold_left_app. cbn.
  rewrite create_reverse_map_from by done.
  by rewrite bind_entry_lookup, bool_decide_eq_true_2.
Qed.

End ReverseMap.

(** ** The look-ups of update-asset-references.py *)

Section AssetLookups.
Import UpdateAssetReferences Spec.
Implicit Types (rm : gmap string string).

(** What the pattern of [update_file_references] matches: [/cdn-assets/]
    and at least one path character; the group is the whole match. *)
Lemma asset_match s m :
  Re.match_here pattern s = Some m →
  ∃ c w, Re.group0 m = "/cdn-assets/" +:+ String c w
         ∧ Re.group1 m = Some (Re.group0 m)
         ∧ path_char c = true ∧ Str.all path_char w = true
         ∧ s = Re.group0 m +:+ Re.after m.
Proof.
  intros H. apply match_here_sound in H as [Hs Hm].
  unfold pattern in Hm.
  inversion Hm as [| | | | | |r cap w cap' Hm' E1 E2 E3]; subst.
  inversion Hm' as [| |? ? ? w1 cap1 w2 cap2 H1 H2| | | |]; subst.
  apply (matches_Lit "/cdn-assets/") in H1 as [-> ->].
  apply (matches_Plus path_char) in H2 as (c & w' & -> & Hc & Hw & _).
  exists c, w'. repeat split; done.
Qed.

Lemma asset_match_replace rm s m :
  Re.match_here pattern s = Some m →
  replace_asset_path rm m
    = default (Re.group0 m) (resolve rm (Re.group0 m)).
Proof.
  intros H. destruct (asset_match s m H) as (c & w & Hg & Hg1 & _).
  assert (Hne : Re.group0 m ≠ EmptyString) by (by rewrite Hg).
  unfold replace_asset_path. rewrite Hg1.
  rewrite (proj2 (String.eqb_neq _ _) Hne).
  rewrite contains_of_startswith by (rewrite Hg; apply startswith_app).
  cbn [negb andb].
  destruct (resolve rm _) as [new|]; [|done]. cbn.
  by apply replace_self.
Qed.

(** C9, amended.  Two entries of the migration map have the same
    [old_name], and no entry after the second one binds that name (as its
    own name, its stem or its path).  Then [create_reverse_map] binds the
    name to the target of the second entry, and the filename-only
    fallback, which is reached only when the matched path is not itself a
    key, rewrites a match with that file name to that target.  A matched
    path that is a key is rewritten to what the key is bound to: the
    exact path of the first asset, unless a later entry binds it too, goes
    to the first entry's own target. *)
Theorem filename_fallback_goes_to_last_binder pre k1 e1 mid k2 e2 post :
  let reverse_map := create_reverse_map (pre ++ (k1, e1) :: mid ++ (k2, e2) :: post) in
  old_name e1 = old_name e2 →
  (∀ kv, kv ∈ post → old_name e2 ∉ bound_keys kv) →
  reverse_map !! old_name e2 = Some (target e2)
  ∧ (∀ s m, Re.match_here pattern s = Some m →
       reverse_map !! Re.group0 m = None →
       PurePath.name (Re.group0 m) = old_name e2 →
       replace_asset_path reverse_map m = target e2)
  ∧ (∀ s m new_path, Re.match_here pattern s = Some m →
       reverse_map !! Re.group0 m = Some new_path →
       replace_asset_path reverse_map m = new_path)
  ∧ ((∀ kv, kv ∈ mid ++ (k2, e2) :: post → "/" +:+ k1 ∉ bound_keys kv) →
       reverse_map !! ("/" +:+ k1) = Some (target e1)).
Proof.
  intros reverse_map Hname Hpost.
  assert (Hbound : reverse_map !! old_name e2 = Some (target e2)).
  { unfold reverse_map.
    replace (pre ++ (k1, e1) :: mid ++ (k2, e2) :: post)
      with ((pre ++ (k1, e1) :: mid) ++ (k2, e2) :: post)
      by (by rewrite <- app_assoc).
    apply (create_reverse_map_last_binder _ (k2, e2)); [|done].
    unfold bound_keys. cbn. by left. }
  split; [done|]. split; [|split].
  - intros s m Hm Hexact Hfile. rewrite (asset_match_replace _ s) by done.
    unfold resolve. by rewrite Hexact, Hfile, Hbound.
  - intros s m new Hm Hexact. rewrite (asset_match_replace _ s) by done.
    unfold resolve. by rewrite Hexact.
  - intros Hlater. unfold reverse_map.
    apply (create_reverse_map_last_binder _ (k1, e1)); [|done].
    unfold bound_keys. cbn. set_solver.
Qed.

End AssetLookups.

(** C9, counterexample.  Both entries of [two_logos] are named
    [logo.png] and the name is bound to the second entry; yet a reference
    to the first asset by its path is an exact key and is rewritten to the
    first entry's target, not to the second's. *)
Lemma exact_reference_to_first_asset_keeps_its_target :
  UpdateAssetReferences.create_reverse_map ReverseMapInputs.two_logos
    !! "logo.png"
    = Some "/cdn-assets/cdn-assets/images/logos/logo-1.png"
  ∧ UpdateAssetReferences.rewrite
      (UpdateAssetReferences.create_reverse_map ReverseMapInputs.two_logos)
      "<img src=/cdn-assets/a/logo.png>"
    = "<img src=/cdn-assets/cdn-assets/images/logos/logo.png>".
Proof. split; vm_compute; reflexivity. Qed.

(** The amended statement at [two_logos]. *)
Lemma filename_fallback_goes_to_last_binder_witness :
  UpdateAssetReferences.create_reverse_map ReverseMapInputs.two_logos
    !! "logo.png"
  = Some "/cdn-assets/cdn-assets/images/logos/logo-1.png".
Proof.
  apply (filename_fallback_goes_to_last_binder []
           "cdn-assets/a/logo.png"
           (UpdateAssetReferences.Entry "logo.png"
              "cdn-assets/images/logos/logo.png")
           []
           "cdn-assets/b/logo.png"
           (UpdateAssetReferences.Entry "logo.png"
              "cdn-assets/images/logos/logo-1.png")
           []).
  - reflexivity.
  - intros kv Hkv. by apply elem_of_nil in Hkv.
Defined.

(** ** Substitution as a sequence of replacements *)

Section SubEdits.
Import Re Spec.
Implicit Types (r : regex) (s t : string).

Lemma edits_refl step s : edits step s s.
Proof. induction s; by constructor. Qed.

Lemma edits_app step a a' b b' :
  edits step a a' → edits step b b' → edits step (a +:+ b) (a' +:+ b').
Proof.
  induction 1 as [|c s t _ IH|x y s t Hxy _ IH]; intros Hb.
  - done.
  - rewrite !app_cons. constructor. by apply IH.
  - rewrite !app_assoc_str. constructor; [done|]. by apply IH.
Qed.

Lemma edits_impl (step step' : string → string → Prop) s t :
  (∀ x y, step x y → step' x y) → edits step s t → edits step' s t.
Proof. intros Himpl. induction 1; constructor; auto. Qed.

Lemma edits_one step x y : step x y → edits step x y.
Proof.
  intros H. rewrite <- (app_empty_r x), <- (app_empty_r y).
  constructor; [done|constructor].
Qed.

Lemma sub_go_skip r repl x rest :
  sub_go r repl (String.length x) (x +:+ rest) = sub_go r repl O rest.
Proof.
  induction x as [|c x IH]; [|by rewrite app_cons].
  rewrite app_nil. cbn [String.length]. by destruct rest.
Qed.


(** When the replacement of every match is an edit of the matched text,
    substitution is an edit of the whole text. *)
Lemma sub_edits step r repl :
  (∀ s m, match_here r s = Some m →
          group0 m ≠ EmptyString ∧ edits step (group0 m) (repl m)) →
  ∀ s, edits step s (sub r repl s).
Proof.
  intros Hrepl s. unfold sub.
  remember (String.length s) as n eqn:Hn.
  assert (Hle : (String.length s ≤ n)%nat) by lia. clear Hn.
  revert s Hle. induction n as [|n IH]; intros s Hle.
  - destruct s; [|cbn in Hle; lia]. cbn.
    destruct (match_here r EmptyString) as [m|] eqn:Hm; [|constructor].
    destruct (Hrepl _ _ Hm) as [Hne _].
    apply match_here_sound in Hm as [Hs _].
    destruct (group0 m); [done|by rewrite app_cons in Hs].
  - destruct s as [|c s]; cbn.
    + destruct (match_here r EmptyString) as [m|] eqn:Hm; [|constructor].
      destruct (Hrepl _ _ Hm) as [Hne _].
      apply match_here_sound in Hm as [Hs _].
      destruct (group0 m); [done|by rewrite app_cons in Hs].
    + cbn in Hle.
      destruct (match_here r (String c s)) as [m|] eqn:Hm.
      * destruct (Hrepl _ _ Hm) as [Hne Hed].
        apply match_here_sound in Hm as [Hs _].
        destruct (group0 m) as [|c' w] eqn:Hg; [done|].
        rewrite app_cons in Hs. injection Hs as -> ->. cbn [String.length].
        rewrite sub_go_skip. rewrite <- app_cons.
        apply edits_app; [done|]. apply IH.
        rewrite length_app_str in Hle. lia.
      * constructor. apply IH. lia.
Qed.

End SubEdits.

(** ** What the patterns of the rewriting scripts match *)

Section PatternFacts.
Import Re Spec Steps.
Implicit Types (s t w g : string) (cap : option string).

Lemma matches_Seq_inv r1 r2 cap w cap' :
  matches (Seq r1 r2) cap w cap' →
  ∃ w1 cap1 w2, w = w1 +:+ w2 ∧ matches r1 cap w1 cap1 ∧ matches r2 cap1 w2 cap'.
Proof. inversion 1; subst; eauto 10. Qed.

Lemma matches_Cls_inv p cap w cap' :
  matches (Cls p) cap w cap' →
  ∃ c, w = String c EmptyString ∧ p c = true ∧ cap' = cap.
Proof. inversion 1; subst; eauto. Qed.

Lemma matches_Opt_inv r cap w cap' :
  matches (Opt r) cap w cap' →
  matches r cap w cap' ∨ (w = EmptyString ∧ cap' = cap).
Proof.
  unfold Opt. inversion 1 as [| | |? ? ? ? ? H1|? ? ? ? ? H1| |]; subst;
    [by left|]. inversion H1; subst. by right.
Qed.

Lemma matches_Grp_inv r cap w cap' :
  matches (Grp r) cap w cap' → cap' = Some w ∧ ∃ cap0, matches r cap w cap0.
Proof. inversion 1; subst; eauto. Qed.

Lemma matches_Star_inv p cap w cap' :
  matches (Star p) cap w cap' → Str.all p w = true ∧ cap' = cap.
Proof. by inversion 1; subst. Qed.

Lemma all_app p s t : Str.all p (s +:+ t) = Str.all p s && Str.all p t.
Proof.
  induction s as [|c s IH]; [done|]. rewrite app_cons. cbn.
  by rewrite IH, andb_assoc.
Qed.

Lemma all_impl (p q : ascii → bool) s :
  (∀ c, p c = true → q c = true) → Str.all p s = true → Str.all q s = true.
Proof.
  intros Hpq. induction s as [|c s IH]; cbn; [done|].
  rewrite !andb_true_iff. intros [Hc Hs]. auto.
Qed.

Lemma eq_nocase_length a b :
  eq_nocase a b = true → String.length a = String.length b.
Proof.
  revert b. induction a as [|x a IH]; intros [|y b]; cbn; try done.
  rewrite andb_true_iff. intros [_ H]. f_equal. by apply IH.
Qed.

(** Letter case does not turn a character into a slash or a quote. *)
Lemma lower_slash x : Char.lower x = "/"%char → x = "/"%char.
Proof. destruct x as [[] [] [] [] [] [] [] []]; vm_compute; congruence. Qed.

Lemma lower_quote x : Char.is_quote (Char.lower x) = true → Char.is_quote x = true.
Proof. destruct x as [[] [] [] [] [] [] [] []]; vm_compute; congruence. Qed.

Lemma lower_of_quote y : Char.is_quote y = true → Char.lower y = y.
Proof. destruct y as [[] [] [] [] [] [] [] []]; vm_compute; congruence. Qed.

Lemma eqb_nocase_slash y : Char.eqb_nocase "/" y = true → y = "/"%char.
Proof.
  unfold Char.eqb_nocase. intros H%Ascii.eqb_eq. symmetry in H.
  by apply lower_slash.
Qed.

Lemma eqb_nocase_not_slash x y :
  Char.eqb_nocase x y = true → Ascii.eqb x "/" = false → Ascii.eqb y "/" = false.
Proof.
  unfold Char.eqb_nocase. intros H%Ascii.eqb_eq Hx.
  apply Ascii.eqb_neq. intros ->. apply Ascii.eqb_neq in Hx. apply Hx.
  by apply lower_slash.
Qed.

Lemma eqb_nocase_not_quote x y :
  Char.eqb_nocase x y = true → Char.is_quote x = false → Char.is_quote y = false.
Proof.
  unfold Char.eqb_nocase. intros H%Ascii.eqb_eq Hx.
  apply not_true_is_false. intros Hy.
  pose proof (lower_of_quote y Hy) as Hl. rewrite Hl in H.
  assert (Char.is_quote x = true); [|congruence].
  apply lower_quote. by rewrite H.
Qed.

Lemma eq_nocase_no_slash a b :
  eq_nocase a b = true → no_slash a = true → no_slash b = true.
Proof.
  revert b. induction a as [|x a IH]; intros [|y b]; cbn; try done.
  rewrite !andb_true_iff. intros [Hxy Hab] [Hx Ha]. split; [|by apply IH].
  apply negb_true_iff. apply negb_true_iff in Hx.
  by apply (eqb_nocase_not_slash x y).
Qed.

Lemma eq_nocase_not_quote a b :
  eq_nocase a b = true →
  Str.all UpdateImageReferences.not_quote a = true →
  Str.all UpdateImageReferences.not_quote b = true.
Proof.
  revert b. induction a as [|x a IH]; intros [|y b]; cbn; try done.
  rewrite !andb_true_iff. intros [Hxy Hab] [Hx Ha]. split; [|by apply IH].
  unfold UpdateImageReferences.not_quote in *.
  apply negb_true_iff. apply negb_true_iff in Hx.
  by apply (eqb_nocase_not_quote x y).
Qed.

Lemma matches_cdn_group cap w cap' :
  matches UpdateImageReferences.cdn_group cap w cap' →
  cap' = Some w ∧ cdn_text w.
Proof.
  unfold UpdateImageReferences.cdn_group.
  intros (-> & cap0 & H)%matches_Grp_inv. split; [done|].
  apply matches_Seq_inv in H as (w1 & cap1 & w2 & -> & H1 & H2).
  apply (matches_LitI "/cdn-assets/") in H1 as [H1 _].
  apply (matches_Plus UpdateImageReferences.not_quote) in H2
    as (c & w' & -> & Hc & Hw & _).
  pose proof (eq_nocase_length _ _ H1) as Hlen. cbn in Hlen.
  destruct w1 as [|y w1]; [done|].
  assert (y = "/"%char) as ->.
  { cbn in H1. apply andb_true_iff in H1 as [H1 _]. by apply eqb_nocase_slash. }
  exists (w1 +:+ String c w'). repeat split.
  - rewrite length_app_str. cbn in *. lia.
  - unfold starts_cdn.
    replace 12%nat with (String.length (String "/" w1)) by (cbn in *; lia).
    by rewrite take_app_length_str.
  - rewrite all_app. apply andb_true_iff. split.
    + by apply (eq_nocase_not_quote "/cdn-assets/").
    + cbn. by rewrite Hc, Hw.
Qed.

End PatternFacts.

Section ImagePatterns.
Import Re Spec Steps UpdateImageReferences.
Implicit Types (s t w g : string) (cap : option string)
  (pm : gmap string string).

Lemma quote_no_slash q : Char.is_quote q = true → negb (Ascii.eqb q "/") = true.
Proof. destruct q as [[] [] [] [] [] [] [] []]; vm_compute; congruence. Qed.

Lemma space_no_slash c : Char.is_space c = true → negb (Ascii.eqb c "/") = true.
Proof. destruct c as [[] [] [] [] [] [] [] []]; vm_compute; congruence. Qed.

Lemma matches_attr_pattern attr cap w cap' :
  no_slash attr = true →
  matches (attr_pattern attr) cap w cap' → image_match_shape w cap'.
Proof.
  intros Hattr. unfold attr_pattern. intros H.
  apply matches_Seq_inv in H as (wa & c1 & w1 & -> & Ha & H).
  apply matches_LitI in Ha as [Ha ->].
  apply matches_Seq_inv in H as (wq & c2 & w2 & -> & Hq & H).
  apply matches_Cls_inv in Hq as (q1 & -> & Hq1 & ->).
  apply matches_Seq_inv in H as (g & c3 & w3 & -> & Hg & H).
  apply matches_cdn_group in Hg as [-> Hg].
  apply matches_Cls_inv in H as (q2 & -> & Hq2 & ->).
  exists (wa +:+ String q1 EmptyString), g, (String q2 EmptyString).
  rewrite !app_assoc_str. repeat split; try done; [|cbn; lia].
  unfold no_slash. rewrite all_app. apply andb_true_iff. split.
  - by apply (eq_nocase_no_slash attr).
  - cbn. by rewrite quote_no_slash.
Qed.

Lemma matches_opt_quote cap w cap' :
  matches (Opt (Cls Char.is_quote)) cap w cap' →
  cap' = cap ∧ no_slash w = true ∧ (String.length w ≤ 1)%nat.
Proof.
  intros [H|[-> ->]]%matches_Opt_inv; [|by repeat split; cbn; lia].
  apply matches_Cls_inv in H as (q & -> & Hq & ->).
  repeat split; [|cbn; lia]. cbn. by rewrite quote_no_slash.
Qed.

Lemma matches_url_pattern cap w cap' :
  matches url_pattern cap w cap' → image_match_shape w cap'.
Proof.
  unfold url_pattern. intros H.
  apply matches_Seq_inv in H as (wa & c1 & w1 & -> & Ha & H).
  apply (matches_LitI "url(") in Ha as [Ha ->].
  apply matches_Seq_inv in H as (wq & c2 & w2 & -> & Hq & H).
  apply matches_opt_quote in Hq as (-> & Hq & _).
  apply matches_Seq_inv in H as (g & c3 & w3 & -> & Hg & H).
  apply matches_cdn_group in Hg as [-> Hg].
  apply matches_Seq_inv in H as (wq2 & c4 & w4 & -> & Hq2 & H).
  apply matches_opt_quote in Hq2 as (-> & _ & Hlen).
  apply matches_Cls_inv in H as (c & -> & _ & ->).
  exists (wa +:+ wq), g, (wq2 +:+ String c EmptyString).
  rewrite !app_assoc_str. repeat split; try done.
  - unfold no_slash. rewrite all_app. apply andb_true_iff. split; [|done].
    by apply (eq_nocase_no_slash "url(").
  - rewrite length_app_str. cbn. lia.
Qed.

Lemma matches_background_pattern cap w cap' :
  matches background_pattern cap w cap' → image_match_shape w cap'.
Proof.
  unfold background_pattern. intros H.
  apply matches_Seq_inv in H as (wb & c1 & w1 & -> & Hb & H).
  apply (matches_LitI "background-image:") in Hb as [Hb ->].
  apply matches_Seq_inv in H as (ws & c2 & w2 & -> & Hs & H).
  apply matches_Star_inv in Hs as [Hs ->].
  apply matches_url_pattern in H as (pre & g & post & -> & -> & Hpre & Hpost & Hg).
  exists (wb +:+ ws +:+ pre), g, post.
  rewrite !app_assoc_str. repeat split; try done.
  unfold no_slash. rewrite !all_app, !andb_true_iff. repeat split; [| |done].
  - by apply (eq_nocase_no_slash "background-image:").
  - revert Hs. apply all_impl. apply space_no_slash.
Qed.

(** Every pattern of [IMAGE_REF_PATTERNS] has that shape. *)
Lemma image_patterns_shape :
  Forall (λ pat : regex * string,
            ∀ cap w cap', matches pat.1 cap w cap' → image_match_shape w cap')
         IMAGE_REF_PATTERNS.
Proof.
  unfold IMAGE_REF_PATTERNS.
  repeat first [apply List.Forall_cons | apply List.Forall_nil];
    cbn [fst]; intros cap w cap'.
  - by apply matches_attr_pattern.
  - by apply matches_attr_pattern.
  - apply matches_url_pattern.
  - apply matches_background_pattern.
  - by apply matches_attr_pattern.
  - by apply matches_attr_pattern.
Qed.

End ImagePatterns.

(** ** Replacing the captured path inside a match *)

Section ReplaceFacts.
Implicit Types (s t old new pre post : string).





End ReplaceFacts.

Section RewriteEdits.
Import Re Spec Steps.
Implicit Types (pm rm : gmap string string).




Lemma matches_srcset_pattern cap w cap' :
  matches UpdateImageReferences.srcset_pattern cap w cap' →
  ∃ attr q1 value q2,
    w = attr +:+ String q1 value +:+ String q2 EmptyString
    ∧ cap' = Some value
    ∧ eq_nocase "srcset=" attr = true
    ∧ Char.is_quote q1 = true ∧ Char.is_quote q2 = true
    ∧ Str.all UpdateImageReferences.not_quote value = true.
Proof.
  unfold UpdateImageReferences.srcset_pattern. intros H.
  apply matches_Seq_inv in H as (wa & c1 & w1 & -> & Ha & H).
  apply (matches_LitI "srcset=") in Ha as [Ha ->].
  apply matches_Seq_inv in H as (wq & c2 & w2 & -> & Hq & H).
  apply matches_Cls_inv in Hq as (q1 & -> & Hq1 & ->).
  apply matches_Seq_inv in H as (v & c3 & w3 & -> & Hv & H).
  apply matches_Grp_inv in Hv as (-> & cap0 & Hv).
  apply (matches_Plus UpdateImageReferences.not_quote) in Hv
    as (c & v' & -> & Hc & Hv & _).
  apply matches_Cls_inv in H as (q2 & -> & Hq2 & ->).
  exists wa, q1, (String c v'), q2. repeat split; try done.
  cbn. by rewrite Hc, Hv.
Qed.




Lemma asset_edit rm s m :
  match_here UpdateAssetReferences.pattern s = Some m →
  group0 m ≠ EmptyString
  ∧ edits (asset_step rm) (group0 m)
          (UpdateAssetReferences.replace_asset_path rm m).
Proof.
  intros Hm. rewrite (asset_match_replace rm s m Hm).
  destruct (asset_match s m Hm) as (c & w & Hg & _ & Hc & Hw & _).
  split; [by rewrite Hg|].
  destruct (UpdateAssetReferences.resolve rm (group0 m)) as [new|] eqn:Hres;
    [|apply edits_refl].
  apply edits_one. split; [rewrite Hg; apply startswith_app|]. split; [|done].
  rewrite Hg, all_app. cbn [Str.all]. by rewrite Hc, Hw.
Qed.

Lemma asset_rewrite_edits rm content :
  edits (asset_step rm) content (UpdateAssetReferences.rewrite rm content).
Proof.
  unfold UpdateAssetReferences.rewrite. apply sub_edits. apply asset_edit.
Qed.


End RewriteEdits.

(** ** Reading and writing the text of a file *)

Section TextFiles.
Import TextFile.











End TextFiles.

(** ** What the rewrite pass changes *)



(** ** Literals that do not mention [/cdn-assets/] *)

Section Literals.
Import Spec Steps.
Implicit Types (s t x y pre post lit rest : string).


Lemma take_app_le n x u :
  (n ≤ String.length x)%nat → Str.take n (x +:+ u) = Str.take n x.
Proof.
  revert n. induction x as [|c x IH]; intros n Hn.
  - cbn in Hn. assert (n = 0%nat) as -> by lia. by destruct u.
  - destruct n as [|n]; [done|]. rewrite app_cons. cbn.
    rewrite IH; [done|]. cbn in Hn. lia.
Qed.

Lemma length_take_le n x : (String.length (Str.take n x) ≤ String.length x)%nat.
Proof.
  revert n. induction x as [|c x IH]; intros [|n]; cbn; try lia.
  specialize (IH n). lia.
Qed.

Lemma starts_cdn_length x : starts_cdn x = true → (12 ≤ String.length x)%nat.
Proof.
  unfold starts_cdn. intros H%eq_nocase_length.
  pose proof (length_take_le 12 x).
  change (String.length "/cdn-assets/") with 12%nat in H. lia.
Qed.

Lemma starts_cdn_app x u : starts_cdn x = true → starts_cdn (x +:+ u) = true.
Proof.
  intros H. unfold starts_cdn. rewrite take_app_le; [done|].
  by apply starts_cdn_length.
Qed.

Lemma mentions_of_starts s : starts_cdn s = true → mentions_cdn s = true.
Proof. intros H. destruct s; cbn [mentions_cdn]; by rewrite H. Qed.





End Literals.

Section ExternalLinks.
Import Spec Steps.




End ExternalLinks.

(** ** Running the move pass twice *)


Section TreeOperations.
Import FS.
Implicit Types (t : gmap path node) (p q k : path).

Lemma relative_to_spec base p rest :
  relative_to base p = Some rest ↔ p = base ++ rest.
Proof.
  revert p. induction base as [|b base IH]; intros p; cbn.
  - split; congruence.
  - destruct p as [|c p]; [done|].
    destruct (String.eqb_spec b c) as [->|Hne].
    + rewrite IH. split; congruence.
    + split; [done|]. congruence.
Qed.

Lemma is_below_spec base p : is_below base p = true ↔ ∃ rest, p = base ++ rest.
Proof.
  unfold is_below. split.
  - destruct (relative_to base p) as [rest|] eqn:E; [|done].
    intros _. exists rest. by apply relative_to_spec.
  - intros [rest ->]. by rewrite (proj2 (relative_to_spec _ _ rest) eq_refl).
Qed.


Lemma prefixes_nonroot p q : q ∈ prefixes p → q ≠ [].
Proof. by intros [? _]%elem_of_prefixes. Qed.

Lemma fold_mkdir_lookup l t k :
  (∀ q, q ∈ l → q ≠ []) →
  fold_left (λ acc q, if exists_ acc q then acc else <[q := Dir]> acc) l t !! k
  = match t !! k with
    | Some x => Some x
    | None => if bool_decide (k ∈ l) then Some Dir else None
    end.
Proof.
  revert t. induction l as [|q l IH]; intros t Hl; cbn.
  { destruct (t !! k); [done|]. rewrite bool_decide_eq_false_2; [done|].
    apply not_elem_of_nil. }
  assert (Hq : q ≠ []) by (apply Hl; by left).
  rewrite IH by (intros q' ?; apply Hl; by right).
  unfold exists_. rewrite node_at_lookup by done.
  destruct (t !! q) as [x|] eqn:Etq.
  - destruct (t !! k) as [y|] eqn:Etk; [done|].
    destruct (decide (k ∈ l)) as [Hin|Hnin].
    + rewrite !bool_decide_eq_true_2; [done| |done]. by right.
    + rewrite !bool_decide_eq_false_2; [done| |done].
      intros [->|?]%elem_of_cons; [congruence|done].
  - destruct (decide (q = k)) as [->|Hne].
    + rewrite lookup_insert_eq, Etq.
      rewrite bool_decide_eq_true_2; [done|]. by left.
    + rewrite lookup_insert_ne by done.
      destruct (t !! k) as [y|] eqn:Etk; [done|].
      destruct (decide (k ∈ l)) as [Hin|Hnin].
      * rewrite !bool_decide_eq_true_2; [done| |done]. by right.
      * rewrite !bool_decide_eq_false_2; [done| |done].
        intros [->|?]%elem_of_cons; done.
Qed.

(** What [mkdir(parents=True, exist_ok=True)] leaves: what was there,
    and a directory at each component that was missing. *)
Lemma mkdir_parents_lookup t p t' k :
  mkdir_parents t p = Some t' →
  t' !! k = match t !! k with
            | Some x => Some x
            | None => if bool_decide (k ∈ prefixes p) then Some Dir else None
            end.
Proof.
  unfold mkdir_parents. destruct (existsb _ _); [done|].
  intros [= <-]. apply fold_mkdir_lookup. apply prefixes_nonroot.
Qed.



End TreeOperations.

Section SecondRun.
Import FS ApplyImageMapping Repeatable.
Variable CDN_ASSETS : path.
Implicit Types (t : gmap path node) (s : summary) (e : string * string)
  (m todo processed : list (string * string)).












End SecondRun.

(** ** Files in which nothing resolves *)

Section Unresolved.
Import Re Spec Steps.
Implicit Types (s t x u v : string) (pm : gmap string string).

Lemma segment_refl s : segment s s.
Proof. exists EmptyString, EmptyString. by rewrite app_nil, app_empty_r. Qed.

Lemma segment_trans x s t : segment x s → segment s t → segment x t.
Proof.
  intros (u & v & ->) (u' & v' & ->). exists (u' +:+ u), (v +:+ v').
  by rewrite !app_assoc_str.
Qed.

Lemma segment_app_l x u s : segment x s → segment x (u +:+ s).
Proof.
  intros (a & b & ->). exists (u +:+ a), b. by rewrite !app_assoc_str.
Qed.

Lemma segment_app_r x s v : segment x s → segment x (s +:+ v).
Proof.
  intros (a & b & ->). exists a, (b +:+ v). by rewrite !app_assoc_str.
Qed.

Lemma segment_cons x c s : segment x s → segment x (String c s).
Proof. apply (segment_app_l x (String c EmptyString)). Qed.

Lemma segment_all p x s : segment x s → Str.all p s = true → Str.all p x = true.
Proof.
  intros (u & v & ->). rewrite !all_app, !andb_true_iff. tauto.
Qed.

Lemma lstrip_segment p s : segment (Str.lstrip p s) s.
Proof.
  exists (Str.takewhile p s), EmptyString.
  by rewrite app_empty_r, takewhile_lstrip.
Qed.

Lemma rstrip_prefix p s : ∃ v, s = Str.rstrip p s +:+ v.
Proof.
  induction s as [|c s [v IH]]; [by exists EmptyString|].
  cbn [Str.rstrip]. destruct (Str.rstrip p s) as [|d r] eqn:E.
  - destruct (p c).
    + by exists (String c s).
    + exists s. by rewrite app_cons, app_nil.
  - exists v. by rewrite app_cons, <- IH.
Qed.

Lemma rstrip_segment p s : segment (Str.rstrip p s) s.
Proof.
  destruct (rstrip_prefix p s) as [v Hv].
  exists EmptyString, v. by rewrite app_nil.
Qed.

Lemma split_head_prefix sep s h parts :
  Str.split sep s = h :: parts → ∃ v, s = h +:+ v.
Proof.
  revert h parts. induction s as [|c s IH]; cbn; intros h parts.
  - intros [= <- <-]. by exists EmptyString.
  - destruct (Ascii.eqb c sep).
    + intros [= <- <-]. by exists (String c s).
    + destruct (Str.split sep s) as [|h' parts'] eqn:E.
      * intros [= <- <-]. exists s. by rewrite app_cons, app_nil.
      * intros [= <- <-]. destruct (IH _ _ eq_refl) as [v ->].
        by exists v.
Qed.

Lemma strip_segment p s : segment (Str.strip p s) s.
Proof.
  unfold Str.strip. eapply segment_trans; [apply rstrip_segment|].
  apply lstrip_segment.
Qed.

Lemma split_segment sep s part : part ∈ Str.split sep s → segment part s.
Proof.
  revert part. induction s as [|c s IH]; intros part; cbn.
  - intros ->%list_elem_of_singleton. apply segment_refl.
  - destruct (Ascii.eqb c sep).
    + intros [->|Hin]%elem_of_cons.
      * exists EmptyString, (String c s). by rewrite !app_nil.
      * by apply segment_cons, IH.
    + destruct (Str.split sep s) as [|h parts] eqn:E.
      * intros ->%list_elem_of_singleton. exists EmptyString, s.
        by rewrite app_nil.
      * intros [->|Hin]%elem_of_cons.
        -- destruct (split_head_prefix _ _ _ _ E) as [v' ->].
           exists EmptyString, v'. by rewrite app_nil, app_cons.
        -- apply segment_cons, IH. by right.
Qed.

Lemma search_sound r s m :
  search r s = Some m →
  segment (group0 m) s ∧ matches r None (group0 m) (group1 m).
Proof.
  induction s as [|c s IH]; cbn.
  - destruct (match_here r EmptyString) as [m'|] eqn:E; [|done].
    intros [= <-]. apply match_here_sound in E as [Hs Hm]. split; [|done].
    exists EmptyString, (after m'). by rewrite app_nil.
  - destruct (match_here r (String c s)) as [m'|] eqn:E.
    + intros [= <-]. apply match_here_sound in E as [Hs Hm]. split; [|done].
      exists EmptyString, (after m'). by rewrite app_nil.
    + intros [Hseg Hm]%IH. split; [|done]. by apply segment_cons.
Qed.

Lemma subn_go_skip r repl x rest :
  subn_go r repl (String.length x) (x +:+ rest) = subn_go r repl O rest.
Proof.
  induction x as [|c x IH]; [|by rewrite app_cons].
  rewrite app_nil. cbn [String.length]. by destruct rest.
Qed.

(** When every match is replaced by itself and counts for nothing,
    substitution returns the text and zero. *)
Lemma subn_identity r repl content :
  (∀ u s m, content = u +:+ s → match_here r s = Some m →
            repl m = (group0 m, O)) →
  subn r repl content = (content, O).
Proof.
  intros Hrepl. unfold subn.
  assert (H : ∀ n s u, (String.length s ≤ n)%nat → content = u +:+ s →
                       subn_go r repl O s = (s, O)).
  { induction n as [|n IH]; intros s u Hlen Hc.
    - destruct s; [|cbn in Hlen; lia]. cbn.
      destruct (match_here r EmptyString) as [m|] eqn:Hm; [|done].
      rewrite (Hrepl u _ m Hc Hm).
      apply match_here_sound in Hm as [Hs _].
      destruct (group0 m); [done|by rewrite app_cons in Hs].
    - destruct s as [|c s].
      + cbn. destruct (match_here r EmptyString) as [m|] eqn:Hm; [|done].
        rewrite (Hrepl u _ m Hc Hm).
        apply match_here_sound in Hm as [Hs _].
        destruct (group0 m); [done|by rewrite app_cons in Hs].
      + cbn in Hlen. cbn [subn_go].
        assert (Htail : subn_go r repl O s = (s, O)).
        { apply (IH s (u +:+ String c EmptyString)); [lia|].
          by rewrite app_assoc_str. }
        destruct (match_here r (String c s)) as [m|] eqn:Hm;
          [|by rewrite Htail].
        rewrite (Hrepl u _ m Hc Hm). cbn [fst snd].
        apply match_here_sound in Hm as [Hs _].
        destruct (group0 m) as [|c' w] eqn:Hg.
        * cbn [String.length]. by rewrite Htail.
        * rewrite app_cons in Hs. injection Hs as -> ->. cbn [String.length].
          rewrite subn_go_skip.
          rewrite (IH (after m) (u +:+ String c' w)).
          -- cbn. by rewrite app_cons.
          -- rewrite length_app_str in Hlen. lia.
          -- by rewrite app_assoc_str, app_cons. }
  by apply (H (String.length content) content EmptyString).
Qed.

Lemma lookup_path_none pm x : lookup_path pm x = None → pm !! x = None.
Proof. unfold lookup_path. by destruct (pm !! x). Qed.

Lemma replace_match_unresolved pm m g :
  group1 m = Some g → lookup_path pm g = None →
  UpdateImageReferences.replace_match pm m = (group0 m, O).
Proof.
  intros Hg. unfold UpdateImageReferences.replace_match, lookup_path.
  rewrite Hg. unfold default. cbn [from_option id]. cbv zeta.
  destruct (pm !! g); [done|].
  destruct (Str.startswith "/" g); [|done].
  by destruct (pm !! Str.drop 1 g).
Qed.

Lemma pattern_pass_unresolved pm pat content :
  (∀ cap w cap', matches pat cap w cap' → image_match_shape w cap') →
  unresolved pm content →
  subn pat (UpdateImageReferences.replace_match pm) content = (content, O).
Proof.
  intros Hshape Hun. apply subn_identity. intros u s m -> Hm.
  apply match_here_sound in Hm as [Hs Hm].
  apply Hshape in Hm as (pre & g & post & Hw & Hcap & _ & _ & Hg).
  destruct Hg as (g' & -> & _ & Hcdn & Hnq).
  apply (replace_match_unresolved pm m _ Hcap).
  apply Hun; [|done..].
  exists (u +:+ pre), (post +:+ after m).
  by rewrite Hs, Hw, !app_assoc_str.
Qed.

Lemma update_part_unresolved pm part :
  (∀ x, segment x part → starts_cdn x = true →
        Str.all UpdateImageReferences.not_quote x = true →
        lookup_path pm x = None) →
  Str.all UpdateImageReferences.not_quote part = true →
  (UpdateImageReferences.update_part pm part).2 = false.
Proof.
  intros Hun Hnq. unfold UpdateImageReferences.update_part.
  destruct (search _ _) as [m|] eqn:Hm; [|done].
  apply search_sound in Hm as [Hseg Hm].
  unfold UpdateImageReferences.srcset_path in Hm.
  apply matches_Grp_inv in Hm as (Hcap & cap0 & Hm). rewrite Hcap.
  unfold default. cbn [from_option id].
  apply matches_Seq_inv in Hm as (w1 & c1 & w2 & Hw & H1 & _).
  apply (matches_Lit "/cdn-assets/") in H1 as [-> _].
  assert (Hx : segment (group0 m) part).
  { eapply segment_trans; [exact Hseg|apply strip_segment]. }
  rewrite (lookup_path_none pm (group0 m)); [done|].
  apply Hun; [done| |by apply (segment_all _ _ part)].
  rewrite Hw. unfold starts_cdn.
  change 12%nat with (String.length "/cdn-assets/").
  by rewrite take_app_length_str.
Qed.

Lemma filter_snd_none {A} (f : A → string * bool) (l : list A) :
  (∀ y, y ∈ l → (f y).2 = false) → List.filter snd (List.map f l) = [].
Proof.
  induction l as [|y l IH]; intros H; cbn; [done|].
  rewrite (H y) by (by left). apply IH. intros y' ?. apply H. by right.
Qed.

Lemma srcset_pass_unresolved pm content :
  unresolved pm content →
  subn UpdateImageReferences.srcset_pattern
       (UpdateImageReferences.update_srcset pm) content = (content, O).
Proof.
  intros Hun. apply subn_identity. intros u s m -> Hm.
  apply match_here_sound in Hm as [Hs Hm].
  apply matches_srcset_pattern in Hm
    as (attr & q1 & value & q2 & Hw & Hcap & _ & _ & _ & Hv).
  unfold UpdateImageReferences.update_srcset. rewrite Hcap.
  unfold default. cbn [from_option id]. cbv zeta.
  rewrite filter_snd_none; [done|].
  intros part Hpart. apply split_segment in Hpart.
  apply update_part_unresolved; [|by apply (segment_all _ _ value)].
  intros x Hx. apply Hun.
  eapply segment_trans; [exact Hx|]. eapply segment_trans; [exact Hpart|].
  exists (u +:+ attr +:+ String q1 EmptyString),
         (String q2 EmptyString +:+ after m).
  rewrite Hs, Hw, !app_assoc_str. by rewrite !app_cons, !app_nil.
Qed.

(** A file in which nothing resolves is not written and counts no
    update. *)
Lemma unresolved_file_is_left_alone pm content :
  unresolved pm content →
  UpdateImageReferences.update_file (Some content) pm = (None, (false, O)).
Proof.
  intros Hun. unfold UpdateImageReferences.update_file.
  assert (Hrw : UpdateImageReferences.rewrite pm content = (content, O)).
  { unfold UpdateImageReferences.rewrite.
    match goal with
    | |- context [fold_left ?f _ _] => set (F := f)
    end.
    assert (Hfold : ∀ pats,
              Forall (λ pat : regex * string,
                        ∀ cap w cap', matches pat.1 cap w cap' →
                                      image_match_shape w cap') pats →
              fold_left F pats (content, O) = (content, O)).
    { induction 1 as [|pat pats Hpat _ IH]; cbn [fold_left]; [done|].
      replace (F (content, O) pat) with (content, O); [done|].
      unfold F. cbn [fst snd]. cbv zeta.
      by rewrite (pattern_pass_unresolved pm pat.1 content Hpat Hun). }
    rewrite (Hfold _ image_patterns_shape). cbn [fst snd]. cbv zeta.
    by rewrite srcset_pass_unresolved. }
  rewrite Hrw. by rewrite String.eqb_refl.
Qed.

End Unresolved.

(** ** Literals that the [srcset] pass meets *)

Section SrcsetLiterals.
Import Spec Steps Re.
Implicit Types (s t x y pre post lit rest value attr : string).

Lemma mentions_cdn_segment x s :
  segment x s → starts_cdn x = true → mentions_cdn s = true.
Proof.
  intros (u & v & ->) Hx. induction u as [|c u IH].
  - rewrite app_nil. by apply mentions_of_starts, starts_cdn_app.
  - rewrite app_cons. cbn [mentions_cdn]. rewrite IH. apply orb_true_r.
Qed.









End SrcsetLiterals.

(** ** Quoted literals in a file *)

Section LiteralsOnDisk.
Import Spec Steps TextFile.




End LiteralsOnDisk.



(** ** The second run of the applier *)



(** The rewrite pass has no test of its own either, and on a chain it is
    not a no-op: the first run turns a reference to [a.png] into one to
    [b.png], which is a key, and the second run turns it into one to
    [c.png]. *)
Lemma second_rewrite_rewrites_again_on_a_chain :
  UpdateImageReferences.update_file (Some "<img src='/cdn-assets/a.png'>")
    (UpdateImageReferences.load_mapping SecondRunInputs.chained_items)
  = (Some "<img src='/cdn-assets/b.png'>", (true, 1%nat))
  ∧ UpdateImageReferences.update_file (Some "<img src='/cdn-assets/b.png'>")
      (UpdateImageReferences.load_mapping SecondRunInputs.chained_items)
    = (Some "<img src='/cdn-assets/c.png'>", (true, 1%nat)).
Proof. split; vm_compute; reflexivity. Qed.

(** * Further properties of the scripts *)

(** ** Dictionaries in insertion order *)

Section DictOrder.
Context {V : Type}.
Implicit Types (d l : list (string * V)) (k : string) (v : V).

Lemma get_None k d : Dict.get k d = None ↔ k ∉ Dict.keys d.
Proof.
  unfold Dict.keys. induction d as [|[k' v'] d IH]; cbn.
  - split; [intros _; apply not_elem_of_nil|done].
  - rewrite not_elem_of_cons. destruct (String.eqb_spec k k') as [->|Hne].
    + split; [done|]. by intros [? _].
    + rewrite IH. tauto.
Qed.

Lemma set_new k v d : k ∉ Dict.keys d → Dict.set k v d = d ++ [(k, v)].
Proof.
  unfold Dict.keys. induction d as [|[k' v'] d IH]; cbn; [done|].
  rewrite not_elem_of_cons. intros [Hne Hk].
  destruct (String.eqb_spec k k') as [->|_]; [done|]. by rewrite IH.
Qed.

Lemma keys_set k v d :
  Dict.keys (Dict.set k v d)
  = if bool_decide (k ∈ Dict.keys d) then Dict.keys d else Dict.keys d ++ [k].
Proof.
  unfold Dict.keys. induction d as [|[k' v'] d IH]; cbn.
  - rewrite bool_decide_eq_false_2; [done|apply not_elem_of_nil].
  - destruct (String.eqb_spec k k') as [->|Hne]; cbn.
    + rewrite bool_decide_eq_true_2; [done|apply list_elem_of_here].
    + rewrite IH. case_bool_decide as Hin.
      * rewrite bool_decide_eq_true_2; [done|by apply list_elem_of_further].
      * rewrite bool_decide_eq_false_2; [done|].
        rewrite not_elem_of_cons. done.
Qed.

Lemma keys_set_NoDup k v d : NoDup (Dict.keys d) → NoDup (Dict.keys (Dict.set k v d)).
Proof.
  intros Hd. rewrite keys_set. case_bool_decide as Hin; [done|].
  apply NoDup_app. split; [done|]. split; [|apply NoDup_singleton].
  intros x Hx ->%list_elem_of_singleton. done.
Qed.

Lemma get_set k v d k' :
  Dict.get k' (Dict.set k v d) = if String.eqb k' k then Some v else Dict.get k' d.
Proof.
  induction d as [|[k0 v0] d IH]; cbn.
  - by destruct (String.eqb k' k).
  - destruct (String.eqb_spec k k0) as [->|Hne]; cbn.
    + by destruct (String.eqb k' k0).
    + rewrite IH. destruct (String.eqb_spec k' k0) as [->|Hne'].
      * destruct (String.eqb_spec k0 k) as [->|]; done.
      * done.
Qed.

Lemma get_elem_of_keys k v d : Dict.get k d = Some v → k ∈ Dict.keys d.
Proof.
  intros H. destruct (decide (k ∈ Dict.keys d)) as [|Hn]; [done|].
  apply get_None in Hn. congruence.
Qed.

Lemma elem_of_get k v d :
  NoDup (Dict.keys d) → (k, v) ∈ d → Dict.get k d = Some v.
Proof.
  unfold Dict.keys. induction d as [|[k' v'] d IH]; cbn; intros Hnd Hin.
  { by apply elem_of_nil in Hin. }
  apply NoDup_cons in Hnd as [Hk' Hnd].
  apply elem_of_cons in Hin as [[= -> ->]|Hin].
  - by rewrite String.eqb_refl.
  - destruct (String.eqb_spec k k') as [->|_]; [|by apply IH].
    destruct Hk'. by apply (list_elem_of_fmap_2 fst) in Hin.
Qed.

Lemma set_get_same k v d : Dict.get k (Dict.set k v d) = Some v.
Proof. by rewrite get_set, String.eqb_refl. Qed.

Lemma mem_true k d :
  Dict.mem k d = true ↔ k ∈ Dict.keys d.
Proof.
  unfold Dict.mem. destruct (Dict.get k d) as [v|] eqn:H.
  - split; [intros _; by eapply get_elem_of_keys|done].
  - apply get_None in H. split; [done|]. intros Hin. done.
Qed.

Lemma keys_set_mono k v d x :
  x ∈ Dict.keys d → x ∈ Dict.keys (Dict.set k v d).
Proof.
  intros Hx. rewrite keys_set. case_bool_decide; [done|].
  apply elem_of_app. by left.
Qed.

Lemma keys_set_same k v d : k ∈ Dict.keys (Dict.set k v d).
Proof.
  rewrite keys_set. case_bool_decide; [done|].
  apply elem_of_app. right. apply list_elem_of_here.
Qed.

Lemma Forall_set (P : string → V → Prop) k v d :
  Forall (λ kv, P kv.1 kv.2) d → P k v →
  Forall (λ kv, P kv.1 kv.2) (Dict.set k v d).
Proof.
  induction d as [|[k' v'] d IH]; cbn; intros Hd Hv.
  { by apply Forall_singleton. }
  apply Forall_cons in Hd as [Hv' Hd].
  destruct (String.eqb k k'); apply Forall_cons; auto.
Qed.

Lemma get_set_fresh k v d k' v' :
  k ∉ Dict.keys d → Dict.get k' d = Some v' →
  Dict.get k' (Dict.set k v d) = Some v'.
Proof.
  intros Hk Hget. rewrite get_set.
  destruct (String.eqb_spec k' k) as [->|]; [|done].
  by apply get_elem_of_keys in Hget.
Qed.

Lemma elem_of_keys k d :
  k ∈ Dict.keys d → ∃ v, (k, v) ∈ d.
Proof.
  intros ([k' v] & -> & Hin)%list_elem_of_fmap. by exists v.
Qed.

End DictOrder.

(** ** organize-images.py: the inventory and the planned paths *)

Section ImagePlan.
Import OrganizeImages.
Variable CDN_ASSETS : string.
Variable generate_human_readable_name : image_info → string.

Lemma endswith_app s p : Str.endswith p (s +:+ p) = true.
Proof.
  unfold Str.endswith. rewrite length_app_str.
  replace (String.length s + String.length p - String.length p)%nat
    with (String.length s) by lia.
  rewrite drop_app_length, String.eqb_refl.
  rewrite andb_true_r. apply Nat.leb_le. lia.
Qed.

(** The path without a counter. *)
Lemma first_free_least fuel existing folder name ext counter final p :
  first_free fuel existing folder name ext counter final = Some p →
  (p ∉ existing)
  ∧ (p = final
     ∨ (final ∈ existing
        ∧ ∃ i, (counter ≤ i)%nat ∧ p = numbered folder name ext i
               ∧ ∀ j, (counter ≤ j < i)%nat →
                      numbered folder name ext j ∈ existing)).
Proof.
  intros H. split; [by apply first_free_Some in H|].
  revert counter final H.
  induction fuel as [|fuel IH]; intros counter final; cbn;
    destruct (existsb (String.eqb final) existing) eqn:Hex; try done.
  - intros [= <-]. by left.
  - intros H. right.
    assert (Hfinal : final ∈ existing).
    { apply existsb_exists in Hex as (x & Hx & ->%String.eqb_eq).
      by apply list_elem_of_In. }
    split; [done|].
    destruct (IH _ _ H) as [->|(Hin & i & Hi & -> & Hall)].
    + exists counter. split; [lia|]. split; [done|]. intros j Hj. lia.
    + exists i. split; [lia|]. split; [done|]. intros j Hj.
      destruct (decide (j = counter)) as [->|Hne]; [done|]. apply Hall. lia.
  - intros [= <-]. by left.
Qed.

Lemma startswith_app_l p s t :
  Str.startswith p s = true → Str.startswith p (s +:+ t) = true.
Proof.
  intros [u ->]%startswith_spec. rewrite app_assoc_str. apply startswith_app.
Qed.

Lemma numbered_shape folder name ext i :
  Str.startswith "images/" (numbered folder name ext i) = true
  ∧ Str.endswith ext (numbered folder name ext i) = true.
Proof.
  split; [apply (startswith_app "images/")|]. unfold numbered.
  rewrite <- !app_assoc_str. apply endswith_app.
Qed.

(** X2.  [determine_new_path] always ends (the loop needs at most one
    more round than there are paths already planned) and returns a path
    that no earlier image has: the path without a counter when that one is
    free, and otherwise the path with the least counter, from 1 upwards,
    that is free.  The path lies under [images/] and keeps the extension
    of the file as it is. *)
Theorem determine_new_path_takes_least_free_counter info name m :
  let existing := new_relative <$> Dict.values m in
  let folder := folder_structure (category info) name in
  let base := "images/" +:+ folder +:+ "/" +:+ name +:+ extension info in
  ∃ p, determine_new_path info name m = Some p
       ∧ (p ∉ existing)
       ∧ (p = base
          ∨ (base ∈ existing
             ∧ ∃ i, (1 ≤ i)%nat
                    ∧ p = numbered folder name (extension info) i
                    ∧ ∀ j, (1 ≤ j < i)%nat →
                           numbered folder name (extension info) j ∈ existing))
       ∧ Str.startswith "images/" p = true
       ∧ Str.endswith (extension info) p = true.
Proof.
  intros existing folder base.
  destruct (determine_new_path_free info name m) as (p & Hp & _).
  exists p. split; [done|]. unfold determine_new_path in Hp.
  apply first_free_least in Hp as [Hfree Hp]. split; [done|]. split; [done|].
  destruct Hp as [->|(_ & i & _ & -> & _)].
  - split; [apply (startswith_app "images/")|].
    rewrite <- !app_assoc_str. apply endswith_app.
  - apply numbered_shape.
Qed.

Lemma plan_image_entry m k info :
  ∃ e, plan_image generate_human_readable_name (Some m) (k, info)
       = Some (Dict.set k e m)
       ∧ PlanEntries.image_item generate_human_readable_name k info e.
Proof.
  unfold plan_image.
  destruct (determine_new_path_takes_least_free_counter info
              (generate_human_readable_name info) m)
    as (p & -> & _ & _ & Hstart & Hend).
  eexists. split; [done|]. by repeat split.
Qed.

Lemma plan_loop_entries l m0 :
  NoDup (Dict.keys l) → (∀ k, k ∈ Dict.keys l → k ∉ Dict.keys m0) →
  ∃ m, fold_left (plan_image generate_human_readable_name) l (Some m0) = Some m
       ∧ Dict.keys m = Dict.keys m0 ++ Dict.keys l
       ∧ (∀ k e, Dict.get k m0 = Some e → Dict.get k m = Some e)
       ∧ ∀ k info, (k, info) ∈ l →
           ∃ e, Dict.get k m = Some e
                ∧ PlanEntries.image_item generate_human_readable_name k info e.
Proof.
  revert m0. induction l as [|[k info] l IH]; intros m0 Hnd Hfresh.
  - exists m0. cbn. rewrite app_nil_r. repeat split; [done|].
    intros k info Hin. by apply elem_of_nil in Hin.
  - cbn in Hnd. apply NoDup_cons in Hnd as [Hk Hnd].
    destruct (plan_image_entry m0 k info) as (e & He & Hitem).
    cbn [fold_left]. rewrite He.
    assert (Hk0 : k ∉ Dict.keys m0) by (apply Hfresh; apply list_elem_of_here).
    destruct (IH (Dict.set k e m0) Hnd) as (m & -> & Hkeys & Hold & Hnew).
    { intros k' Hk'. rewrite keys_set, bool_decide_eq_false_2 by done.
      rewrite not_elem_of_app. split.
      - apply Hfresh. by apply list_elem_of_further.
      - intros ->%list_elem_of_singleton. done. }
    exists m. split; [done|]. split; [|split].
    + rewrite Hkeys, keys_set, bool_decide_eq_false_2 by done.
      cbn. by rewrite <- app_assoc.
    + intros k' e' Hget. apply Hold. rewrite get_set.
      destruct (String.eqb_spec k' k) as [->|]; [|done].
      apply get_elem_of_keys in Hget. done.
    + intros k' info' [[= -> ->]|Hin]%elem_of_cons.
      * exists e. split; [|done]. apply Hold, set_get_same.
      * by apply Hnew.
Qed.

Lemma add_image_keys in_images images rel_path :
  NoDup (Dict.keys images) →
  NoDup (Dict.keys (add_image CDN_ASSETS in_images images rel_path)).
Proof.
  intros H. unfold add_image. destruct (is_image rel_path); [|done].
  by apply keys_set_NoDup.
Qed.

Lemma add_images_keys in_images l images :
  NoDup (Dict.keys images) →
  NoDup (Dict.keys (fold_left (add_image CDN_ASSETS in_images) l images)).
Proof.
  revert images. induction l as [|f l IH]; intros images H; cbn; [done|].
  by apply IH, add_image_keys.
Qed.

Lemma find_all_images_keys v imgs :
  find_all_images CDN_ASSETS (Some v) = Returned imgs → NoDup (Dict.keys imgs).
Proof.
  intros [= <-]. apply add_images_keys.
  destruct (images_files v); [|apply NoDup_nil_2].
  apply add_images_keys, NoDup_nil_2.
Qed.

Lemma add_images_elem in_images l images k :
  k ∈ Dict.keys (fold_left (add_image CDN_ASSETS in_images) l images)
  ↔ k ∈ Dict.keys images ∨ (is_image k = true ∧ k ∈ l).
Proof.
  revert images. induction l as [|f l IH]; intros images; cbn [fold_left].
  - split; [by left|]. intros [?|[_ ?%elem_of_nil]]; done.
  - rewrite IH, elem_of_cons. unfold add_image.
    destruct (is_image f) eqn:Hf.
    + rewrite keys_set. case_bool_decide as Hin.
      * split; [tauto|]. intros [?|[? [Heq|?]]]; subst; tauto.
      * rewrite elem_of_app, list_elem_of_singleton.
        split; [intros [[?|Heq]|?]; subst; tauto|].
        intros [?|[? [Heq|?]]]; subst; tauto.
    + split; [tauto|]. intros [?|[Hk [Heq|?]]]; [tauto| |tauto].
      subst. congruence.
Qed.

Lemma add_images_get (P : string → image_info → Prop) (in_images : bool) l images :
  (∀ k, P k (info_of CDN_ASSETS
               (if in_images
                then match PurePath.parts k with
                     | _ :: c :: _ => c
                     | _ => "root"
                     end
                else "root") k)) →
  (∀ k info, Dict.get k images = Some info → P k info) →
  ∀ k info,
    Dict.get k (fold_left (add_image CDN_ASSETS in_images) l images) = Some info →
    P k info.
Proof.
  intros Hnew. revert images.
  induction l as [|f l IH]; intros images Hold; cbn [fold_left].
  { done. }
  apply IH. intros k info. unfold add_image. destruct (is_image f); [|apply Hold].
  rewrite get_set. destruct (String.eqb_spec k f) as [->|_]; [|apply Hold].
  intros [= <-]. apply Hnew.
Qed.

(** X4.  [find_all_images] inventories a listed file exactly when its
    suffix, in lower case, is one of [IMAGE_EXTENSIONS]: other files are
    never planned.  No key occurs twice, and the record of a key holds the
    key as its relative path, together with the name, stem and suffix of
    that path. *)
Theorem find_all_images_inventory v :
  ∃ imgs,
    find_all_images CDN_ASSETS (Some v) = Returned imgs
    ∧ NoDup (Dict.keys imgs)
    ∧ (∀ k, k ∈ Dict.keys imgs
            ↔ is_image k = true
              ∧ (k ∈ default [] (images_files v) ∨ k ∈ root_files v))
    ∧ ∀ k info, Dict.get k imgs = Some info →
        relative_path info = k
        ∧ path info = CDN_ASSETS +:+ "/" +:+ k
        ∧ filename info = PurePath.name k
        ∧ stem info = PurePath.stem k
        ∧ extension info = PurePath.suffix k.
Proof.
  destruct (find_all_images CDN_ASSETS (Some v)) as [|imgs] eqn:Himgs; [done|].
  exists imgs. split; [done|]. split; [by eapply find_all_images_keys|].
  unfold find_all_images in Himgs. injection Himgs as <-. split.
  - intros k. rewrite add_images_elem.
    destruct (images_files v) as [fs|]; cbn.
    + rewrite add_images_elem. cbn. rewrite elem_of_nil. tauto.
    + rewrite !elem_of_nil. tauto.
  - apply (add_images_get
             (λ k info, relative_path info = k
                        ∧ path info = CDN_ASSETS +:+ "/" +:+ k
                        ∧ filename info = PurePath.name k
                        ∧ stem info = PurePath.stem k
                        ∧ extension info = PurePath.suffix k)); [done|].
    destruct (images_files v) as [fs|]; [|done].
    by apply add_images_get.
Qed.

(** X3.  When [CDN_ASSETS] exists, [main] of [organize-images.py] writes
    a document with exactly one item per image found, under the same keys
    in the same order; the item of an image records its key as
    [old_relative], the key and the new relative path below
    [/cdn-assets/] as [old_path] and [new_path], the image's category and
    chosen name, and a new relative path under [images/] that keeps the
    image's extension. *)
Theorem organize_images_writes_one_item_per_image v :
  ∃ imgs m,
    find_all_images CDN_ASSETS (Some v) = Returned imgs
    ∧ main CDN_ASSETS generate_human_readable_name (Some v) = Returned (Some m)
    ∧ Dict.keys m = Dict.keys imgs
    ∧ ∀ k info, Dict.get k imgs = Some info →
        ∃ e, Dict.get k m = Some e
             ∧ PlanEntries.image_item generate_human_readable_name k info e.
Proof.
  destruct (find_all_images CDN_ASSETS (Some v)) as [|imgs] eqn:Himgs; [done|].
  pose proof (find_all_images_keys v imgs Himgs) as Hnd.
  destruct (plan_loop_entries imgs [] Hnd) as (m & Hm & Hkeys & _ & Hall).
  { intros k _. apply not_elem_of_nil. }
  exists imgs, m. split; [done|]. split.
  - unfold main. rewrite Himgs. unfold plan. by rewrite Hm.
  - split; [done|]. intros k info Hget. apply Hall. by apply get_elem_of.
Qed.

Lemma organize_images_items v :
  ∃ m, main CDN_ASSETS generate_human_readable_name (Some v) = Returned (Some m)
       ∧ NoDup (Dict.keys m)
       ∧ Forall (λ kv, old_path kv.2 = "/cdn-assets/" +:+ kv.1
                       ∧ new_path kv.2 = "/cdn-assets/" +:+ new_relative kv.2) m.
Proof.
  destruct (find_all_images CDN_ASSETS (Some v)) as [|imgs] eqn:Himgs; [done|].
  pose proof (find_all_images_keys v imgs Himgs) as Hnd.
  destruct (plan_loop_entries imgs [] Hnd) as (m & Hm & Hkeys & _ & Hall).
  { intros k _. apply not_elem_of_nil. }
  cbn [app Dict.keys List.map] in Hkeys.
  exists m. split; [|split].
  - unfold main. rewrite Himgs. unfold plan. by rewrite Hm.
  - by rewrite Hkeys.
  - apply Forall_forall. intros [k e] Hin. cbn [fst snd].
    assert (Hget : Dict.get k m = Some e) by (apply elem_of_get; [by rewrite Hkeys|done]).
    assert (Hk : k ∈ Dict.keys imgs).
    { rewrite <- Hkeys. by eapply get_elem_of_keys. }
    apply elem_of_keys in Hk as [info Hinfo].
    destruct (Hall k info Hinfo) as (e' & He' & _ & Hold & Hnew & _).
    assert (e' = e) as -> by congruence. done.
Qed.

End ImagePlan.

(** ** Names of paths *)

Section PathNames.
Implicit Types (s n u part : string) (sep : ascii).

Lemma split_nonempty sep s : Str.split sep s ≠ [].
Proof.
  destruct s as [|c s]; cbn; [done|].
  destruct (Ascii.eqb c sep); [done|]. by destruct (Str.split sep s).
Qed.

Lemma split_no_sep sep s part :
  part ∈ Str.split sep s → Str.all (λ c, negb (Ascii.eqb c sep)) part = true.
Proof.
  revert part. induction s as [|c s IH]; intros part; cbn.
  - by intros ->%list_elem_of_singleton.
  - destruct (Ascii.eqb c sep) eqn:Hc.
    + intros [->|Hin]%elem_of_cons; [done|]. by apply IH.
    + destruct (Str.split sep s) as [|p ps] eqn:Hs.
      * intros ->%list_elem_of_singleton. cbn. by rewrite Hc.
      * intros [->|Hin]%elem_of_cons.
        -- cbn. rewrite Hc. cbn. apply IH, list_elem_of_here.
        -- by apply IH, list_elem_of_further.
Qed.

Lemma split_single sep n :
  Str.all (λ c, negb (Ascii.eqb c sep)) n = true → Str.split sep n = [n].
Proof.
  induction n as [|c n IH]; cbn; [done|].
  intros [Hc Hn]%andb_true_iff. apply negb_true_iff in Hc. rewrite Hc.
  by rewrite IH.
Qed.

Lemma split_app_sep sep u s :
  Str.all (λ c, negb (Ascii.eqb c sep)) u = true →
  Str.split sep (u +:+ String sep s) = u :: Str.split sep s.
Proof.
  induction u as [|c u IH]; cbn [Str.all].
  - intros _. rewrite app_nil. cbn [Str.split]. by rewrite Ascii.eqb_refl.
  - intros [Hc Hu]%andb_true_iff. apply negb_true_iff in Hc.
    rewrite app_cons. cbn [Str.split]. rewrite Hc. by rewrite IH.
Qed.

Lemma last_elem_of {A} (l : list A) d : l ≠ [] → List.last l d ∈ l.
Proof.
  induction l as [|x l IH]; [done|]. intros _.
  destruct l as [|y l]; [apply list_elem_of_here|].
  apply list_elem_of_further. by apply IH.
Qed.

(** A name that [pathlib] returns is a single component. *)
Lemma name_component s :
  PurePath.name s ≠ EmptyString →
  PurePath.name s ≠ "."
  ∧ Str.all (λ c, negb (Ascii.eqb c "/")) (PurePath.name s) = true.
Proof.
  unfold PurePath.name. intros Hne.
  destruct (PurePath.parts s) as [|p ps] eqn:Hparts; [done|].
  assert (Hin : List.last (p :: ps) EmptyString ∈ PurePath.parts s).
  { rewrite Hparts. by apply last_elem_of. }
  unfold PurePath.parts in Hin. apply list_elem_of_filter in Hin as [[_ Hdot] Hin].
  split; [done|]. by apply split_no_sep in Hin.
Qed.

Lemma name_below dir n :
  Str.all (λ c, negb (Ascii.eqb c "/")) dir = true →
  n ≠ EmptyString → n ≠ "." →
  Str.all (λ c, negb (Ascii.eqb c "/")) n = true →
  PurePath.name (dir +:+ String "/" n) = n.
Proof.
  intros Hdir Hne Hdot Hn. unfold PurePath.name, PurePath.parts.
  rewrite split_app_sep, split_single by done.
  destruct (decide (dir ≠ EmptyString ∧ dir ≠ ".")) as [Hd|Hd].
  - rewrite filter_cons_True by done.
    rewrite filter_cons_True by done. done.
  - rewrite filter_cons_False by done.
    rewrite filter_cons_True by done. done.
Qed.

End PathNames.

(** ** organize-public-assets.py: the inventory *)

Section ScanFacts.
Import OrganizePublicAssets Planner Inventory.
Variable PUBLIC_DIR : string.
Implicit Types (fm : list (string * file_info)) (seen : list (string * string))
  (f : file_stat).

(** Adding a file under a name that has not been seen. *)
Lemma scanned_add fm seen k info :
  scanned fm seen → fi_name info ∉ Dict.keys seen →
  scanned (Dict.set k info fm) (Dict.set (fi_name info) k seen).
Proof.
  intros [Hkeys Hnames Hseen] Hnew. split.
  - by apply keys_set_NoDup.
  - apply values_set; [done|].
    intros (info' & Heq & Hin)%list_elem_of_fmap.
    rewrite Forall_forall in Hseen. apply Hnew. rewrite Heq. by apply Hseen.
  - apply values_set_Forall; [|apply keys_set_same].
    eapply Forall_impl; [exact Hseen|]. intros info'. apply keys_set_mono.
Qed.

Lemma scan_cdn_scanned fm seen f :
  scanned fm seen →
  scanned (scan_cdn PUBLIC_DIR (fm, seen) f).1 (scan_cdn PUBLIC_DIR (fm, seen) f).2.
Proof.
  intros H. unfold scan_cdn.
  destruct (Dict.mem _ seen) eqn:Hmem; [done|]. cbn [fst snd].
  apply (scanned_add fm seen _ (FileInfo _ _ _ _ _)); [done|].
  cbn. rewrite <- mem_true. by rewrite Hmem.
Qed.

Lemma scan_public_scanned fm seen f :
  scanned fm seen →
  scanned (scan_public PUBLIC_DIR (fm, seen) f).1
          (scan_public PUBLIC_DIR (fm, seen) f).2.
Proof.
  intros H. unfold scan_public.
  destruct (String.eqb _ "robots.txt"); [done|].
  destruct (Dict.mem _ seen) eqn:Hmem; [done|]. cbn [fst snd].
  apply (scanned_add fm seen _ (FileInfo _ _ _ _ _)); [done|].
  cbn. rewrite <- mem_true. by rewrite Hmem.
Qed.

Lemma scan_loop_scanned (step : _ → file_stat → _) l acc :
  (∀ fm seen f, scanned fm seen →
                scanned (step (fm, seen) f).1 (step (fm, seen) f).2) →
  scanned acc.1 acc.2 →
  scanned (fold_left step l acc).1 (fold_left step l acc).2.
Proof.
  intros Hstep. revert acc. induction l as [|f l IH]; intros [fm seen] H; [done|].
  cbn [fold_left]. apply IH. destruct (step (fm, seen) f) eqn:E.
  specialize (Hstep fm seen f H). by rewrite E in Hstep.
Qed.

Lemma scan_files_scanned d :
  ∃ seen, scanned (scan_files PUBLIC_DIR d) seen.
Proof.
  unfold scan_files. eexists.
  assert (H0 : scanned (@nil (string * file_info)) (@nil (string * string))).
  { split; [apply NoDup_nil_2|apply NoDup_nil_2|apply Forall_nil_2]. }
  assert (H1 : ∀ acc, scanned acc.1 acc.2 →
                 let acc' := match cdn_assets_files d with
                             | Some fs => fold_left (scan_cdn PUBLIC_DIR) fs acc
                             | None => acc
                             end in scanned acc'.1 acc'.2).
  { intros acc Hacc. destruct (cdn_assets_files d); [|done].
    apply scan_loop_scanned; [apply scan_cdn_scanned|done]. }
  assert (H2 : ∀ acc, scanned acc.1 acc.2 →
                 let acc' := match public_files d with
                             | Some fs => fold_left (scan_public PUBLIC_DIR) fs acc
                             | None => acc
                             end in scanned acc'.1 acc'.2).
  { intros acc Hacc. destruct (public_files d); [|done].
    apply scan_loop_scanned; [apply scan_public_scanned|done]. }
  apply H2, H1, H0.
Qed.

(** X5.  [scan_files] never inventories two files of the same name,
    wherever they lie: the names in the inventory are pairwise distinct,
    and so are its keys. *)
Theorem scan_files_keeps_one_file_per_name d :
  NoDup (Dict.keys (scan_files PUBLIC_DIR d))
  ∧ NoDup (fi_name <$> Dict.values (scan_files PUBLIC_DIR d)).
Proof.
  destruct (scan_files_scanned d) as [seen [Hkeys Hnames _]]. done.
Qed.

Lemma scan_loop_Forall (P : string → file_info → Prop)
    (step : _ → file_stat → _) l acc :
  (∀ fm seen f, f ∈ l → Forall (λ kv, P kv.1 kv.2) fm →
                Forall (λ kv, P kv.1 kv.2) (step (fm, seen) f).1) →
  Forall (λ kv, P kv.1 kv.2) acc.1 →
  Forall (λ kv, P kv.1 kv.2) (fold_left step l acc).1.
Proof.
  revert acc. induction l as [|f l IH]; intros [fm seen] Hstep H; [done|].
  cbn [fold_left]. apply IH.
  - intros fm' seen' f' Hf'. apply Hstep. by apply list_elem_of_further.
  - destruct (step (fm, seen) f) as [fm1 seen1] eqn:E.
    specialize (Hstep fm seen f (list_elem_of_here _ _) H).
    by rewrite E in Hstep.
Qed.

(** X6.  Every entry of the inventory of [scan_files] is either a file
    listed below [cdn-assets], under its own relative path and not to be
    moved, or a file of the [public] root that is not [robots.txt], under
    the key [cdn-assets/] followed by its name and flagged [needs_move];
    [robots.txt] of the [public] root is never inventoried. *)
Theorem scan_files_entries_provenance d :
  Forall (λ kv, provenance PUBLIC_DIR d kv.1 kv.2) (scan_files PUBLIC_DIR d).
Proof.
  unfold scan_files.
  set (P := provenance PUBLIC_DIR d).
  assert (H1 : Forall (λ kv, P kv.1 kv.2)
                 (match cdn_assets_files d with
                  | Some fs => fold_left (scan_cdn PUBLIC_DIR) fs ([], [])
                  | None => ([], [])
                  end).1).
  { destruct (cdn_assets_files d) as [fs|] eqn:Hcdn; [|apply Forall_nil_2].
    apply scan_loop_Forall; [|apply Forall_nil_2].
    intros fm seen f Hf Hfm. unfold scan_cdn.
    destruct (Dict.mem _ seen); [done|]. cbn [fst].
    apply Forall_set; [done|]. unfold P, provenance. cbn.
    split; [done|]. split; [done|]. split; [done|].
    exists f. rewrite Hcdn. by cbn. }
  destruct (public_files d) as [fs|] eqn:Hpub; [|done].
  apply scan_loop_Forall; [|done].
  intros fm seen f Hf Hfm. unfold scan_public.
  destruct (String.eqb_spec (PurePath.name (rel_to_public f)) "robots.txt")
    as [|Hrobots]; [done|].
  destruct (Dict.mem _ seen); [done|]. cbn [fst].
  apply Forall_set; [done|]. unfold P, provenance. cbn.
  split; [done|]. split; [done|]. split; [done|].
  exists f. rewrite Hpub. by cbn.
Qed.

(** Adding a file whose name has not been seen, under a key that names
    it: no entry is overwritten. *)
Lemma tracked_add fm seen k info :
  tracked fm seen → fi_name info ∉ Dict.keys seen →
  (if fi_needs_move info then k = "cdn-assets/" +:+ fi_name info
   else fi_name info = PurePath.name k) →
  (∀ info', (k, info') ∈ fm →
     (if fi_needs_move info' then k = "cdn-assets/" +:+ fi_name info'
      else fi_name info' = PurePath.name k) →
     fi_name info' = fi_name info) →
  tracked (Dict.set k info fm) (Dict.set (fi_name info) k seen)
  ∧ ∀ k' info', Dict.get k' fm = Some info' →
                Dict.get k' (Dict.set k info fm) = Some info'.
Proof.
  intros [Hseen Hfound Hkeys] Hnew Hk Hsame.
  assert (Hfresh : k ∉ Dict.keys fm).
  { intros [info' Hin]%elem_of_keys.
    rewrite Forall_forall in Hseen, Hkeys.
    apply Hnew. rewrite <- (Hsame info' Hin (Hkeys _ Hin)).
    apply (Hseen _ Hin). }
  split; [split|].
  - apply (Forall_set (λ _ i, fi_name i ∈ _)); [|apply keys_set_same].
    eapply Forall_impl; [exact Hseen|]. intros kv. apply keys_set_mono.
  - intros n. rewrite keys_set. case_bool_decide as Hin.
    + intros Hn. destruct (Hfound n Hn) as (k' & info' & Hget & Hname).
      exists k', info'. split; [by apply get_set_fresh|done].
    + intros [Hn| ->%list_elem_of_singleton]%elem_of_app.
      * destruct (Hfound n Hn) as (k' & info' & Hget & Hname).
        exists k', info'. split; [by apply get_set_fresh|done].
      * exists k, info. split; [apply set_get_same|done].
  - by apply (Forall_set
                (λ k i, if fi_needs_move i then k = "cdn-assets/" +:+ fi_name i
                        else fi_name i = PurePath.name k)).
  - intros k' info'. by apply get_set_fresh.
Qed.

Lemma scan_cdn_tracked fm seen f :
  tracked fm seen → Forall (λ kv, fi_needs_move kv.2 = false) fm →
  tracked (scan_cdn PUBLIC_DIR (fm, seen) f).1 (scan_cdn PUBLIC_DIR (fm, seen) f).2
  ∧ Forall (λ kv, fi_needs_move kv.2 = false) (scan_cdn PUBLIC_DIR (fm, seen) f).1
  ∧ (∀ k info, Dict.get k fm = Some info →
               Dict.get k (scan_cdn PUBLIC_DIR (fm, seen) f).1 = Some info)
  ∧ PurePath.name (rel_to_public f)
      ∈ Dict.keys (scan_cdn PUBLIC_DIR (fm, seen) f).2
  ∧ (∀ n, n ∈ Dict.keys seen →
          n ∈ Dict.keys (scan_cdn PUBLIC_DIR (fm, seen) f).2).
Proof.
  intros Htr Hflags. unfold scan_cdn.
  destruct (Dict.mem _ seen) eqn:Hmem; cbn [fst snd].
  { split; [done|]. split; [done|]. split; [done|].
    split; [by apply mem_true|done]. }
  set (info := FileInfo _ _ _ _ _).
  destruct (tracked_add fm seen (rel_to_public f) info Htr) as [Htr' Hkeep].
  - cbn. rewrite <- mem_true. by rewrite Hmem.
  - done.
  - intros info' Hin _. rewrite Forall_forall in Hflags.
    specialize (Hflags _ Hin). cbn in Hflags.
    destruct Htr as [_ _ Hkeys]. rewrite Forall_forall in Hkeys.
    specialize (Hkeys _ Hin). cbn in Hkeys. by rewrite Hflags in Hkeys.
  - split; [done|]. split.
    { by apply (Forall_set (λ _ i, fi_needs_move i = false)). }
    split; [done|]. split; [apply keys_set_same|].
    intros n. apply keys_set_mono.
Qed.

Lemma scan_public_tracked fm seen f :
  PurePath.name (rel_to_public f) ≠ EmptyString →
  tracked fm seen →
  tracked (scan_public PUBLIC_DIR (fm, seen) f).1
          (scan_public PUBLIC_DIR (fm, seen) f).2
  ∧ (∀ k info, Dict.get k fm = Some info →
               Dict.get k (scan_public PUBLIC_DIR (fm, seen) f).1 = Some info)
  ∧ (PurePath.name (rel_to_public f) ≠ "robots.txt" →
     PurePath.name (rel_to_public f)
       ∈ Dict.keys (scan_public PUBLIC_DIR (fm, seen) f).2)
  ∧ (∀ n, n ∈ Dict.keys seen →
          n ∈ Dict.keys (scan_public PUBLIC_DIR (fm, seen) f).2).
Proof.
  intros Hname Htr. unfold scan_public.
  destruct (String.eqb_spec (PurePath.name (rel_to_public f)) "robots.txt")
    as [Hrobots|Hrobots]; [done|].
  destruct (Dict.mem _ seen) eqn:Hmem; cbn [fst snd].
  { split; [done|]. split; [done|]. split; [|done].
    intros _. by apply mem_true. }
  set (info := FileInfo _ _ _ _ _).
  destruct (tracked_add fm seen
              ("cdn-assets/" +:+ PurePath.name (rel_to_public f)) info Htr)
    as [Htr' Hkeep].
  - cbn. rewrite <- mem_true. by rewrite Hmem.
  - done.
  - intros info' Hin. cbn. destruct (fi_needs_move info').
    + by intros ->%app_inv_head_str.
    + intros ->. destruct (name_component _ Hname) as [Hdot Hsep].
      by apply (name_below "cdn-assets").
  - split; [done|]. split; [done|]. split.
    + intros _. apply keys_set_same.
    + intros n. apply keys_set_mono.
Qed.

Lemma scan_cdn_loop l fm seen :
  tracked fm seen → Forall (λ kv, fi_needs_move kv.2 = false) fm →
  let acc := fold_left (scan_cdn PUBLIC_DIR) l (fm, seen) in
  tracked acc.1 acc.2
  ∧ Forall (λ kv, fi_needs_move kv.2 = false) acc.1
  ∧ (∀ k info, Dict.get k fm = Some info → Dict.get k acc.1 = Some info)
  ∧ (∀ f, f ∈ l → PurePath.name (rel_to_public f) ∈ Dict.keys acc.2)
  ∧ (∀ n, n ∈ Dict.keys seen → n ∈ Dict.keys acc.2).
Proof.
  revert fm seen. induction l as [|f l IH]; intros fm seen Htr Hflags; cbn zeta.
  { cbn. split; [done|]. split; [done|]. split; [done|]. split; [|done].
    intros f Hf. by apply elem_of_nil in Hf. }
  cbn [fold_left].
  destruct (scan_cdn_tracked fm seen f Htr Hflags)
    as (Htr1 & Hflags1 & Hkeep1 & Hf1 & Hmono1).
  destruct (scan_cdn PUBLIC_DIR (fm, seen) f) as [fm1 seen1].
  destruct (IH fm1 seen1 Htr1 Hflags1) as (Htr2 & Hflags2 & Hkeep2 & Hf2 & Hmono2).
  split; [done|]. split; [done|]. split; [|split].
  - intros k info Hget. by apply Hkeep2, Hkeep1.
  - intros f' [->|Hin]%elem_of_cons; [by apply Hmono2|by apply Hf2].
  - intros n Hn. by apply Hmono2, Hmono1.
Qed.

Lemma scan_public_loop l fm seen :
  all_named l = true → tracked fm seen →
  let acc := fold_left (scan_public PUBLIC_DIR) l (fm, seen) in
  tracked acc.1 acc.2
  ∧ (∀ k info, Dict.get k fm = Some info → Dict.get k acc.1 = Some info)
  ∧ (∀ f, f ∈ l → PurePath.name (rel_to_public f) ≠ "robots.txt" →
          PurePath.name (rel_to_public f) ∈ Dict.keys acc.2)
  ∧ (∀ n, n ∈ Dict.keys seen → n ∈ Dict.keys acc.2).
Proof.
  revert fm seen. induction l as [|f l IH]; intros fm seen Hnamed Htr; cbn zeta.
  { cbn. split; [done|]. split; [done|]. split; [|done].
    intros f Hf. by apply elem_of_nil in Hf. }
  cbn [fold_left]. cbn in Hnamed.
  apply andb_true_iff in Hnamed as [Hf Hnamed].
  apply negb_true_iff in Hf. apply String.eqb_neq in Hf.
  destruct (scan_public_tracked fm seen f Hf Htr) as (Htr1 & Hkeep1 & Hf1 & Hmono1).
  destruct (scan_public PUBLIC_DIR (fm, seen) f) as [fm1 seen1].
  destruct (IH fm1 seen1 Hnamed Htr1) as (Htr2 & Hkeep2 & Hf2 & Hmono2).
  split; [done|]. split; [|split].
  - intros k info Hget. by apply Hkeep2, Hkeep1.
  - intros f' [->|Hin]%elem_of_cons Hrobots; [by apply Hmono2, Hf1|by apply Hf2].
  - intros n Hn. by apply Hmono2, Hmono1.
Qed.

(** X7.  When every file listed in the [public] root has a name, the
    inventory of [scan_files] is complete and prefers [cdn-assets]: every
    file listed below [cdn-assets] has an entry of its name that is not to
    be moved, so that a file of the same name in the [public] root is left
    out; and every file of the [public] root other than [robots.txt] has
    an entry of its name. *)
Theorem scan_files_prefers_cdn_assets d :
  all_named (listed (public_files d)) = true →
  (∀ f, f ∈ listed (cdn_assets_files d) →
        ∃ k info, Dict.get k (scan_files PUBLIC_DIR d) = Some info
                  ∧ fi_name info = PurePath.name (rel_to_public f)
                  ∧ fi_needs_move info = false)
  ∧ (∀ f, f ∈ listed (public_files d) →
          PurePath.name (rel_to_public f) ≠ "robots.txt" →
          ∃ k info, Dict.get k (scan_files PUBLIC_DIR d) = Some info
                    ∧ fi_name info = PurePath.name (rel_to_public f)).
Proof.
  intros Hnamed. unfold scan_files.
  assert (H0 : tracked (@nil (string * file_info)) (@nil (string * string))).
  { split; [apply Forall_nil_2| |apply Forall_nil_2].
    intros n Hn. by apply elem_of_nil in Hn. }
  destruct (scan_cdn_loop (listed (cdn_assets_files d)) [] [] H0 (Forall_nil_2 _))
    as (Htr1 & Hflags1 & _ & Hf1 & _).
  assert (E1 : match cdn_assets_files d with
               | Some fs => fold_left (scan_cdn PUBLIC_DIR) fs ([], [])
               | None => ([], [])
               end
               = fold_left (scan_cdn PUBLIC_DIR) (listed (cdn_assets_files d))
                           ([], [])).
  { by destruct (cdn_assets_files d). }
  rewrite E1. clear E1.
  destruct (fold_left (scan_cdn PUBLIC_DIR) (listed (cdn_assets_files d)) ([], []))
    as [fm1 seen1].
  cbn [fst snd] in Htr1, Hflags1, Hf1.
  destruct (scan_public_loop (listed (public_files d)) fm1 seen1 Hnamed Htr1)
    as (Htr2 & Hkeep2 & Hf2 & Hmono2).
  assert (E2 : match public_files d with
               | Some fs => fold_left (scan_public PUBLIC_DIR) fs (fm1, seen1)
               | None => (fm1, seen1)
               end
               = fold_left (scan_public PUBLIC_DIR) (listed (public_files d))
                           (fm1, seen1)).
  { by destruct (public_files d). }
  rewrite E2. clear E2.
  destruct (fold_left (scan_public PUBLIC_DIR) (listed (public_files d))
                      (fm1, seen1)) as [fm2 seen2].
  cbn [fst snd] in *. split.
  - intros f Hf. destruct Htr1 as [_ Hfound1 _].
    destruct (Hfound1 _ (Hf1 f Hf)) as (k & info & Hget & Hname).
    exists k, info. split; [by apply Hkeep2|]. split; [done|].
    apply get_elem_of in Hget. rewrite Forall_forall in Hflags1.
    apply (Hflags1 _ Hget).
  - intros f Hf Hrobots. destruct Htr2 as [_ Hfound2 _].
    destruct (Hfound2 _ (Hf2 f Hf Hrobots)) as (k & info & Hget & Hname).
    by exists k, info.
Qed.

End ScanFacts.

(** X7 at a tree where [a.png] lies in both roots. *)
Lemma scan_files_prefers_cdn_assets_witness :
  (∀ f, f ∈ Inventory.listed
              (Planner.cdn_assets_files InventoryInputs.shadowed_file) →
        ∃ k info,
          Dict.get k (Planner.scan_files "/repo/public"
                        InventoryInputs.shadowed_file) = Some info
          ∧ Planner.fi_name info = PurePath.name (Planner.rel_to_public f)
          ∧ Planner.fi_needs_move info = false)
  ∧ (∀ f, f ∈ Inventory.listed
                (Planner.public_files InventoryInputs.shadowed_file) →
          PurePath.name (Planner.rel_to_public f) ≠ "robots.txt" →
          ∃ k info,
            Dict.get k (Planner.scan_files "/repo/public"
                          InventoryInputs.shadowed_file) = Some info
            ∧ Planner.fi_name info = PurePath.name (Planner.rel_to_public f)).
Proof.
  apply (scan_files_prefers_cdn_assets "/repo/public"
           InventoryInputs.shadowed_file).
  vm_compute; reflexivity.
Defined.

(** ** organize-public-assets.py: categories and the plan *)

Section PlanFacts.
Import OrganizePublicAssets Planner.
Variable PUBLIC_DIR : string.

Lemma category_dir_known c d :
  category_dir c = Some d → is_Some (Dict.get d NEW_STRUCTURE).
Proof.
  unfold category_dir.
  repeat (destruct (String.eqb c _); [by intros [= <-]|]). done.
Qed.

Lemma first_category_known fl cats d :
  first_category fl cats = Some d → is_Some (Dict.get d NEW_STRUCTURE).
Proof.
  induction cats as [|[c kws] cats IH]; cbn; [done|].
  destruct (existsb _ kws); [|done].
  destruct (category_dir c) as [d'|] eqn:Hc; [|done].
  intros [= <-]. by eapply category_dir_known.
Qed.

Lemma by_extension_known f : is_Some (Dict.get (by_extension f) NEW_STRUCTURE).
Proof.
  unfold by_extension. repeat (destruct (String.eqb _ _); [done|]).
  by destruct (existsb _ _).
Qed.

Lemma categorize_file_known f :
  is_Some (Dict.get (categorize_file f).1 NEW_STRUCTURE).
Proof.
  unfold categorize_file.
  assert (Hfall : is_Some (Dict.get
                     (match first_category (Str.lower f) FILE_CATEGORIES with
                      | Some d => (d, @None string)
                      | None => (by_extension f, None)
                      end).1 NEW_STRUCTURE)).
  { destruct (first_category _ _) as [d|] eqn:Hd; cbn [fst].
    - by eapply first_category_known.
    - apply by_extension_known. }
  destruct (Dict.get f KNOWN_NAMES) as [known|]; [|done].
  repeat (destruct (_ : bool); [done|]). done.
Qed.

(** X8.  Whatever the file name, [categorize_file] answers with one of
    the nine categories of [NEW_STRUCTURE]; the fall-back directory [misc]
    of [organize_files] is therefore only ever reached through the
    category [other]. *)
Theorem categorize_file_category_is_known f :
  ∃ dir, Dict.get (categorize_file f).1 NEW_STRUCTURE = Some dir
         ∧ (dir = "misc" ↔ (categorize_file f).1 = "other").
Proof.
  destruct (categorize_file_known f) as [dir Hdir]. exists dir. split; [done|].
  revert Hdir. generalize (categorize_file f).1. intros c. cbn.
  repeat match goal with
         | |- context [String.eqb c ?x] =>
             destruct (String.eqb_spec c x) as [->|?];
             [intros [= <-]; split; intros H; first [done|discriminate H]|]
         end.
  intros [=].
Qed.

Lemma plan_step_entry m counts k info :
  ∃ e counts', plan_step (m, counts) (k, info) = (Dict.set k e m, counts')
               ∧ PlanEntries.asset_entry info e.
Proof.
  unfold plan_step, PlanEntries.asset_entry. cbv zeta.
  pose proof (categorize_file_known (fi_name info)) as [dir Hdir].
  destruct (categorize_file (fi_name info)) as [category known].
  cbn [fst] in Hdir |- *. rewrite Hdir.
  eexists. eexists. split; [reflexivity|].
  cbn [old_path old_name Planner.category new_dir new_path new_name].
  by rewrite Hdir.
Qed.

Lemma plan_loop_assets l m0 counts :
  NoDup (Dict.keys l) → (∀ k, k ∈ Dict.keys l → k ∉ Dict.keys m0) →
  let m := (fold_left plan_step l (m0, counts)).1 in
  Dict.keys m = Dict.keys m0 ++ Dict.keys l
  ∧ (∀ k e, Dict.get k m0 = Some e → Dict.get k m = Some e)
  ∧ ∀ k info, (k, info) ∈ l →
      ∃ e, Dict.get k m = Some e ∧ PlanEntries.asset_entry info e.
Proof.
  revert m0 counts.
  induction l as [|[k info] l IH]; intros m0 counts Hnd Hfresh; cbn zeta.
  - cbn. rewrite app_nil_r. split; [done|]. split; [done|].
    intros k info Hin. by apply elem_of_nil in Hin.
  - cbn in Hnd. apply NoDup_cons in Hnd as [Hk Hnd].
    destruct (plan_step_entry m0 counts k info) as (e & counts' & He & Hentry).
    cbn [fold_left]. rewrite He.
    assert (Hk0 : k ∉ Dict.keys m0) by (apply Hfresh; apply list_elem_of_here).
    destruct (IH (Dict.set k e m0) counts' Hnd) as (Hkeys & Hold & Hnew).
    { intros k' Hk'. rewrite keys_set, bool_decide_eq_false_2 by done.
      rewrite not_elem_of_app. split.
      - apply Hfresh. by apply list_elem_of_further.
      - intros ->%list_elem_of_singleton. done. }
    split; [|split].
    + rewrite Hkeys, keys_set, bool_decide_eq_false_2 by done.
      cbn. by rewrite <- app_assoc.
    + intros k' e' Hget. apply Hold. by apply get_set_fresh.
    + intros k' info' [[= -> ->]|Hin]%elem_of_cons.
      * exists e. split; [|done]. apply Hold, set_get_same.
      * by apply Hnew.
Qed.

Lemma organize_files_entries d :
  Dict.keys (organize_files PUBLIC_DIR d) = Dict.keys (scan_files PUBLIC_DIR d)
  ∧ NoDup (Dict.keys (organize_files PUBLIC_DIR d))
  ∧ ∀ k info, (k, info) ∈ scan_files PUBLIC_DIR d →
      ∃ e, Dict.get k (organize_files PUBLIC_DIR d) = Some e
           ∧ PlanEntries.asset_entry info e.
Proof.
  unfold organize_files, plan.
  destruct (scan_files_scanned PUBLIC_DIR d) as [seen [Hkeys _ _]].
  destruct (plan_loop_assets (scan_files PUBLIC_DIR d) [] ∅ Hkeys)
    as (Hk & _ & Hall).
  { intros k _. apply not_elem_of_nil. }
  split; [done|]. split; [|done]. by rewrite Hk.
Qed.

(** X9.  [organize_files] plans every inventoried file exactly once: the
    migration map has the keys of the inventory, in the same order, and
    the entry of a file records its old path and old name, the category
    [categorize_file] gives its name, the directory of that category in
    [NEW_STRUCTURE], and a new path made of [cdn-assets/], that directory
    and the new name. *)
Theorem organize_files_plans_every_file d :
  Dict.keys (organize_files PUBLIC_DIR d) = Dict.keys (scan_files PUBLIC_DIR d)
  ∧ Forall (λ kv, ∃ e, Dict.get kv.1 (organize_files PUBLIC_DIR d) = Some e
                       ∧ PlanEntries.asset_entry kv.2 e)
           (scan_files PUBLIC_DIR d).
Proof.
  destruct (organize_files_entries d) as (Hk & _ & Hall).
  split; [done|]. apply Forall_forall. intros [k info] Hin. by apply Hall.
Qed.

Lemma known_names_cases f known :
  Dict.get f KNOWN_NAMES = Some known → (f, known) ∈ KNOWN_NAMES.
Proof. apply get_elem_of. Qed.

(** X22.  The names [organize_files] starts from follow the category: a
    file that [categorize_file] makes a logo gets a name that starts with
    [logo-], and one that it makes a screenshot a name that starts with
    [screenshot-], whether the name comes from [KNOWN_NAMES] or from
    [generate_new_name]; a prefix that is already there is not added
    again. *)
Theorem logos_and_screenshots_carry_their_prefix f :
  ((categorize_file f).1 = "logos" →
   Str.startswith "logo-" (generate_new_name f "logos") = true)
  ∧ ((categorize_file f).1 = "screenshots" →
     Str.startswith "screenshot-" (generate_new_name f "screenshots") = true)
  ∧ (Dict.get f KNOWN_NAMES = None →
     Str.startswith "logo-" (PurePath.stem (clean_filename f (Some f))) = true →
     generate_new_name f "logos"
     = PurePath.stem (clean_filename f (Some f))
       +:+ PurePath.suffix (clean_filename f (Some f))).
Proof.
  destruct (Dict.get f KNOWN_NAMES) as [known|] eqn:Hknown.
  - apply known_names_cases in Hknown. unfold KNOWN_NAMES in Hknown.
    repeat (apply elem_of_cons in Hknown as [[= -> ->]|Hknown];
            [split; [|split]; vm_compute; intros;
             first [reflexivity|discriminate]|]).
    by apply elem_of_nil in Hknown.
  - unfold generate_new_name. rewrite Hknown. cbv zeta.
    set (base := PurePath.stem (clean_filename f (Some f))).
    split; [|split].
    + intros _. change (String.eqb "logos" "logos") with true.
      change (String.eqb "logos" "icons") with false.
      change (String.eqb "logos" "screenshots") with false.
      change (String.eqb "logos" "graphics") with false. cbn [andb].
      destruct (Str.startswith "logo-" base) eqn:Hs; cbn [negb].
      * by apply startswith_app_l.
      * rewrite app_assoc_str. apply (startswith_app "logo-").
    + intros _.
      change (String.eqb "screenshots" "logos") with false.
      change (String.eqb "screenshots" "icons") with false.
      change (String.eqb "screenshots" "screenshots") with true.
      change (String.eqb "screenshots" "graphics") with false. cbn [andb].
      destruct (Str.startswith "screenshot-" base) eqn:Hs; cbn [negb].
      * by apply startswith_app_l.
      * rewrite app_assoc_str. apply (startswith_app "screenshot-").
    + intros _ Hs. change (String.eqb "logos" "logos") with true.
      change (String.eqb "logos" "icons") with false.
      change (String.eqb "logos" "screenshots") with false.
      change (String.eqb "logos" "graphics") with false.
      by rewrite Hs.
Qed.

End PlanFacts.

(** X22 at the logo of [logo_acme_planned_path]. *)
Lemma logos_and_screenshots_carry_their_prefix_witness :
  Str.startswith "logo-"
    (OrganizePublicAssets.generate_new_name
       "abcdef0123456789abcdef01_logo-acme.png" "logos") = true.
Proof.
  apply (proj1 (logos_and_screenshots_carry_their_prefix
                  "abcdef0123456789abcdef01_logo-acme.png")).
  vm_compute; reflexivity.
Defined.

(** ** migrate-assets.py: what the clean-up removes and what it leaves *)

Section PathOrder.
Import FS.
Implicit Types (p q r : path).

Lemma string_compare_refl (a : string) : String.compare a a = Eq.
Proof. by apply OrderedTypeEx.String_as_OT.cmp_eq. Qed.

Lemma compare_refl p : compare p p = Eq.
Proof.
  induction p as [|a p IH]; cbn; [done|]. by rewrite string_compare_refl.
Qed.

Lemma compare_eq p q : compare p q = Eq → p = q.
Proof.
  revert q. induction p as [|a p IH]; intros [|b q]; cbn; try done.
  destruct (String.compare a b) eqn:Hab; try done.
  apply String.compare_eq_iff in Hab as ->. intros H. f_equal. by apply IH.
Qed.

Lemma compare_antisym p q : compare p q = CompOpp (compare q p).
Proof.
  revert q. induction p as [|a p IH]; intros [|b q]; cbn; try done.
  rewrite (String.compare_antisym b a).
  destruct (String.compare a b); cbn; try done.
Qed.

Lemma compare_lt_trans p q r :
  compare p q = Lt → compare q r = Lt → compare p r = Lt.
Proof.
  revert q r. induction p as [|a p IH]; intros [|b q] [|c r]; cbn; try done.
  destruct (String.compare a b) eqn:Hab; try done.
  - apply String.compare_eq_iff in Hab as ->.
    destruct (String.compare b c); try done. apply IH.
  - intros _. destruct (String.compare b c) eqn:Hbc; try done.
    + apply String.compare_eq_iff in Hbc as <-. by rewrite Hab.
    + intros _.
      apply OrderedTypeEx.String_as_OT.cmp_lt in Hab, Hbc.
      pose proof (OrderedTypeEx.String_as_OT.lt_trans _ _ _ Hab Hbc) as Hac.
      apply OrderedTypeEx.String_as_OT.cmp_lt in Hac.
      unfold OrderedTypeEx.String_as_OT.cmp in Hac. by rewrite Hac.
Qed.

Lemma ge_total : Total ge.
Proof.
  intros p q. unfold ge. rewrite (compare_antisym q p).
  destruct (compare p q); cbn; auto.
Qed.

Lemma ge_trans : Transitive ge.
Proof.
  intros p q r. unfold ge. intros Hpq Hqr Hpr.
  rewrite compare_antisym in Hpq, Hqr.
  destruct (compare q p) eqn:Hqp; cbn in Hpq; try done;
    destruct (compare r q) eqn:Hrq; cbn in Hqr; try done.
  - apply compare_eq in Hqp as ->. apply compare_eq in Hrq as ->.
    by rewrite compare_refl in Hpr.
  - apply compare_eq in Hqp as ->.
    rewrite compare_antisym, Hrq in Hpr. done.
  - apply compare_eq in Hrq as ->.
    rewrite compare_antisym, Hqp in Hpr. done.
  - pose proof (compare_lt_trans _ _ _ Hrq Hqp) as Hrp.
    rewrite compare_antisym, Hrp in Hpr. done.
Qed.

(** A path sorts after its parent. *)
Lemma compare_child p x : compare p (p ++ [x]) = Lt.
Proof.
  induction p as [|a p IH]; cbn; [done|]. by rewrite string_compare_refl.
Qed.

End PathOrder.

Section CleanupFrame.
Import FS MigrateAssets.
Variable PUBLIC_DIR : path.
Implicit Types (t : gmap path node) (p q d k : path) (l : list path).

Lemma cleanup_dir_effect t p :
  cleanup_dir PUBLIC_DIR t p = t
  ∨ (cleanup_dir PUBLIC_DIR t p = delete p t
     ∧ t !! p = Some Dir ∧ p ≠ PUBLIC_DIR).
Proof.
  unfold cleanup_dir, rmdir.
  destruct (is_dir t p) eqn:Hdir; [|by left]. cbn.
  case_bool_decide as Hpub; [|by left]. cbn.
  destruct (has_entries t p); [by left|]. cbn.
  case_bool_decide as Hroot; [|by left]. cbn. right. split; [done|].
  split; [|done]. unfold is_dir in Hdir. rewrite node_at_lookup in Hdir by done.
  by destruct (t !! p) as [[]|].
Qed.

Lemma rglob_below t p :
  p ∈ rglob_sorted_reverse t PUBLIC_DIR →
  is_below PUBLIC_DIR p = true ∧ p ≠ PUBLIC_DIR.
Proof.
  unfold rglob_sorted_reverse. rewrite merge_sort_Permutation.
  intros Hin. apply list_elem_of_In, filter_In in Hin as [_ Hp].
  apply andb_true_iff in Hp as [Hbelow Hne].
  by apply bool_decide_eq_true_1 in Hne.
Qed.

Lemma cleanup_loop_frame l t k :
  (∀ p, p ∈ l → is_below PUBLIC_DIR p = true) →
  fold_left (cleanup_dir PUBLIC_DIR) l t !! k = t !! k
  ∨ (fold_left (cleanup_dir PUBLIC_DIR) l t !! k = None
     ∧ t !! k = Some Dir ∧ is_below PUBLIC_DIR k = true ∧ k ≠ PUBLIC_DIR).
Proof.
  revert t. induction l as [|p l IH]; intros t Hl; cbn [fold_left]; [by left|].
  assert (Hl' : ∀ p, p ∈ l → is_below PUBLIC_DIR p = true).
  { intros p' Hp'. apply Hl. by apply list_elem_of_further. }
  destruct (cleanup_dir_effect t p) as [->|(-> & Hp & Hpub)]; [by apply IH|].
  destruct (decide (k = p)) as [->|Hne].
  - right. split; [|split; [done|split; [|done]]].
    + apply cleanup_keeps_absent, lookup_delete_eq.
    + apply Hl, list_elem_of_here.
  - destruct (IH (delete p t) Hl') as [H|(H1 & H2 & H3 & H4)].
    + left. by rewrite H, lookup_delete_ne.
    + right. rewrite lookup_delete_ne in H2 by done. done.
Qed.

(** X12.  The clean-up of a live run only ever removes directories that
    lie strictly below [PUBLIC_DIR]: every other entry of the tree, and in
    particular every regular file, [PUBLIC_DIR] itself and everything
    outside it, is after the clean-up what it was before, and nothing is
    created. *)
Theorem cleanup_only_removes_directories_below_public t k :
  cleanup PUBLIC_DIR t !! k = t !! k
  ∨ (cleanup PUBLIC_DIR t !! k = None
     ∧ t !! k = Some Dir ∧ is_below PUBLIC_DIR k = true ∧ k ≠ PUBLIC_DIR).
Proof.
  unfold cleanup. apply cleanup_loop_frame.
  intros p Hp. by apply rglob_below in Hp as [? _].
Qed.

Lemma cleanup_loop_keeps l t q :
  q ∉ l → fold_left (cleanup_dir PUBLIC_DIR) l t !! q = t !! q.
Proof.
  revert t. induction l as [|p l IH]; intros t Hq; cbn [fold_left]; [done|].
  apply not_elem_of_cons in Hq as [Hne Hq]. rewrite IH by done.
  destruct (cleanup_dir_cases PUBLIC_DIR t p) as [->| ->]; [done|].
  by rewrite lookup_delete_ne.
Qed.

Lemma cleanup_loop_only_deletes l t k x :
  fold_left (cleanup_dir PUBLIC_DIR) l t !! k = Some x → t !! k = Some x.
Proof.
  revert t. induction l as [|p l IH]; intros t; cbn [fold_left]; [done|].
  intros H. apply IH in H.
  destruct (cleanup_dir_cases PUBLIC_DIR t p) as [Heq|Heq]; rewrite Heq in H.
  - done.
  - by apply lookup_delete_Some in H as [_ H].
Qed.

Lemma has_entries_true t d q :
  is_Some (t !! q) → q ≠ [] → parent q = d → has_entries t d = true.
Proof.
  intros Hq Hne Hpar. destruct (has_entries t d) eqn:H; [done|].
  rewrite has_entries_false in H. by destruct (H q Hq Hne).
Qed.

Lemma has_entries_witness t d :
  has_entries t d = true → ∃ q, is_Some (t !! q) ∧ q ≠ [] ∧ parent q = d.
Proof.
  unfold has_entries. intros (q & Hq & Hb)%existsb_exists.
  apply bool_decide_eq_true_1 in Hb as [Hne Hpar].
  apply list_elem_of_In, list_elem_of_fmap in Hq as ([q' x] & -> & Hin).
  apply elem_of_map_to_list in Hin. exists q'. split; [by exists x|done].
Qed.

(** X13.  After the clean-up of a live run no empty directory is left
    strictly below [PUBLIC_DIR]: directories are visited deepest first, so
    that a directory whose only content was empty directories is removed
    as well. *)
Theorem cleanup_leaves_no_empty_directory t d :
  is_below PUBLIC_DIR d = true → d ≠ PUBLIC_DIR →
  cleanup PUBLIC_DIR t !! d = Some Dir →
  has_entries (cleanup PUBLIC_DIR t) d = true.
Proof.
  intros Hbelow Hpub Hd. unfold cleanup in *.
  set (L := rglob_sorted_reverse t PUBLIC_DIR) in *.
  assert (Hroot : d ≠ []).
  { intros ->. destruct PUBLIC_DIR; [done|]. by cbn in Hbelow. }
  assert (HdL : d ∈ L).
  { apply elem_of_rglob; [|done..]. exists Dir.
    by apply cleanup_loop_only_deletes in Hd. }
  assert (Hsorted : StronglySorted ge L).
  { pose proof ge_total. pose proof ge_trans.
    apply StronglySorted_merge_sort; apply _. }
  apply list_elem_of_split in HdL as (l1 & l2 & HL). rewrite HL in *.
  rewrite fold_left_app in *. cbn [fold_left] in *.
  set (t1 := fold_left (cleanup_dir PUBLIC_DIR) l1 t) in *.
  apply StronglySorted_app in Hsorted as (_ & _ & Hsorted).
  apply StronglySorted_cons in Hsorted as [Hafter _].
  assert (Hd1 : t1 !! d = Some Dir).
  { apply cleanup_loop_only_deletes in Hd.
    destruct (cleanup_dir_cases PUBLIC_DIR t1 d) as [Heq|Heq];
      rewrite Heq in Hd; [done|].
    by apply lookup_delete_Some in Hd as [_ ?]. }
  destruct (has_entries t1 d) eqn:Hentries.
  - apply has_entries_witness in Hentries as (q & Hq & Hqne & Hpar).
    assert (Hkeep : cleanup_dir PUBLIC_DIR t1 d = t1).
    { unfold cleanup_dir.
      rewrite (has_entries_true t1 d q Hq Hqne Hpar). cbn.
      by destruct (_ && _). }
    rewrite Hkeep in *.
    apply (has_entries_true _ d q); [|done..].
    rewrite cleanup_loop_keeps; [done|].
    intros Hin. rewrite Forall_forall in Hafter.
    specialize (Hafter q Hin). apply Hafter.
    destruct (parent_spec q Hqne) as [x Hx]. rewrite Hpar in Hx.
    rewrite Hx. apply compare_child.
  - rewrite (cleanup_dir_removes PUBLIC_DIR t1 d) in Hd by done.
    rewrite cleanup_keeps_absent in Hd; [done|apply lookup_delete_eq].
Qed.

End CleanupFrame.

(** X13 at a tree with an empty directory inside an otherwise empty
    directory: both are gone, and the directory that holds a file stays. *)
Lemma cleanup_leaves_no_empty_directory_witness :
  FS.has_entries
    (MigrateAssets.cleanup ApplierInputs.public_dir
       CleanupTrees.nested_empty_dirs)
    ["repo"; "public"; "keep"] = true.
Proof.
  apply (cleanup_leaves_no_empty_directory ApplierInputs.public_dir
           CleanupTrees.nested_empty_dirs ["repo"; "public"; "keep"]).
  - vm_compute; reflexivity.
  - vm_compute. discriminate.
  - vm_compute; reflexivity.
Defined.

(** ** The summaries of the two move passes *)

Section Accounting.
Import FS.

Lemma move_entry_counts CDN_ASSETS t s e :
  let s' := (ApplyImageMapping.move_entry CDN_ASSETS (t, s) e).2 in
  (ApplyImageMapping.moved s' + ApplyImageMapping.skipped s'
   = S (ApplyImageMapping.moved s + ApplyImageMapping.skipped s))%nat
  ∧ ((length (ApplyImageMapping.errors s) ≤ ApplyImageMapping.skipped s)%nat →
     (length (ApplyImageMapping.errors s') ≤ ApplyImageMapping.skipped s')%nat).
Proof.
  unfold ApplyImageMapping.move_entry. cbn [fst snd].
  repeat split_match; cbn; rewrite ?length_app; cbn; lia.
Qed.

Lemma move_loop_counts CDN_ASSETS m t s :
  let s' := (fold_left (ApplyImageMapping.move_entry CDN_ASSETS) m (t, s)).2 in
  (ApplyImageMapping.moved s' + ApplyImageMapping.skipped s'
   = length m + (ApplyImageMapping.moved s + ApplyImageMapping.skipped s))%nat
  ∧ ((length (ApplyImageMapping.errors s) ≤ ApplyImageMapping.skipped s)%nat →
     (length (ApplyImageMapping.errors s') ≤ ApplyImageMapping.skipped s')%nat).
Proof.
  revert t s. induction m as [|e m IH]; intros t s; cbn zeta; [cbn; lia|].
  cbn [fold_left].
  pose proof (move_entry_counts CDN_ASSETS t s e) as [H1 H2].
  destruct (ApplyImageMapping.move_entry CDN_ASSETS (t, s) e) as [t1 s1].
  cbn [snd] in H1, H2. destruct (IH t1 s1) as [H3 H4]. cbn [length]. split.
  - lia.
  - intros H. by apply H4, H2.
Qed.

(** X10.  When [apply-image-mapping.py] reaches its summary, every
    entry of the mapping has been counted exactly once, as moved or as
    skipped, and every error recorded belongs to a skipped entry. *)
Theorem apply_image_mapping_counts_every_entry CDN_ASSETS m t s :
  (ApplyImageMapping.main CDN_ASSETS m t).2 = Some s →
  (ApplyImageMapping.moved s + ApplyImageMapping.skipped s = length m)%nat
  ∧ (length (ApplyImageMapping.errors s) ≤ ApplyImageMapping.skipped s)%nat.
Proof.
  unfold ApplyImageMapping.main, ApplyImageMapping.move_all.
  destruct (ApplyImageMapping.create_target_dirs CDN_ASSETS m t) as [t' []];
    [|done].
  pose proof (move_loop_counts CDN_ASSETS m t' (ApplyImageMapping.Summary 0 0 []))
    as [H1 H2].
  destruct (fold_left _ m _) as [t'' s'']. cbn. intros [= <-].
  cbn in H1, H2. split; [lia|]. apply H2. lia.
Qed.

Lemma migrate_entry_counts PUBLIC_DIR dry_run st kv :
  match MigrateAssets.migrate_entry PUBLIC_DIR dry_run st kv with
  | MigrateAssets.Next st' =>
      (length (MigrateAssets.moved_files st') + length (MigrateAssets.errors st')
       = length (MigrateAssets.moved_files st) + length (MigrateAssets.errors st)
         + (if bool_decide (of_string (MigrateAssets.old_path kv.2)
                            = join PUBLIC_DIR (MigrateAssets.new_path kv.2))
            then 0 else 1))%nat
  | MigrateAssets.Escaped _ => True
  end.
Proof.
  destruct kv as [rel_path mapping]. unfold MigrateAssets.migrate_entry.
  cbn [snd]. case_bool_decide; [lia|].
  case_bool_decide; cbn; repeat split_match; rewrite ?length_app; cbn; try done;
    lia.
Qed.

Lemma migrate_loop_counts PUBLIC_DIR dry_run m st :
  match MigrateAssets.migrate_loop PUBLIC_DIR dry_run m st with
  | MigrateAssets.Next st' =>
      (length (MigrateAssets.moved_files st') + length (MigrateAssets.errors st')
       = length (MigrateAssets.moved_files st) + length (MigrateAssets.errors st)
         + length (filter (λ kv, of_string (MigrateAssets.old_path kv.2)
                                 ≠ join PUBLIC_DIR (MigrateAssets.new_path kv.2))
                          m))%nat
  | MigrateAssets.Escaped _ => True
  end.
Proof.
  revert st. induction m as [|kv m IH]; intros st; cbn [MigrateAssets.migrate_loop].
  { cbn. lia. }
  pose proof (migrate_entry_counts PUBLIC_DIR dry_run st kv) as H.
  destruct (MigrateAssets.migrate_entry PUBLIC_DIR dry_run st kv) as [st1|st1];
    [|done].
  specialize (IH st1).
  destruct (MigrateAssets.migrate_loop PUBLIC_DIR dry_run m st1); [|done].
  case_bool_decide as Hsame.
  - rewrite filter_cons_False by (intros Hne; by apply Hne). lia.
  - rewrite filter_cons_True by done. cbn [length]. lia.
Qed.

(** X11.  When [migrate_files] returns, dry run or live, every entry of
    the migration map that is not already in place has been reported
    exactly once, as a moved file or as an error. *)
Theorem migrate_files_reports_every_entry_once PUBLIC_DIR dry_run m t r :
  (MigrateAssets.migrate_files PUBLIC_DIR dry_run m t).2 = Some r →
  (length r.1 + length r.2
   = length (filter (λ kv, of_string (MigrateAssets.old_path kv.2)
                           ≠ join PUBLIC_DIR (MigrateAssets.new_path kv.2)) m))%nat.
Proof.
  unfold MigrateAssets.migrate_files.
  pose proof (migrate_loop_counts PUBLIC_DIR dry_run m
                (MigrateAssets.State t [] [] [])) as H.
  destruct (MigrateAssets.migrate_loop PUBLIC_DIR dry_run m _) as [st|st];
    [|done].
  cbn. intros [= <-]. cbn in *. lia.
Qed.

End Accounting.

(** X10 at a mapping whose second entry has no source on disk. *)
Lemma apply_image_mapping_counts_every_entry_witness :
  (ApplyImageMapping.moved AccountingInputs.one_moved_one_missing
   + ApplyImageMapping.skipped AccountingInputs.one_moved_one_missing
   = length AccountingInputs.second_source_missing)%nat
  ∧ (length (ApplyImageMapping.errors AccountingInputs.one_moved_one_missing)
     ≤ ApplyImageMapping.skipped AccountingInputs.one_moved_one_missing)%nat.
Proof.
  apply (apply_image_mapping_counts_every_entry ApplierInputs.cdn_assets
           AccountingInputs.second_source_missing
           ApplierInputs.one_image_tree).
  vm_compute; reflexivity.
Defined.

(** X11 at a dry run over a map with one entry to move. *)
Lemma migrate_files_reports_every_entry_once_witness :
  (length (AccountingInputs.dry_run_report).1
   + length (AccountingInputs.dry_run_report).2
   = length (filter (λ kv, FS.of_string (MigrateAssets.old_path kv.2)
                           ≠ FS.join ApplierInputs.public_dir
                               (MigrateAssets.new_path kv.2))
                    CleanupInputs.one_entry_map))%nat.
Proof.
  apply (migrate_files_reports_every_entry_once ApplierInputs.public_dir true
           CleanupInputs.one_entry_map CleanupInputs.tree_with_empty_dir).
  vm_compute; reflexivity.
Defined.

(** ** Files the rewriting scripts leave alone *)

Section Untouched.
Import Spec Steps.

Lemma edits_without_segments step s t :
  (∀ x y, step x y → Str.startswith "/cdn-assets/" x = true) →
  Str.contains "/cdn-assets/" s = false → edits step s t → t = s.
Proof.
  intros Hstep Hs H. induction H as [|c s t H IH|x y s t Hxy H IH].
  - done.
  - f_equal. apply IH. cbn [Str.contains] in Hs.
    by apply orb_false_iff in Hs as [_ ?].
  - apply Hstep in Hxy.
    apply (startswith_app_l _ _ s), contains_of_startswith in Hxy. congruence.
Qed.

(** X14.  [update_file_references] never writes a file in which the
    text [/cdn-assets/] does not occur, whatever the reverse map holds: it
    returns [False] and the file stays as it is. *)
Theorem file_without_asset_paths_is_not_written content rm :
  Str.contains "/cdn-assets/" content = false →
  UpdateAssetReferences.update_file_references (Some content) rm = (None, false).
Proof.
  intros Hno. unfold UpdateAssetReferences.update_file_references.
  rewrite (edits_without_segments (asset_step rm) content
             (UpdateAssetReferences.rewrite rm content)).
  - by rewrite String.eqb_refl.
  - by intros x y (? & _).
  - done.
  - apply asset_rewrite_edits.
Qed.

(** X15.  [update_file] of [update-image-references.py] never writes a
    file in which [/cdn-assets/] does not occur in any letter case,
    whatever the path mapping holds: no pattern pass and no [srcset] pass
    changes it, and it returns [False] and zero updates. *)
Theorem file_without_image_paths_is_not_written content pm :
  mentions_cdn content = false →
  UpdateImageReferences.update_file (Some content) pm = (None, (false, 0%nat)).
Proof.
  intros Hno. apply unresolved_file_is_left_alone.
  intros x Hseg Hx _. apply (mentions_cdn_segment x content) in Hx; [|done].
  congruence.
Qed.

End Untouched.

(** X14 and X15 at a page with an external link only. *)
Lemma file_without_asset_paths_is_not_written_witness :
  UpdateAssetReferences.update_file_references (Some RewriteFiles.plain_page)
    (UpdateAssetReferences.create_reverse_map ReverseMapInputs.two_logos)
  = (None, false).
Proof.
  apply (file_without_asset_paths_is_not_written RewriteFiles.plain_page).
  vm_compute; reflexivity.
Defined.

Lemma file_without_image_paths_is_not_written_witness :
  UpdateImageReferences.update_file (Some RewriteFiles.plain_page)
    (UpdateImageReferences.load_mapping RewriteInputs.one_image_mapping)
  = (None, (false, 0%nat)).
Proof.
  apply (file_without_image_paths_is_not_written RewriteFiles.plain_page).
  vm_compute; reflexivity.
Defined.

(** ** The counter of update-image-references.py *)

Section Counted.
Import Re Spec Steps.

Lemma drop_empty k : Str.drop k EmptyString = EmptyString.
Proof. by destruct k. Qed.

(** A substitution whose callback reports nothing has changed nothing. *)
Lemma subn_go_zero r repl :
  (∀ s m, match_here r s = Some m → (repl m).2 = 0%nat →
          (repl m).1 = group0 m) →
  ∀ s k, (subn_go r repl k s).2 = 0%nat →
         (subn_go r repl k s).1 = Str.drop k s.
Proof.
  intros Hrepl s. induction s as [|c s IH]; intros k; cbn [subn_go].
  - rewrite drop_empty. destruct k; [|done].
    destruct (match_here r EmptyString) as [m|] eqn:Hm; [|done].
    intros H0. rewrite (Hrepl _ _ Hm H0).
    apply match_here_sound in Hm as [Hs _].
    by destruct (group0 m).
  - destruct k as [|k]; [|apply IH].
    destruct (match_here r (String c s)) as [m|] eqn:Hm.
    + cbn [fst snd]. intros H0.
      assert (H1 : (repl m).2 = 0%nat) by lia.
      rewrite (Hrepl _ _ Hm H1).
      pose proof Hm as [Hs _]%match_here_sound.
      destruct (group0 m) as [|c' g] eqn:Hg; cbn [String.length] in H0 |- *.
      * cbn [fst snd] in H0 |- *. rewrite app_nil. cbn. f_equal.
        apply (IH O). lia.
      * rewrite app_cons in Hs. injection Hs as <- Hs.
        rewrite IH by lia. rewrite Hs at 1. rewrite drop_app_length.
        cbn. by rewrite app_cons, <- Hs.
    + cbn [fst snd]. intros H0. cbn. f_equal. by apply (IH O).
Qed.

Lemma replace_match_zero pm m :
  (UpdateImageReferences.replace_match pm m).2 = 0%nat →
  (UpdateImageReferences.replace_match pm m).1 = group0 m.
Proof.
  unfold UpdateImageReferences.replace_match. repeat split_match; done.
Qed.

Lemma update_srcset_zero pm m :
  (UpdateImageReferences.update_srcset pm m).2 = 0%nat →
  (UpdateImageReferences.update_srcset pm m).1 = group0 m.
Proof.
  unfold UpdateImageReferences.update_srcset.
  by destruct (length _).
Qed.

Lemma pattern_loop_zero pm pats content n :
  let r := fold_left
             (λ (acc : string * nat) (pat : regex * string),
                let r := subn pat.1 (UpdateImageReferences.replace_match pm) acc.1 in
                (r.1, (acc.2 + r.2)%nat))
             pats (content, n) in
  r.2 = 0%nat → r.1 = content ∧ n = 0%nat.
Proof.
  revert content n. induction pats as [|pat pats IH]; intros content n; cbn zeta.
  { cbn. done. }
  cbn [fold_left]. cbv beta zeta. cbn [fst snd].
  set (r1 := subn pat.1 (UpdateImageReferences.replace_match pm) content).
  intros H0. apply (IH r1.1 (n + r1.2)%nat) in H0 as [H1 H2].
  split; [|lia]. etransitivity; [exact H1|].
  apply (subn_go_zero _ _ (λ _ m _, replace_match_zero pm m) content O).
  fold (subn pat.1 (UpdateImageReferences.replace_match pm) content).
  fold r1. lia.
Qed.

Lemma rewrite_zero pm content :
  (UpdateImageReferences.rewrite pm content).2 = 0%nat →
  (UpdateImageReferences.rewrite pm content).1 = content.
Proof.
  unfold UpdateImageReferences.rewrite. cbv zeta.
  pose proof (pattern_loop_zero pm UpdateImageReferences.IMAGE_REF_PATTERNS
                content O) as Hloop.
  cbv zeta in Hloop.
  match type of Hloop with
  | context [fold_left ?f ?l ?a] => set (acc := fold_left f l a) in *
  end.
  cbn [fst snd]. intros H0.
  destruct Hloop as [H1 _]; [lia|].
  etransitivity; [|exact H1].
  rewrite H1 in H0 |- *.
  apply (subn_go_zero _ _ (λ _ m _, update_srcset_zero pm m) content O).
  fold (subn UpdateImageReferences.srcset_pattern
          (UpdateImageReferences.update_srcset pm) content). lia.
Qed.

(** X16.  Whenever [update_file] of [update-image-references.py] writes
    a file, it reports at least one update: content only changes through
    replacements that are counted. *)
Theorem written_file_has_counted_updates content pm new_content :
  (UpdateImageReferences.update_file (Some content) pm).1 = Some new_content →
  (1 ≤ (UpdateImageReferences.update_file (Some content) pm).2.2)%nat.
Proof.
  unfold UpdateImageReferences.update_file.
  pose proof (rewrite_zero pm content) as Hzero.
  destruct (UpdateImageReferences.rewrite pm content) as [c u].
  cbn [fst snd] in Hzero.
  destruct (String.eqb_spec c content) as [->|Hne]; cbn; [done|].
  intros _. destruct u as [|u]; [|lia]. by destruct Hne; apply Hzero.
Qed.

End Counted.

(** X16 at the page of [SecondRunInputs]. *)
Lemma written_file_has_counted_updates_witness :
  (1 ≤ (UpdateImageReferences.update_file (Some SecondRunInputs.page)
          (UpdateImageReferences.load_mapping RewriteInputs.one_image_mapping)).2.2)%nat.
Proof.
  apply (written_file_has_counted_updates SecondRunInputs.page
           (UpdateImageReferences.load_mapping RewriteInputs.one_image_mapping)
           CountedInputs.rewritten_page).
  vm_compute; reflexivity.
Defined.

(** ** The look-up tables of the rewriting scripts *)

Section Tables.
Import UpdateAssetReferences.

Lemma reverse_map_lookup_inv m key v :
  create_reverse_map m !! key = Some v →
  ∃ pre kv post,
    m = pre ++ kv :: post ∧ key ∈ bound_keys kv ∧ v = target kv.2
    ∧ ∀ kv', kv' ∈ post → key ∉ bound_keys kv'.
Proof.
  revert v. induction m as [|kv m IH] using rev_ind; intros v.
  { unfold create_reverse_map. cbn. by rewrite lookup_empty. }
  unfold create_reverse_map in *. rewrite fold_left_app. cbn [fold_left].
  rewrite bind_entry_lookup. case_bool_decide as Hin.
  - intros [= <-]. exists m, kv, []. split; [done|]. split; [done|].
    split; [done|]. intros kv' Hkv'. by apply elem_of_nil in Hkv'.
  - intros (pre & kv0 & post & -> & Hkey & -> & Hpost)%IH.
    exists pre, kv0, (post ++ [kv]). split; [by rewrite <- app_assoc|].
    split; [done|]. split; [done|].
    intros kv' [?| ->%list_elem_of_singleton]%elem_of_app; [by apply Hpost|done].
Qed.

(** X17.  [create_reverse_map] binds a key to the new path, below
    [/cdn-assets/], of the last entry of the migration map that names it
    (by old file name, stem, relative path, or those paths with a leading
    slash or [/cdn-assets/]), and leaves unbound a key that no entry
    names. *)
Theorem reverse_map_binds_last_entry m key v :
  create_reverse_map m !! key = Some v
  ↔ ∃ pre kv post,
      m = pre ++ kv :: post ∧ key ∈ bound_keys kv ∧ v = target kv.2
      ∧ ∀ kv', kv' ∈ post → key ∉ bound_keys kv'.
Proof.
  split; [apply reverse_map_lookup_inv|].
  intros (pre & kv & post & -> & Hkey & -> & Hpost).
  by apply create_reverse_map_last_binder.
Qed.

Lemma plan_values_entries PUBLIC_DIR d e :
  e ∈ Dict.values (Planner.organize_files PUBLIC_DIR d) →
  ∃ info, PlanEntries.asset_entry info e.
Proof.
  intros ([k e'] & -> & Hin)%list_elem_of_fmap. cbn.
  destruct (organize_files_entries PUBLIC_DIR d) as (Hk & Hnd & Hall).
  assert (Hget : Dict.get k (Planner.organize_files PUBLIC_DIR d) = Some e').
  { by apply elem_of_get. }
  assert (Hkin : k ∈ Dict.keys (Planner.scan_files PUBLIC_DIR d)).
  { rewrite <- Hk. by eapply get_elem_of_keys. }
  apply elem_of_keys in Hkin as [info Hinfo].
  destruct (Hall k info Hinfo) as (e & He & Hentry).
  exists info. congruence.
Qed.

(** X18.  When the reverse map is built from the document that
    [organize_files] itself writes, every target is the planned new path
    of some file with [/cdn-assets/] put in front: as the planned path
    already starts with [cdn-assets/], every rewritten reference starts
    with [/cdn-assets/cdn-assets/], which is not the path, below
    [PUBLIC_DIR], to which [migrate-assets.py] moves the file. *)
Theorem plan_targets_repeat_the_asset_root PUBLIC_DIR d key v :
  create_reverse_map (Documents.asset_entries (Planner.organize_files PUBLIC_DIR d))
    !! key = Some v →
  ∃ e, e ∈ Dict.values (Planner.organize_files PUBLIC_DIR d)
       ∧ v = "/cdn-assets/" +:+ Planner.new_path e
       ∧ Str.startswith "/cdn-assets/cdn-assets/" v = true
       ∧ v ≠ "/" +:+ Planner.new_path e.
Proof.
  intros (pre & kv & post & Hm & _ & -> & _)%reverse_map_lookup_inv.
  assert (Hin : kv ∈ Documents.asset_entries
                       (Planner.organize_files PUBLIC_DIR d)).
  { rewrite Hm. apply elem_of_app. right. apply list_elem_of_here. }
  unfold Documents.asset_entries in Hin.
  apply (list_elem_of_fmap (B := string * entry)) in Hin as ([k e] & -> & Hin).
  exists e. split; [by apply (list_elem_of_fmap_2 snd) in Hin|].
  split; [done|].
  apply (list_elem_of_fmap_2 snd) in Hin.
  destruct (plan_values_entries PUBLIC_DIR d e Hin) as (info & _ & _ & _ & _ & Hp).
  unfold target. cbn [snd new_path]. split; [by rewrite Hp|].
  intros H. apply (f_equal String.length) in H.
  rewrite !length_app_str in H. cbn in H. lia.
Qed.

Lemma bind_item_lookup pm it key :
  UpdateImageReferences.bind_item pm it !! key
  = if Str.startswith "/" (UpdateImageReferences.old_path it)
       && String.eqb key (Str.drop 1 (UpdateImageReferences.old_path it))
    then Some (if Str.startswith "/" (UpdateImageReferences.new_path it)
               then Str.drop 1 (UpdateImageReferences.new_path it)
               else UpdateImageReferences.new_path it)
    else if String.eqb key (UpdateImageReferences.old_path it)
         then Some (UpdateImageReferences.new_path it)
         else pm !! key.
Proof.
  unfold UpdateImageReferences.bind_item.
  destruct (Str.startswith "/" (UpdateImageReferences.old_path it)); cbn [andb].
  - destruct (String.eqb_spec key (Str.drop 1 (UpdateImageReferences.old_path it)))
      as [->|Hne].
    + by rewrite lookup_insert_eq.
    + rewrite lookup_insert_ne by done.
      destruct (String.eqb_spec key (UpdateImageReferences.old_path it))
        as [->|Hne'].
      * by rewrite lookup_insert_eq.
      * by rewrite lookup_insert_ne.
  - destruct (String.eqb_spec key (UpdateImageReferences.old_path it))
      as [->|Hne'].
    + by rewrite lookup_insert_eq.
    + by rewrite lookup_insert_ne.
Qed.

(** The two keys an item of the document of [organize-images.py]
    binds. *)
Lemma bind_planned_item pm k e key :
  OrganizeImages.old_path e = "/cdn-assets/" +:+ k →
  OrganizeImages.new_path e
    = "/cdn-assets/" +:+ OrganizeImages.new_relative e →
  UpdateImageReferences.bind_item pm
    (UpdateImageReferences.Item (OrganizeImages.old_path e)
       (OrganizeImages.new_path e)) !! key
  = if String.eqb key ("cdn-assets/" +:+ k)
    then Some ("cdn-assets/" +:+ OrganizeImages.new_relative e)
    else if String.eqb key ("/cdn-assets/" +:+ k)
         then Some ("/cdn-assets/" +:+ OrganizeImages.new_relative e)
         else pm !! key.
Proof.
  intros Hold Hnew. rewrite bind_item_lookup.
  cbn [UpdateImageReferences.old_path UpdateImageReferences.new_path].
  by rewrite Hold, Hnew.
Qed.

Lemma load_planned_items l pm k e :
  NoDup (Dict.keys l) → (k, e) ∈ l →
  Forall (λ kv, OrganizeImages.old_path kv.2 = "/cdn-assets/" +:+ kv.1
                ∧ OrganizeImages.new_path kv.2
                  = "/cdn-assets/" +:+ OrganizeImages.new_relative kv.2) l →
  let table := fold_left UpdateImageReferences.bind_item
                 (Dict.values (Documents.image_items l)) pm in
  table !! ("/cdn-assets/" +:+ k)
    = Some ("/cdn-assets/" +:+ OrganizeImages.new_relative e)
  ∧ table !! ("cdn-assets/" +:+ k)
    = Some ("cdn-assets/" +:+ OrganizeImages.new_relative e).
Proof.
  revert pm. induction l as [|[k' e'] l IH] using rev_ind; intros pm Hnd Hin Hall.
  { by apply elem_of_nil in Hin. }
  cbn zeta. unfold Documents.image_items, Dict.values.
  rewrite !map_app, fold_left_app. cbn [List.map fold_left fst snd].
  unfold Dict.keys in Hnd. rewrite map_app in Hnd. cbn in Hnd.
  apply NoDup_app in Hnd as (Hnd & Hfresh & _).
  apply Forall_app in Hall as [Hall Hlast].
  apply Forall_singleton in Hlast as [Hold Hnew]. cbn [fst snd] in Hold, Hnew.
  rewrite !(bind_planned_item _ k' e') by done.
  apply elem_of_app in Hin as [Hin|[= -> ->]%list_elem_of_singleton].
  - assert (Hne : k ≠ k').
    { intros ->. apply (Hfresh k'); [|apply list_elem_of_here].
      by apply (list_elem_of_fmap_2 fst) in Hin. }
    destruct (IH pm Hnd Hin Hall) as [H1 H2].
    unfold Documents.image_items, Dict.values in H1, H2. cbn zeta in H1, H2.
    split.
    + destruct (String.eqb_spec ("/cdn-assets/" +:+ k) ("cdn-assets/" +:+ k'))
        as [Heq|_]; [done|].
      destruct (String.eqb_spec ("/cdn-assets/" +:+ k) ("/cdn-assets/" +:+ k'))
        as [Heq|_]; [by apply app_inv_head_str in Heq|done].
    + destruct (String.eqb_spec ("cdn-assets/" +:+ k) ("cdn-assets/" +:+ k'))
        as [Heq|_]; [by apply app_inv_head_str in Heq|].
      destruct (String.eqb_spec ("cdn-assets/" +:+ k) ("/cdn-assets/" +:+ k'))
        as [Heq|_]; [done|done].
  - split.
    + destruct (String.eqb_spec ("/cdn-assets/" +:+ k') ("cdn-assets/" +:+ k'))
        as [Heq|_]; [done|]. by rewrite String.eqb_refl.
    + by rewrite String.eqb_refl.
Qed.

(** X19.  The document that [main] of [organize-images.py] writes is
    read back by [load_mapping] of [update-image-references.py] without
    loss: for every image of the document, its old path below
    [/cdn-assets/] is bound to its new path below [/cdn-assets/], and the
    same path without the leading slash to the new path without it; no
    item shadows another. *)
Theorem image_document_resolves_every_image CDN_ASSETS name_of v :
  ∃ m, OrganizeImages.main CDN_ASSETS name_of (Some v)
       = OrganizeImages.Returned (Some m)
       ∧ Forall (λ kv,
                   UpdateImageReferences.load_mapping (Documents.image_items m)
                     !! ("/cdn-assets/" +:+ kv.1)
                   = Some ("/cdn-assets/" +:+ OrganizeImages.new_relative kv.2)
                   ∧ UpdateImageReferences.load_mapping (Documents.image_items m)
                       !! ("cdn-assets/" +:+ kv.1)
                     = Some ("cdn-assets/" +:+ OrganizeImages.new_relative kv.2))
                m.
Proof.
  destruct (organize_images_items CDN_ASSETS name_of v) as (m & Hm & Hnd & Hall).
  exists m. split; [done|]. apply Forall_forall. intros [k e] Hin.
  by apply (load_planned_items m ∅ k e).
Qed.

End Tables.

(** X18 at the inventory [colliding_inventory]: the target bound to
    the file name [foo.png]. *)
Lemma plan_targets_repeat_the_asset_root_witness :
  ∃ e, e ∈ Dict.values (Planner.organize_files "/repo/public"
                          PlannerInputs.colliding_inventory)
       ∧ "/cdn-assets/cdn-assets/images/graphics/graphic-foo.png"
         = "/cdn-assets/" +:+ Planner.new_path e
       ∧ Str.startswith "/cdn-assets/cdn-assets/"
           "/cdn-assets/cdn-assets/images/graphics/graphic-foo.png" = true
       ∧ "/cdn-assets/cdn-assets/images/graphics/graphic-foo.png"
         ≠ "/" +:+ Planner.new_path e.
Proof.
  apply (plan_targets_repeat_the_asset_root "/repo/public"
           PlannerInputs.colliding_inventory "foo.png").
  vm_compute; reflexivity.
Defined.

(** ** convert-images-to-webp.py *)

Section Converter.
Import ConvertImagesToWebp.
Variable convert_image_to_webp : string → string → bool * string.

Lemma found_images_are_raster walk f :
  f ∈ find_images_to_convert walk →
  Str.lower (PurePath.suffix f) ∈ RASTER_EXTENSIONS
  ∧ Str.lower (PurePath.suffix f) ≠ ".svg"
  ∧ Str.lower (PurePath.suffix f) ≠ ".webp".
Proof.
  unfold find_images_to_convert. destruct walk as [files|].
  - intros Hin. apply list_elem_of_In, filter_In in Hin as [_ Hf].
    apply andb_true_iff in Hf as [_ Hraster].
    apply existsb_exists in Hraster as (x & Hx & ->%String.eqb_eq).
    split; [by apply list_elem_of_In|].
    cbn in Hx. split; intros ->; intuition discriminate.
  - intros Hin. by apply elem_of_nil in Hin.
Qed.

Lemma convert_one_log present log img :
  Str.lower (PurePath.suffix img) ≠ ".webp" →
  let st := convert_one convert_image_to_webp (present, log) img in
  (length (converted st.2) + length (skipped st.2) + length (errors st.2)
   = S (length (converted log) + length (skipped log) + length (errors log)))%nat
  ∧ (Forall (λ kv, kv.2 = "Output already exists") (skipped log) →
     Forall (λ kv, kv.2 = "Output already exists") (skipped st.2))
  ∧ (Forall (λ kv, kv.2 = with_suffix_webp kv.1) (converted log) →
     Forall (λ kv, kv.2 = with_suffix_webp kv.1) (converted st.2)).
Proof.
  intros Hwebp. unfold convert_one.
  destruct (String.eqb_spec (Str.lower (PurePath.suffix img)) ".webp"); [done|].
  destruct (existsb _ present); cbn.
  - rewrite length_app. cbn. split; [lia|]. split; [|done].
    intros H. apply Forall_app. split; [done|]. by apply Forall_singleton.
  - destruct (convert_image_to_webp img (with_suffix_webp img)) as [[] msg]; cbn;
      rewrite length_app; cbn; (split; [lia|]); split; try done.
    intros H. apply Forall_app. split; [done|]. by apply Forall_singleton.
Qed.

Lemma convert_loop_log images present log :
  (∀ img, img ∈ images → Str.lower (PurePath.suffix img) ≠ ".webp") →
  let st := fold_left (convert_one convert_image_to_webp) images (present, log) in
  (length (converted st.2) + length (skipped st.2) + length (errors st.2)
   = length images
     + (length (converted log) + length (skipped log) + length (errors log)))%nat
  ∧ (Forall (λ kv, kv.2 = "Output already exists") (skipped log) →
     Forall (λ kv, kv.2 = "Output already exists") (skipped st.2))
  ∧ (Forall (λ kv, kv.2 = with_suffix_webp kv.1) (converted log) →
     Forall (λ kv, kv.2 = with_suffix_webp kv.1) (converted st.2)).
Proof.
  revert present log.
  induction images as [|img images IH]; intros present log Himgs; cbn zeta.
  { cbn. split; [lia|done]. }
  cbn [fold_left].
  destruct (convert_one_log present log img) as (H1 & H2 & H3).
  { apply Himgs, list_elem_of_here. }
  destruct (convert_one convert_image_to_webp (present, log) img)
    as [present1 log1].
  destruct (IH present1 log1) as (H4 & H5 & H6).
  { intros img' Hin. by apply Himgs, list_elem_of_further. }
  cbn [snd length] in *. split; [lia|]. split; auto.
Qed.

(** X20.  The converter only ever takes files whose suffix, in lower
    case, is one of [RASTER_EXTENSIONS]: never an [.svg] and never a
    [.webp].  Its test for an image that is already WebP can therefore
    not succeed: every skip it logs is for an output that already
    exists. *)
Theorem converter_never_meets_a_webp_image images_dir :
  Forall (λ f, Str.lower (PurePath.suffix f) ∈ RASTER_EXTENSIONS
               ∧ Str.lower (PurePath.suffix f) ≠ ".svg"
               ∧ Str.lower (PurePath.suffix f) ≠ ".webp")
         (find_images_to_convert images_dir)
  ∧ match main convert_image_to_webp images_dir with
    | LogWritten log _ =>
        Forall (λ kv, kv.2 = "Output already exists") (skipped log)
    | _ => True
    end.
Proof.
  split.
  - apply Forall_forall. intros f. apply found_images_are_raster.
  - unfold main. destruct images_dir as [files|]; [|done].
    destruct (find_images_to_convert (Some files)) as [|img images] eqn:Hfound;
      [done|].
    destruct (convert_loop_log (img :: images) files (Log [] [] []))
      as (_ & H & _).
    + intros f Hf. rewrite <- Hfound in Hf.
      by apply found_images_are_raster in Hf as (_ & _ & ?).
    + by apply H.
Qed.

(** X21.  When the converter writes its log, every image found is in
    it exactly once, as converted, skipped or failed; a converted image
    is logged with its own path under the suffix [.webp]; and the exit
    status is 1 exactly when a conversion failed. *)
Theorem converter_logs_every_image_once images_dir :
  match main convert_image_to_webp images_dir with
  | LogWritten log status =>
      (length (converted log) + length (skipped log) + length (errors log)
       = length (find_images_to_convert images_dir))%nat
      ∧ Forall (λ kv, kv.2 = with_suffix_webp kv.1) (converted log)
      ∧ (status = 1%nat ↔ errors log ≠ [])
      ∧ (status = 0%nat ↔ errors log = [])
  | NothingToConvert => find_images_to_convert images_dir = []
  | ExitNotFound => images_dir = None
  end.
Proof.
  unfold main. destruct images_dir as [files|]; [|done].
  destruct (find_images_to_convert (Some files)) as [|img images] eqn:Hfound;
    [done|].
  destruct (convert_loop_log (img :: images) files (Log [] [] []))
    as (H1 & _ & H3).
  { intros f Hf. rewrite <- Hfound in Hf.
    by apply found_images_are_raster in Hf as (_ & _ & ?). }
  cbn zeta in *. split; [cbn in H1 |- *; lia|]. split; [by apply H3|].
  destruct (errors _); split; split; done.
Qed.

End Converter.

(** ** What apply-image-mapping.py leaves alone *)

Section MoveFrame.
Import FS ApplyImageMapping Repeatable.
Variable CDN_ASSETS : path.
Implicit Types (t : gmap path node) (p q k src dst : path).

Lemma is_below_false base p : is_below base p = false ↔ ∀ rest, p ≠ base ++ rest.
Proof.
  split.
  - intros H rest ->. assert (is_below base (base ++ rest) = true) as Ht.
    { apply is_below_spec. by exists rest. }
    congruence.
  - intros H. destruct (is_below base p) eqn:Hb; [|done].
    apply is_below_spec in Hb as [rest ->]. by destruct (H rest).
Qed.

Lemma rename_subtree_frame src dst t k :
  is_below src k = false → is_below dst k = false →
  rename_subtree src dst t !! k = t !! k.
Proof.
  intros Hsrc Hdst. unfold rename_subtree.
  rewrite is_below_false in Hdst.
  assert (Hrel : relative_to src k = None).
  { unfold is_below in Hsrc. by destruct (relative_to src k). }
  set (f := λ kv : path * node,
              (match relative_to src kv.1 with
               | Some rest => dst ++ rest
               | None => kv.1
               end, kv.2)).
  assert (Hf : ∀ kv y, (k, y) = f kv → kv = (k, y)).
  { intros [k' y'] y. unfold f. cbn.
    destruct (relative_to src k') as [rest|]; intros [= -> ->]; [|done].
    by destruct (Hdst rest). }
  destruct (t !! k) as [x|] eqn:Hk.
  - apply elem_of_list_to_map_1'.
    + intros y Hy. apply (list_elem_of_fmap (B := path * node)) in Hy
        as (kv & Heq & Hin).
      apply Hf in Heq as ->. apply elem_of_map_to_list in Hin. congruence.
    + apply (list_elem_of_fmap (B := path * node)). exists (k, x). split.
      * unfold f. cbn. by rewrite Hrel.
      * by apply elem_of_map_to_list.
  - apply not_elem_of_list_to_map_1.
    intros ([k1 y1] & Hk1 & Hin)%list_elem_of_fmap. cbn in Hk1. subst k1.
    apply (list_elem_of_fmap (B := path * node)) in Hin as (kv & Heq & Hin).
    apply Hf in Heq as ->. apply elem_of_map_to_list in Hin. congruence.
Qed.

Lemma mkdir_parents_frame t p t' k :
  mkdir_parents t p = Some t' → k ∉ prefixes p → t' !! k = t !! k.
Proof.
  intros Hmk Hk. rewrite (mkdir_parents_lookup t p t' k Hmk).
  destruct (t !! k); [done|]. by rewrite bool_decide_eq_false_2.
Qed.

(** The directories above a path that lies at a destination or directly
    inside it are the destination or the directories above it. *)
Lemma prefixes_of_real_parent dst rest k :
  rest = [] ∨ (∃ b, rest = [b]) →
  k ∈ prefixes (parent (dst ++ rest)) →
  k = dst ∨ k ∈ prefixes (parent dst).
Proof.
  intros Hrest Hk. destruct Hrest as [->|[b ->]].
  - right. by rewrite app_nil_r in Hk.
  - unfold parent in Hk. rewrite removelast_last in Hk.
    apply elem_of_prefixes in Hk as [Hne [r Hr]].
    destruct r as [|x r _] using rev_ind.
    + left. by rewrite app_nil_r in Hr.
    + right. apply elem_of_prefixes. split; [done|]. exists r.
      rewrite Hr, app_assoc. unfold parent. by rewrite removelast_last.
Qed.

Lemma shutil_move_frame t src dst t' k :
  shutil_move t src dst = Some t' →
  is_below src k = false → is_below dst k = false →
  k ∉ prefixes (parent dst) → t' !! k = t !! k.
Proof.
  intros Hmove Hsrc Hdst Hpre. unfold shutil_move in Hmove.
  destruct (is_dir t dst && bool_decide (src = dst)); [by injection Hmove as <-|].
  set (real := if is_dir t dst then dst ++ [basename src] else dst) in *.
  assert (Hreal : ∃ rest, real = dst ++ rest ∧ (rest = [] ∨ ∃ b, rest = [b])).
  { unfold real. destruct (is_dir t dst).
    - exists [basename src]. split; [done|]. right. by eexists.
    - exists []. split; [by rewrite app_nil_r|by left]. }
  destruct Hreal as (rest & Hreal & Hrest).
  assert (Hk_real : is_below real k = false).
  { apply is_below_false. intros r ->. rewrite is_below_false in Hdst.
    apply (Hdst (rest ++ r)). by rewrite Hreal, <- app_assoc. }
  assert (Hk_src : k ≠ src).
  { intros ->. rewrite is_below_false in Hsrc. apply (Hsrc []).
    by rewrite app_nil_r. }
  assert (Hk_ne : k ≠ real).
  { intros ->. rewrite is_below_false in Hk_real. apply (Hk_real []).
    by rewrite app_nil_r. }
  destruct (is_dir t dst && exists_ t real); [done|].
  destruct (node_at t src) as [[data|]|]; [| |done].
  - destruct (is_dir t (parent real)); [|done]. injection Hmove as <-.
    by rewrite lookup_insert_ne, lookup_delete_ne.
  - destruct (is_below src real); [done|].
    destruct (exists_ t real); [done|].
    destruct (is_dir t (parent real)).
    + injection Hmove as <-. by apply rename_subtree_frame.
    + destruct (mkdir_parents t (parent real)) as [t1|] eqn:Hmk; [|done].
      injection Hmove as <-. rewrite rename_subtree_frame by done.
      apply (mkdir_parents_frame _ _ _ _ Hmk). intros Hin.
      rewrite Hreal in Hin.
      apply prefixes_of_real_parent in Hin as [->|Hin]; [|done..].
      rewrite is_below_false in Hdst. apply (Hdst []). by rewrite app_nil_r.
Qed.

Lemma named_false m k e :
  Frame.named CDN_ASSETS m k = false → e ∈ m →
  is_below (old_of CDN_ASSETS e) k = false
  ∧ is_below (new_of CDN_ASSETS e) k = false
  ∧ k ∉ prefixes (parent (new_of CDN_ASSETS e)).
Proof.
  unfold Frame.named. intros Hnamed He.
  destruct (is_below (old_of CDN_ASSETS e) k
            || is_below (new_of CDN_ASSETS e) k
            || bool_decide (k ∈ prefixes (parent (new_of CDN_ASSETS e))))
    eqn:Hb.
  - assert (Htrue : existsb
               (λ e, is_below (old_of CDN_ASSETS e) k
                     || is_below (new_of CDN_ASSETS e) k
                     || bool_decide
                          (k ∈ prefixes (parent (new_of CDN_ASSETS e)))) m
             = true).
    { apply existsb_exists. exists e. split; [by apply list_elem_of_In|exact Hb]. }
    congruence.
  - apply orb_false_iff in Hb as [Hb H3]. apply orb_false_iff in Hb as [H1 H2].
    split; [done|]. split; [done|]. by apply bool_decide_eq_false_1 in H3.
Qed.

Lemma move_entry_frame t s e k :
  is_below (old_of CDN_ASSETS e) k = false →
  is_below (new_of CDN_ASSETS e) k = false →
  k ∉ prefixes (parent (new_of CDN_ASSETS e)) →
  (move_entry CDN_ASSETS (t, s) e).1 !! k = t !! k.
Proof.
  intros Hold Hnew Hpre. unfold move_entry.
  fold (old_of CDN_ASSETS e). fold (new_of CDN_ASSETS e).
  destruct (negb _); [done|]. destruct (bool_decide _); [done|].
  destruct (mkdir_parents t _) as [t1|] eqn:Hmk; [|done].
  pose proof (mkdir_parents_frame _ _ _ k Hmk Hpre) as H1.
  destruct (shutil_move t1 _ _) as [t2|] eqn:Hmove; cbn [fst]; [|done].
  by rewrite (shutil_move_frame _ _ _ _ k Hmove).
Qed.

Lemma move_loop_frame todo t s k :
  (∀ e, e ∈ todo →
        is_below (old_of CDN_ASSETS e) k = false
        ∧ is_below (new_of CDN_ASSETS e) k = false
        ∧ k ∉ prefixes (parent (new_of CDN_ASSETS e))) →
  (fold_left (move_entry CDN_ASSETS) todo (t, s)).1 !! k = t !! k.
Proof.
  revert t s. induction todo as [|e todo IH]; intros t s Hall; [done|].
  cbn [fold_left].
  destruct (Hall e (list_elem_of_here _ _)) as (H1 & H2 & H3).
  pose proof (move_entry_frame t s e k H1 H2 H3) as Hstep.
  destruct (move_entry CDN_ASSETS (t, s) e) as [t1 s1]. cbn [fst] in Hstep.
  rewrite IH; [done|]. intros e' He'. by apply Hall, list_elem_of_further.
Qed.

Lemma create_target_dirs_frame todo t k :
  (∀ e, e ∈ todo → k ∉ prefixes (parent (new_of CDN_ASSETS e))) →
  (create_target_dirs CDN_ASSETS todo t).1 !! k = t !! k.
Proof.
  revert t. induction todo as [|[o n] todo IH]; intros t Hall; [done|].
  cbn [create_target_dirs].
  destruct (mkdir_parents t _) as [t1|] eqn:Hmk; [|done].
  rewrite IH.
  - apply (mkdir_parents_frame _ _ _ _ Hmk).
    apply (Hall (o, n)), list_elem_of_here.
  - intros e He. by apply Hall, list_elem_of_further.
Qed.

(** X23.  [apply-image-mapping.py] leaves alone whatever its mapping
    does not name.  When no path of the mapping has a [..] component, a
    path that is not at or below the source or the destination of any
    entry, and is not a directory above a destination, holds after the
    run what it held before, whether the run moves files, skips them or
    dies while creating the target directories. *)
Theorem apply_image_mapping_leaves_unnamed_paths m t k :
  Repeatable.plain CDN_ASSETS m = true →
  Frame.named CDN_ASSETS m k = false →
  (main CDN_ASSETS m t).1 !! k = t !! k.
Proof.
  intros _ Hnamed. unfold main.
  pose proof (create_target_dirs_frame m t k) as Hdirs.
  destruct (create_target_dirs CDN_ASSETS m t) as [t1 []]; cbn [fst] in *.
  - unfold move_all.
    pose proof (move_loop_frame m t1 (Summary 0 0 []) k) as Hloop.
    destruct (fold_left _ m _) as [t2 s2]. cbn [fst] in *.
    rewrite Hloop, Hdirs; [done| |].
    + intros e He. by apply (named_false m k e) in Hnamed as (_ & _ & ?).
    + intros e He. by apply (named_false m k e).
  - apply Hdirs. intros e He.
    by apply (named_false m k e) in Hnamed as (_ & _ & ?).
Qed.

End MoveFrame.

(** X23 at a tree with a file the mapping does not name. *)
Lemma apply_image_mapping_leaves_unnamed_paths_witness :
  (ApplyImageMapping.main ApplierInputs.cdn_assets SecondRunInputs.one_move
     FrameInputs.tree_with_bystander).1
    !! ["repo"; "public"; "cdn-assets"; "z.png"]
  = FrameInputs.tree_with_bystander !! ["repo"; "public"; "cdn-assets"; "z.png"].
Proof.
  apply (apply_image_mapping_leaves_unnamed_paths ApplierInputs.cdn_assets
           SecondRunInputs.one_move FrameInputs.tree_with_bystander).
  - vm_compute; reflexivity.
  - vm_compute; reflexivity.
Defined.

(** ** update-asset-references.py: the files it visits *)

Section Visited.
Import AssetReferenceFiles Steps.

Lemma contains_segment x s : segment x s → Str.contains x s = true.
Proof.
  intros (u & v & ->). induction u as [|c u IH].
  - rewrite app_nil. apply contains_of_startswith, startswith_app.
  - rewrite app_cons. cbn [Str.contains]. rewrite IH. apply orb_true_r.
Qed.

Lemma take_drop_str n s : Str.take n s +:+ Str.drop n s = s.
Proof.
  revert s. induction n as [|n IH]; intros [|c s]; try done.
  cbn [Str.take Str.drop]. by rewrite app_cons, IH.
Qed.

Lemma endswith_segment p s : Str.endswith p s = true → segment p s.
Proof.
  unfold Str.endswith. intros [Hlen Heq]%andb_true_iff.
  apply String.eqb_eq in Heq.
  exists (Str.take (String.length s - String.length p) s), EmptyString.
  rewrite app_empty_r.
  etransitivity;
    [symmetry; apply (take_drop_str (String.length s - String.length p))|].
  by rewrite Heq.
Qed.

Lemma name_segment s : PurePath.name s ≠ EmptyString → segment (PurePath.name s) s.
Proof.
  unfold PurePath.name. intros Hne.
  destruct (PurePath.parts s) as [|p ps] eqn:Hparts; [done|].
  assert (Hin : List.last (p :: ps) EmptyString ∈ PurePath.parts s).
  { rewrite Hparts. by apply last_elem_of. }
  unfold PurePath.parts in Hin. apply list_elem_of_filter in Hin as [_ Hin].
  by apply split_segment in Hin.
Qed.

Lemma files_of_pattern_skips tree suffix f :
  f ∈ files_of_pattern tree suffix →
  Forall (λ part, Str.contains part f = false) SKIPPED_PARTS
  ∧ ∃ e, e ∈ tree ∧ de_path e = f ∧ de_is_file e = true
         ∧ Str.endswith suffix (PurePath.name f) = true.
Proof.
  unfold files_of_pattern, glob.
  intros (e & -> & Hin)%(list_elem_of_fmap (B := string)).
  apply list_elem_of_In, filter_In in Hin as [Hin Hkeep].
  apply filter_In in Hin as [Hin Hsuffix].
  apply andb_true_iff in Hkeep as [Hskip Hfile].
  apply negb_true_iff in Hskip. split.
  - apply Forall_forall. intros part Hpart.
    destruct (Str.contains part (de_path e)) eqn:Hc; [|done].
    assert (existsb (λ part, Str.contains part (de_path e)) SKIPPED_PARTS = true)
      as Ht; [|congruence].
    apply existsb_exists. exists part. split; [by apply list_elem_of_In|done].
  - exists e. split; [by apply list_elem_of_In|done].
Qed.

Lemma files_of_pattern_no_astro tree suffix f :
  f ∈ files_of_pattern tree suffix →
  Str.endswith ".astro" (PurePath.name f) = false.
Proof.
  intros [Hskip _]%files_of_pattern_skips.
  destruct (Str.endswith ".astro" (PurePath.name f)) eqn:Hend; [|done].
  rewrite Forall_forall in Hskip.
  rewrite <- (Hskip ".astro"); [|by repeat constructor].
  symmetry. apply contains_segment.
  apply segment_trans with (PurePath.name f); [by apply endswith_segment|].
  apply name_segment. intros Hname. by rewrite Hname in Hend.
Qed.

(** X24.  [find_files_to_update] returns regular files only, each
    matched by one of the search patterns, and none whose path contains
    [node_modules], [.git], [dist] or [.astro].  As the path of a file
    whose name ends with [.astro] contains [.astro], the first search
    pattern never yields a file: [update-asset-references.py] does not
    visit, and so never rewrites, any [.astro] file. *)
Theorem asset_references_skip_astro_files tree :
  files_of_pattern tree ".astro" = []
  ∧ Forall (λ f, Forall (λ part, Str.contains part f = false) SKIPPED_PARTS
                 ∧ Str.endswith ".astro" (PurePath.name f) = false
                 ∧ ∃ e suffix, e ∈ tree ∧ de_path e = f ∧ de_is_file e = true
                               ∧ suffix ∈ SEARCH_PATTERNS
                               ∧ Str.endswith suffix (PurePath.name f) = true)
           (find_files_to_update tree).
Proof.
  pose proof (files_of_pattern_no_astro tree) as Hastro.
  split.
  - destruct (files_of_pattern tree ".astro") as [|f l] eqn:Hl; [done|].
    assert (Hf : f ∈ files_of_pattern tree ".astro").
    { rewrite Hl. apply list_elem_of_here. }
    pose proof (Hastro _ _ Hf) as Hno.
    apply files_of_pattern_skips in Hf as (_ & e & _ & _ & _ & Hend).
    congruence.
  - apply Forall_forall. intros f Hf. unfold find_files_to_update in Hf.
    apply list_elem_of_In, in_flat_map in Hf as (suffix & Hsuffix & Hf).
    apply list_elem_of_In in Hf, Hsuffix.
    split; [by apply files_of_pattern_skips in Hf as [? _]|].
    split; [by eapply Hastro|].
    apply files_of_pattern_skips in Hf as (_ & e & ? & ? & ? & ?).
    by exists e, suffix.
Qed.

Lemma update_one_effect rm st a :
  ((update_one rm st a).2 ≤ S st.2)%nat
  ∧ ∀ f, (update_one rm st a).1 !! f = st.1 !! f
         ∨ (f = a ∧ is_Some (st.1 !! f)
            ∧ is_Some ((update_one rm st a).1 !! f)).
Proof.
  unfold update_one, UpdateAssetReferences.update_file_references.
  destruct (st.1 !! a) as [c|] eqn:Hc; [|split; [lia|by left]].
  destruct (negb _); cbn [fst snd]; [|split; [lia|by left]].
  split; [lia|]. intros f. destruct (decide (f = a)) as [->|Hne].
  - right. rewrite lookup_insert_eq, Hc. by eauto.
  - left. by rewrite lookup_insert_ne.
Qed.

Lemma update_loop_effect rm l st :
  ((fold_left (update_one rm) l st).2 ≤ st.2 + length l)%nat
  ∧ ∀ f, (fold_left (update_one rm) l st).1 !! f = st.1 !! f
         ∨ (f ∈ l ∧ is_Some (st.1 !! f)
            ∧ is_Some ((fold_left (update_one rm) l st).1 !! f)).
Proof.
  revert st. induction l as [|a l IH]; intros st; cbn [fold_left length].
  { split; [lia|by left]. }
  destruct (IH (update_one rm st a)) as [Hcount Hframe].
  destruct (update_one_effect rm st a) as [Hone Hstep].
  split; [lia|]. intros f.
  destruct (Hframe f) as [Heq|(Hin & Hsome & Hres)];
    destruct (Hstep f) as [Heq'|(-> & Hsome' & Hres')].
  - left. congruence.
  - right. split; [apply list_elem_of_here|]. split; [done|]. by rewrite Heq.
  - right. split; [by apply list_elem_of_further|]. split; [|done].
    by rewrite <- Heq'.
  - right. split; [apply list_elem_of_here|]. done.
Qed.

(** X25.  [main] of [update-asset-references.py] reports at most as
    many updated files as [find_files_to_update] returned, and it
    leaves the content of every path as it was, except for files it
    visited that could be read: a path outside the result of
    [find_files_to_update], such as any [.astro] file, is never
    written or created. *)
Theorem asset_references_main_writes_only_visited_files
    migration_map tree contents :
  ((main migration_map tree contents).2
     ≤ length (find_files_to_update tree))%nat
  ∧ ∀ f, (main migration_map tree contents).1 !! f = contents !! f
         ∨ (f ∈ find_files_to_update tree
            ∧ Str.endswith ".astro" (PurePath.name f) = false
            ∧ is_Some (contents !! f)
            ∧ is_Some ((main migration_map tree contents).1 !! f)).
Proof.
  unfold main.
  destruct (update_loop_effect
              (UpdateAssetReferences.create_reverse_map migration_map)
              (find_files_to_update tree) (contents, O)) as [Hcount Hframe].
  split; [exact Hcount|]. intros f.
  destruct (Hframe f) as [Heq|(Hin & Hsome & Hres)]; [by left|right].
  split; [done|]. split; [|done].
  unfold find_files_to_update in Hin.
  apply list_elem_of_In, in_flat_map in Hin as (suffix & _ & Hin).
  apply list_elem_of_In in Hin. by eapply files_of_pattern_no_astro.
Qed.

End Visited.

(** ** organize-public-assets.py: cleaned names *)

Section CleanedNames.
Import OrganizePublicAssets.

Lemma findall_go_nonempty r skip s :
  Forall (λ w, w ≠ EmptyString) (Re.findall_go r skip s).
Proof.
  revert skip. induction s as [|c s IH]; intros skip; cbn [Re.findall_go].
  { constructor. }
  destruct skip as [|k]; [|apply IH].
  destruct (Re.match_here r (String c s)) as [m|]; [|apply IH].
  destruct (String.length (Re.group0 m)) eqn:Hlen; [apply IH|].
  constructor; [|apply IH]. intros Hm. by rewrite Hm in Hlen.
Qed.

Lemma join_nonempty sep x l :
  x ≠ EmptyString → Str.join sep (x :: l) ≠ EmptyString.
Proof. intros Hx. destruct x; [done|]. by destruct l. Qed.

Lemma app_nonempty_l s t : s ≠ EmptyString → s +:+ t ≠ EmptyString.
Proof. by destruct s. Qed.

Lemma meaningful_parts_nonempty (l : list string) :
  Forall (λ w, w ≠ EmptyString)
    (List.filter (λ p, (2 <? String.length p)%nat && negb (Str.isdigit p)) l).
Proof.
  apply Forall_forall. intros w Hw.
  apply list_elem_of_In, filter_In in Hw as [_ Hw].
  apply andb_true_iff in Hw as [Hlen _]. intros ->. by cbn in Hlen.
Qed.

(** X26.  [clean_filename] never returns an empty name, and the name
    it returns ends with the lower-cased suffix of the name it was
    given. *)
Theorem clean_filename_keeps_the_extension filename original_filename :
  clean_filename filename original_filename ≠ EmptyString
  ∧ Str.endswith (Str.lower (PurePath.suffix filename))
      (clean_filename filename original_filename) = true.
Proof.
  unfold clean_filename. cbv zeta.
  match goal with
  | |- context [if Str.endswith ?e ?b then _ else _] =>
      set (body := b); set (ext := e)
  end.
  assert (Hbody : body ≠ EmptyString).
  { subst body.
    match goal with
    | |- (if String.eqb ?f _ || _ then ?fb else _) ≠ _ =>
        set (cleaned := f); set (fallback := fb)
    end.
    assert (Hfallback : fallback ≠ EmptyString).
    { subst fallback.
      match goal with
      | |- match ?l ++ ?ws with _ => _ end ≠ _ =>
          assert (Hparts : Forall (λ p, p ≠ EmptyString) (l ++ ws));
          [|destruct (l ++ ws) as [|x xs]]
      end.
      - apply Forall_app. split; [|apply findall_go_nonempty].
        destruct (Str.contains "_" _);
          [apply meaningful_parts_nonempty|constructor].
      - destruct original_filename as [original|]; [|done].
        destruct (negb _); [|done].
        by destruct (Re.match_here re_hash8 original).
      - apply Forall_cons in Hparts as [Hx _].
        cbn [firstn]. by apply join_nonempty. }
    destruct (String.eqb cleaned EmptyString) eqn:He; cbn [orb]; [done|].
    apply String.eqb_neq in He.
    by destruct (String.eqb cleaned _). }
  destruct (Str.endswith ext body) eqn:Hend; cbv iota.
  - split; [exact Hbody|exact Hend].
  - split; [by apply app_nonempty_l|apply endswith_app].
Qed.

End CleanedNames.

(** ** migrate-assets.py: what a run leaves alone *)

Section MigrateUntouched.
Import FS MigrateAssets.
Variable PUBLIC_DIR : path.
Implicit Types (t : gmap path node) (k : path) (st : state).

Lemma migrate_named_false m k kv :
  MigrateFrame.named PUBLIC_DIR m k = false → kv ∈ m →
  is_below (of_string (old_path kv.2)) k = false
  ∧ is_below (join PUBLIC_DIR (new_path kv.2)) k = false
  ∧ k ∉ prefixes (parent (join PUBLIC_DIR (new_path kv.2))).
Proof.
  unfold MigrateFrame.named. intros Hnamed Hin.
  destruct (is_below (of_string (old_path kv.2)) k
            || is_below (join PUBLIC_DIR (new_path kv.2)) k
            || bool_decide
                 (k ∈ prefixes (parent (join PUBLIC_DIR (new_path kv.2)))))
    eqn:Hb.
  - apply not_true_iff_false in Hnamed. destruct Hnamed.
    apply existsb_exists. exists kv. split; [by apply list_elem_of_In|exact Hb].
  - apply orb_false_iff in Hb as [Hb H3]. apply orb_false_iff in Hb as [H1 H2].
    split; [done|]. split; [done|]. by apply bool_decide_eq_false_1 in H3.
Qed.

Lemma migrate_entry_frame dry_run st kv k :
  is_below (of_string (old_path kv.2)) k = false →
  is_below (join PUBLIC_DIR (new_path kv.2)) k = false →
  k ∉ prefixes (parent (join PUBLIC_DIR (new_path kv.2))) →
  match migrate_entry PUBLIC_DIR dry_run st kv with
  | Next st' | Escaped st' => tree st' !! k = tree st !! k
  end.
Proof.
  destruct kv as [rel_path mapping]. cbn [snd]. intros Hold Hnew Hpre.
  unfold migrate_entry.
  set (old := of_string (old_path mapping)) in *.
  set (new := join PUBLIC_DIR (new_path mapping)) in *.
  destruct (bool_decide (old = new)); [done|].
  assert (Hmid : ∀ st1,
    tree st1 !! k = tree st !! k →
    match
      (if exists_ (tree st1) old then
         match
           (if dry_run then (tree st1, true)
            else
              match mkdir_parents (tree st1) (parent new) with
              | None => (tree st1, false)
              | Some t1 =>
                  match shutil_move t1 old new with
                  | Some t2 => (t2, true)
                  | None => (t1, false)
                  end
              end)
         with
         | (t', false) =>
             Next (State t' (created_dirs st1) (moved_files st1)
                     (errors st1 ++ [Error rel_path exception_text]))
         | (t2, true) =>
             match relative_to PUBLIC_DIR old with
             | Some rel =>
                 Next (State t2 (created_dirs st1)
                         (moved_files st1
                            ++ [MovedFile (rel_string rel) (new_path mapping)])
                         (errors st1))
             | None =>
                 Next (State t2 (created_dirs st1) (moved_files st1)
                         (errors st1 ++ [Error rel_path exception_text]))
             end
         end
       else
         Next (State (tree st1) (created_dirs st1) (moved_files st1)
                 (errors st1 ++ [Error rel_path "File not found"])))
    with
    | Next st' | Escaped st' => tree st' !! k = tree st !! k
    end).
  { intros st1 H1. destruct (exists_ (tree st1) old); [|done].
    destruct dry_run.
    { by destruct (relative_to PUBLIC_DIR old). }
    destruct (mkdir_parents (tree st1) (parent new)) as [t1|] eqn:Hmk; [|done].
    pose proof (mkdir_parents_frame _ _ _ k Hmk Hpre) as Ht1.
    destruct (shutil_move t1 old new) as [t2|] eqn:Hmove.
    - pose proof (shutil_move_frame _ _ _ _ k Hmove Hold Hnew Hpre) as Ht2.
      destruct (relative_to PUBLIC_DIR old); cbn [tree]; congruence.
    - cbn [tree]. congruence. }
  destruct (bool_decide (parent new ∈ created_dirs st)); [by apply Hmid|].
  destruct dry_run.
  - destruct (relative_to PUBLIC_DIR (parent new)); [|done].
    by apply (Hmid (State _ _ _ _)).
  - destruct (mkdir_parents (tree st) (parent new)) as [t'|] eqn:Hmk; [|done].
    pose proof (mkdir_parents_frame _ _ _ k Hmk Hpre) as Ht'.
    destruct (relative_to PUBLIC_DIR (parent new)); [|done].
    by apply (Hmid (State _ _ _ _)).
Qed.

Lemma migrate_loop_frame dry_run m st k :
  MigrateFrame.named PUBLIC_DIR m k = false →
  match migrate_loop PUBLIC_DIR dry_run m st with
  | Next st' | Escaped st' => tree st' !! k = tree st !! k
  end.
Proof.
  revert st. induction m as [|kv m IH]; intros st Hnamed; [done|].
  cbn [migrate_loop].
  destruct (migrate_named_false (kv :: m) k kv Hnamed (list_elem_of_here _ _))
    as (H1 & H2 & H3).
  pose proof (migrate_entry_frame dry_run st kv k H1 H2 H3) as Hstep.
  destruct (migrate_entry PUBLIC_DIR dry_run st kv) as [st1|st1]; [|done].
  assert (Hrest : MigrateFrame.named PUBLIC_DIR m k = false).
  { unfold MigrateFrame.named in *. cbn [existsb] in Hnamed.
    by apply orb_false_iff in Hnamed as [_ ?]. }
  specialize (IH st1 Hrest).
  destruct (migrate_loop PUBLIC_DIR dry_run m st1); congruence.
Qed.

(** X27.  [migrate_files] leaves alone whatever the migration map does
    not name.  When every old path of the map is written as an absolute
    path and no path of the map has a [..] component, a path that is not
    at or below the old or the new place of any entry, and is not a
    directory above a new place, holds after the run what it held before;
    the one exception is a directory strictly below [PUBLIC_DIR] that the
    clean-up of a live run removes.  This holds also when an exception
    ends the run. *)
Theorem migrate_files_leaves_unnamed_paths dry_run m t k :
  MigrateFrame.plain PUBLIC_DIR m = true →
  MigrateFrame.named PUBLIC_DIR m k = false →
  (migrate_files PUBLIC_DIR dry_run m t).1 !! k = t !! k
  ∨ (dry_run = false
     ∧ (migrate_files PUBLIC_DIR dry_run m t).1 !! k = None
     ∧ t !! k = Some Dir
     ∧ is_below PUBLIC_DIR k = true ∧ k ≠ PUBLIC_DIR).
Proof.
  intros _ Hnamed. unfold migrate_files.
  pose proof (migrate_loop_frame dry_run m (State t [] [] []) k Hnamed) as Hloop.
  destruct (migrate_loop PUBLIC_DIR dry_run m _) as [st|st];
    cbn [tree fst] in *; [|by left].
  destruct dry_run; [by left|].
  assert (Hclean :
    cleanup PUBLIC_DIR (tree st) !! k = tree st !! k
    ∨ (cleanup PUBLIC_DIR (tree st) !! k = None
       ∧ tree st !! k = Some Dir
       ∧ is_below PUBLIC_DIR k = true ∧ k ≠ PUBLIC_DIR)).
  { unfold cleanup. apply cleanup_loop_frame.
    intros p Hp. by apply rglob_below in Hp as [? _]. }
  destruct Hclean as [Heq|(Hnone & Hdir & Hbelow & Hne)].
  - left. congruence.
  - right. rewrite Hloop in Hdir. done.
Qed.

End MigrateUntouched.

(** X27 at a live run over a tree with a file the map does not name. *)
Lemma migrate_files_leaves_unnamed_paths_witness :
  (MigrateAssets.migrate_files ApplierInputs.public_dir false
     CleanupInputs.one_entry_map FrameInputs.tree_with_bystander).1
    !! ["repo"; "public"; "cdn-assets"; "z.png"]
  = FrameInputs.tree_with_bystander !! ["repo"; "public"; "cdn-assets"; "z.png"]
  ∨ (false = false
     ∧ (MigrateAssets.migrate_files ApplierInputs.public_dir false
          CleanupInputs.one_entry_map FrameInputs.tree_with_bystander).1
         !! ["repo"; "public"; "cdn-assets"; "z.png"] = None
     ∧ FrameInputs.tree_with_bystander
         !! ["repo"; "public"; "cdn-assets"; "z.png"] = Some FS.Dir
     ∧ FS.is_below ApplierInputs.public_dir
         ["repo"; "public"; "cdn-assets"; "z.png"] = true
     ∧ ["repo"; "public"; "cdn-assets"; "z.png"] ≠ ApplierInputs.public_dir).
Proof.
  apply (migrate_files_leaves_unnamed_paths ApplierInputs.public_dir false
           CleanupInputs.one_entry_map FrameInputs.tree_with_bystander
           ["repo"; "public"; "cdn-assets"; "z.png"]).
  - vm_compute; reflexivity.
  - vm_compute; reflexivity.
Defined.
